(** * GeNN code generator: scanner, numeric types, SIMT kernel layout, runner

    A shallow embedding of the parts of the GeNN code generator that the
    specification's testable properties are about:

    - [Numeric]      genn/type.cc                 (promotion and common type)
    - [Scanner]      genn/transpiler/scanner.cc   (tokens of user snippets)
    - [BackendSIMT]  code_generator/backendSIMT.cc
                     (thread-id ranges of the reset kernels, strategy registry)
    - [Runner]       code_generator/generateRunner.cc (the stepTime driver)
    - [CustomUpdate] code_generator/customUpdateGroupMerged.cc

    and, beyond these, of what stands next to them in the same files:

    - [Lexical], [Literals]
                        the vocabulary of the scanner's properties
    - [NumericTypes]    genn/type.cc (the table of type specifiers)
    - [Scopes], [Threads], [DeviceTypes]
                        code_generator/backendSIMT.cc
    - [PushPull], [MergedStruct]
                        code_generator/generateRunner.cc
    - [TypeEnvironment] code_generator/customUpdateGroupMerged.cc
    - [VarIndex]        customUpdateGroupMerged.cc, neuronUpdateGroupMerged.cc

    C++ exceptions are values of [Result]; output streams are the sequence of
    text pieces written to them. *)

From Stdlib Require Import QArith Ascii String.
From stdpp Require Import gmap strings list pretty.

Open Scope string_scope.
Open Scope list_scope.

(** ** Exceptions *)

(** The exceptions the modelled code can raise.  [OutOfFuel] is not a C++
    exception: it is what a loop of the model answers when its iteration
    budget is used up, and [Scanner.scanSource_fuel] shows that the scanner
    never answers it. *)
Inductive Exception : Type :=
| out_of_range
| runtime_error (what : string)
| OutOfFuel.

Inductive Result (A : Type) : Type :=
| Ok (a : A)
| Throw (e : Exception).
Arguments Ok {A} a.
Arguments Throw {A} e.

#[global] Instance Result_ret : MRet Result := fun A a => Ok a.
#[global] Instance Result_bind : MBind Result := fun A B k r =>
  match r with
  | Ok a => k a
  | Throw e => Throw e
  end.

(** ** genn/type.cc *)
Module Numeric.

(** The singletons created by IMPLEMENT_NUMERIC_TYPE. *)
Inductive NumericBase : Type :=
| Bool | Int8 | Int16 | Int32 | Uint8 | Uint16 | Uint32 | Float | Double.

#[global] Instance NumericBase_eq_dec : EqDecision NumericBase.
Proof. solve_decision. Defined.

Definition all_types : list NumericBase :=
  [Bool; Int8; Int16; Int32; Uint8; Uint16; Uint32; Float; Double].

(** Modelled from the spec: type.h (DECLARE_NUMERIC_TYPE) is not part of the
    sources.  The spec gives rank(int8) < rank(int16) < rank(int32), the
    unsigned variants sharing the rank of their signed counterparts, bool
    below every integer and the floating types apart from the integer
    ranks. *)
Definition getRank (t : NumericBase) : Z :=
  match t with
  | Bool => 0
  | Int8 | Uint8 => 10
  | Int16 | Uint16 => 20
  | Int32 | Uint32 => 30
  | Float => 50
  | Double => 60
  end.

(** Modelled from the spec: the name each singleton reports, the C name of
    its underlying type. *)
Definition getTypeName (t : NumericBase) : string :=
  match t with
  | Bool => "bool"
  | Int8 => "int8_t"
  | Int16 => "int16_t"
  | Int32 => "int32_t"
  | Uint8 => "uint8_t"
  | Uint16 => "uint16_t"
  | Uint32 => "uint32_t"
  | Float => "float"
  | Double => "double"
  end.

(** Modelled from the spec: signedness and limits of the underlying C types
    (std::numeric_limits). *)
Definition isSigned (t : NumericBase) : bool :=
  match t with
  | Int8 | Int16 | Int32 | Float | Double => true
  | Bool | Uint8 | Uint16 | Uint32 => false
  end.

Definition getMin (t : NumericBase) : Q :=
  match t with
  | Bool | Uint8 | Uint16 | Uint32 => 0
  | Int8 => inject_Z (- 2 ^ 7)
  | Int16 => inject_Z (- 2 ^ 15)
  | Int32 => inject_Z (- 2 ^ 31)
  | Float => 1 # (2 ^ 126)
  | Double => 1 # (2 ^ 1022)
  end.

Definition getMax (t : NumericBase) : Q :=
  match t with
  | Bool => 1
  | Uint8 => inject_Z (2 ^ 8 - 1)
  | Uint16 => inject_Z (2 ^ 16 - 1)
  | Uint32 => inject_Z (2 ^ 32 - 1)
  | Int8 => inject_Z (2 ^ 7 - 1)
  | Int16 => inject_Z (2 ^ 15 - 1)
  | Int32 => inject_Z (2 ^ 31 - 1)
  | Float => inject_Z (2 ^ 128 - 2 ^ 104)
  | Double => inject_Z (2 ^ 1024 - 2 ^ 971)
  end.

(** The table [unsignedType]; [at] throws std::out_of_range on a key that is
    not in it. *)
Definition unsignedType : list (NumericBase * NumericBase) :=
  [(Int8, Uint8); (Int16, Uint16); (Int32, Uint32)].

Fixpoint at_ {V : Type} (table : list (NumericBase * V)) (k : NumericBase)
  : Result V :=
  match table with
  | [] => Throw out_of_range
  | (k', v) :: rest => if decide (k' = k) then Ok v else at_ rest k
  end.

Definition getPromotedType (type : NumericBase) : NumericBase :=
  if (getRank type <? getRank Int32)%Z then Int32 else type.

Definition getCommonType (a b : NumericBase) : Result NumericBase :=
  let aTypeName := getTypeName a in
  let bTypeName := getTypeName b in
  if String.eqb aTypeName (getTypeName Double)
     || String.eqb bTypeName (getTypeName Double) then
    Ok Double
  else if String.eqb aTypeName (getTypeName Float)
          || String.eqb bTypeName (getTypeName Float) then
    Ok Float
  else
    let aPromoted := getPromotedType a in
    let bPromoted := getPromotedType b in
    if String.eqb (getTypeName aPromoted) (getTypeName bPromoted) then
      Ok aPromoted
    else if Bool.eqb (isSigned aPromoted) (isSigned bPromoted) then
      Ok (if (getRank aPromoted >? getRank bPromoted)%Z
          then aPromoted else bPromoted)
    else
      let signedOp := if isSigned aPromoted then aPromoted else bPromoted in
      let unsignedOp := if isSigned aPromoted then bPromoted else aPromoted in
      if (getRank unsignedOp >=? getRank signedOp)%Z then
        Ok unsignedOp
      else if Qle_bool (getMin signedOp) (getMin unsignedOp)
              && Qle_bool (getMax unsignedOp) (getMax signedOp) then
        Ok signedOp
      else
        at_ unsignedType signedOp.

End Numeric.

(** ** genn/transpiler/scanner.cc *)
Module Scanner.

(** Token::Type, as far as the scanner produces it. *)
Inductive TokenType : Type :=
| LEFT_PAREN | RIGHT_PAREN | LEFT_BRACE | RIGHT_BRACE
| LEFT_SQUARE_BRACKET | RIGHT_SQUARE_BRACKET
| COMMA | DOT | COLON | SEMICOLON | TILDA | QUESTION
| NOT | NOT_EQUAL | EQUAL_EQUAL | EQUAL
| STAR_EQUAL | STAR | SLASH | PERCENT_EQUAL | PERCENT
| CARET_EQUAL | CARET
| LESS_EQUAL | SHIFT_LEFT_EQUAL | SHIFT_LEFT | LESS
| GREATER_EQUAL | SHIFT_RIGHT_EQUAL | SHIFT_RIGHT | GREATER
| PLUS_EQUAL | PLUS_PLUS | PLUS
| MINUS_EQUAL | MINUS_MINUS | MINUS
| AMPERSAND_EQUAL | AMPERSAND_AMPERSAND | AMPERSAND
| PIPE_EQUAL | PIPE_PIPE | PIPE
| IDENTIFIER | STRING
| INT32_NUMBER | UINT32_NUMBER | FLOAT_NUMBER | DOUBLE_NUMBER
| TYPE_SPECIFIER | TYPE_QUALIFIER
| DO | ELSE | FALSE | FOR | IF | TRUE | WHILE | SWITCH | BREAK | CONTINUE
| CASE | DEFAULT | PRINT
| END_OF_FILE.

#[global] Instance TokenType_eq_dec : EqDecision TokenType.
Proof. solve_decision. Defined.

Record Token : Type := mkToken {
  type : TokenType;
  lexeme : string;
  line : nat }.

(** The values of a Type::TypeContext: the numeric singletons and pointers
    to them. *)
Inductive TypeBase : Type :=
| NumericType (t : Numeric.NumericBase)
| PointerType (valueType : TypeBase).

Abbreviation TypeContext := (gmap string TypeBase).

(** The log of an ErrorHandlerBase: one entry per call of
    [error(line, message)], oldest first.  The interface offers no way to
    remove an entry. *)
Abbreviation ErrorLog := (list (nat * string)).

Definition keywords : gmap string TokenType := list_to_map [
  ("const", TYPE_QUALIFIER);
  ("do", DO);
  ("else", ELSE);
  ("false", FALSE);
  ("for", FOR);
  ("if", IF);
  ("true", TRUE);
  ("while", WHILE);
  ("switch", SWITCH);
  ("break", BREAK);
  ("continue", CONTINUE);
  ("case", CASE);
  ("default", DEFAULT);
  ("print", PRINT);
  ("char", TYPE_SPECIFIER);
  ("short", TYPE_SPECIFIER);
  ("int", TYPE_SPECIFIER);
  ("long", TYPE_SPECIFIER);
  ("float", TYPE_SPECIFIER);
  ("double", TYPE_SPECIFIER);
  ("signed", TYPE_SPECIFIER);
  ("unsigned", TYPE_SPECIFIER);
  ("uint8_t", TYPE_SPECIFIER);
  ("int8_t", TYPE_SPECIFIER);
  ("uint16_t", TYPE_SPECIFIER);
  ("int16_t", TYPE_SPECIFIER);
  ("uint32_t", TYPE_SPECIFIER);
  ("int32_t", TYPE_SPECIFIER);
  ("bool", TYPE_SPECIFIER)].

Definition integerLiteralTokenTypes : gmap (gset ascii) TokenType :=
  list_to_map [
    ((∅ : gset ascii), INT32_NUMBER);
    (({["U"%char]} : gset ascii), UINT32_NUMBER)].

(** std::map::at: throws std::out_of_range on a missing key. *)
Definition at_ {K V : Type} `{Countable K} (m : gmap K V) (k : K)
  : Result V :=
  match m !! k with
  | Some v => Ok v
  | None => Throw out_of_range
  end.

(** *** <cctype> in the C locale *)

Definition between (lo hi c : ascii) : bool :=
  (nat_of_ascii lo <=? nat_of_ascii c)%nat
  && (nat_of_ascii c <=? nat_of_ascii hi)%nat.

Definition isdigit (c : ascii) : bool := between "0" "9" c.
Definition isodigit (c : ascii) : bool := between "0" "7" c.
Definition isxdigit (c : ascii) : bool :=
  isdigit c || between "a" "f" c || between "A" "F" c.
Definition isalpha (c : ascii) : bool :=
  between "a" "z" c || between "A" "Z" c.
Definition isalnum (c : ascii) : bool := isalpha c || isdigit c.
Definition toupper (c : ascii) : ascii :=
  if between "a" "z" c then ascii_of_nat (nat_of_ascii c - 32) else c.
Definition tolower (c : ascii) : ascii :=
  if between "A" "Z" c then ascii_of_nat (nat_of_ascii c + 32) else c.

(** *** ScanState *)

Record ScanState : Type := mkScanState {
  m_Start : nat;
  m_Current : nat;
  m_Line : nat;
  m_Source : string;
  m_Context : TypeContext;
  m_ErrorHandler : ErrorLog }.

Definition newScanState (source : string) (context : TypeContext)
  (errorHandler : ErrorLog) : ScanState :=
  mkScanState 0 0 1 source context errorHandler.

Definition set_Current (s : ScanState) (n : nat) : ScanState :=
  mkScanState (m_Start s) n (m_Line s) (m_Source s) (m_Context s)
    (m_ErrorHandler s).

(** std::string_view::at: throws std::out_of_range past the end. *)
Definition source_at (source : string) (pos : nat) : Result ascii :=
  match String.get pos source with
  | Some c => Ok c
  | None => Throw out_of_range
  end.

Definition isAtEnd (s : ScanState) : bool :=
  (String.length (m_Source s) <=? m_Current s)%nat.

Definition advance (s : ScanState) : Result (ascii * ScanState) :=
  let s' := set_Current s (m_Current s + 1) in
  c ← source_at (m_Source s') (m_Current s' - 1);
  Ok (c, s').

(** [peek], [peekNext] and [match] read [m_Source.at] only behind their own
    bounds test, where it cannot throw; the character read there is
    [char_at]. *)
Definition char_at (source : string) (pos : nat) : ascii :=
  match String.get pos source with
  | Some c => c
  | None => "000"%char
  end.

Definition match_ (expected : ascii) (s : ScanState) : bool * ScanState :=
  if isAtEnd s then (false, s)
  else if negb (Ascii.eqb (char_at (m_Source s) (m_Current s)) expected)
  then (false, s)
  else (true, set_Current s (m_Current s + 1)).

Definition resetLexeme (s : ScanState) : ScanState :=
  mkScanState (m_Current s) (m_Current s) (m_Line s) (m_Source s)
    (m_Context s) (m_ErrorHandler s).

Definition peek (s : ScanState) : ascii :=
  if isAtEnd s then "000"%char else char_at (m_Source s) (m_Current s).

Definition peekNext (s : ScanState) : ascii :=
  if (String.length (m_Source s) <=? m_Current s + 1)%nat then "000"%char
  else char_at (m_Source s) (m_Current s + 1).

Definition getLexeme (s : ScanState) : string :=
  String.substring (m_Start s) (m_Current s - m_Start s) (m_Source s).

Definition getLine (s : ScanState) : nat := m_Line s.

Definition nextLine (s : ScanState) : ScanState :=
  mkScanState (m_Start s) (m_Current s) (m_Line s + 1) (m_Source s)
    (m_Context s) (m_ErrorHandler s).

Definition error (message : string) (s : ScanState) : ScanState :=
  mkScanState (m_Start s) (m_Current s) (m_Line s) (m_Source s)
    (m_Context s) (m_ErrorHandler s ++ [(getLine s, message)]).

Definition isTypedefIdentifier (lexeme : string) (s : ScanState) : bool :=
  bool_decide (is_Some (m_Context s !! lexeme)).

Definition getScalarTokenType (s : ScanState) : Result TokenType :=
  match m_Context s !! "scalar" with
  | None =>
      Throw (runtime_error
        "Cannot scan scalar literals without 'scalar' type being defined in type context")
  | Some (NumericType Numeric.Float) => Ok FLOAT_NUMBER
  | Some (NumericType Numeric.Double) => Ok DOUBLE_NUMBER
  | Some _ =>
      Throw (runtime_error ("Unsupported scalar type '" +:+ "scalar" +:+ "'"))
  end.

Definition emplaceToken (tokens : list Token) (type : TokenType)
  (s : ScanState) : list Token :=
  tokens ++ [mkToken type (getLexeme s) (getLine s)].

(** *** Loops

    Every inner loop of the scanner has the body [advance()].  A loop that
    enters its body with [m_Current] at the end of the source leaves by the
    exception of [advance], so [loopFuel] iterations are enough. *)
Definition loopFuel (s : ScanState) : nat :=
  S (String.length (m_Source s) - m_Current s).
Arguments loopFuel : simpl never.

Fixpoint advanceWhile (fuel : nat) (cond : ScanState -> bool) (s : ScanState)
  : Result ScanState :=
  match fuel with
  | O => Throw OutOfFuel
  | S fuel' =>
      if cond s then
        '(_, s') ← advance s;
        advanceWhile fuel' cond s'
      else Ok s
  end.

Definition isSuffixChar (s : ScanState) : bool :=
  Ascii.eqb (toupper (peek s)) "U" || Ascii.eqb (toupper (peek s)) "L".

Fixpoint readSuffix (fuel : nat) (suffix : gset ascii) (s : ScanState)
  : Result (gset ascii * ScanState) :=
  match fuel with
  | O => Throw OutOfFuel
  | S fuel' =>
      if isSuffixChar s then
        '(c, s') ← advance s;
        readSuffix fuel' ({[toupper c]} ∪ suffix) s'
      else Ok (suffix, s)
  end.

Definition scanIntegerSuffix (s : ScanState) : Result (TokenType * ScanState) :=
  '(suffix, s) ← readSuffix (loopFuel s) ∅ s;
  t ← at_ integerLiteralTokenTypes suffix;
  Ok (t, s).

Definition scanNumber (c : ascii) (s : ScanState) (tokens : list Token)
  : Result (ScanState * list Token) :=
  let '(m0, s0) :=
    if Ascii.eqb c "0" then
      let '(mx, sx) := match_ "x" s in
      if mx then (true, sx) else match_ "X" sx
    else (false, s) in
  if m0 then
    (* hexadecimal literal *)
    s1 ← advanceWhile (loopFuel s0) (fun s => isxdigit (peek s)) s0;
    let '(mdot, s2) := match_ "." s1 in
    let s3 :=
      if mdot then error "Hexadecimal floating pointer literals unsupported." s2
      else s2 in
    s4 ← advanceWhile (loopFuel s3) (fun s => isxdigit (peek s)) s3;
    '(t, s5) ← scanIntegerSuffix s4;
    Ok (s5, emplaceToken tokens t s5)
  else if Ascii.eqb c "0" && isodigit (peek s0) then
    Ok (error "Octal literals unsupported." s0, tokens)
  else
    s1 ← advanceWhile (loopFuel s0) (fun s => isdigit (peek s)) s0;
    let '(isFloat, s2) := match_ "." s1 in
    s3 ← advanceWhile (loopFuel s2) (fun s => isdigit (peek s)) s2;
    if isFloat then
      let '(me, s4) := match_ "e" s3 in
      s6 ← (if me then
              s5 ← (if Ascii.eqb (peek s4) "-" || Ascii.eqb (peek s4) "+"
                    then '(_, s') ← advance s4; Ok s'
                    else Ok s4);
              advanceWhile (loopFuel s5) (fun s => isdigit (peek s)) s5
            else Ok s4);
      if Ascii.eqb (tolower (peek s6)) "f" then
        let tokens' := emplaceToken tokens FLOAT_NUMBER s6 in
        '(_, s7) ← advance s6;
        Ok (s7, tokens')
      else if Ascii.eqb (tolower (peek s6)) "d" then
        let tokens' := emplaceToken tokens DOUBLE_NUMBER s6 in
        '(_, s7) ← advance s6;
        Ok (s7, tokens')
      else
        t ← getScalarTokenType s6;
        Ok (s6, emplaceToken tokens t s6)
    else
      '(t, s4) ← scanIntegerSuffix s3;
      Ok (s4, emplaceToken tokens t s4).

Definition scanString (s : ScanState) (tokens : list Token)
  : Result (ScanState * list Token) :=
  s1 ← advanceWhile (loopFuel s) (fun s => negb (Ascii.eqb (peek s) "034")) s;
  let '(_, s2) := match_ "034" s1 in
  Ok (s2, emplaceToken tokens STRING s2).

Definition scanIdentifier (s : ScanState) (tokens : list Token)
  : Result (ScanState * list Token) :=
  s1 ← advanceWhile (loopFuel s)
         (fun s => isalnum (peek s) || Ascii.eqb (peek s) "_") s;
  match keywords !! getLexeme s1 with
  | Some k => Ok (s1, emplaceToken tokens k s1)
  | None =>
      if isTypedefIdentifier (getLexeme s1) s1 then
        Ok (s1, emplaceToken tokens TYPE_SPECIFIER s1)
      else
        Ok (s1, emplaceToken tokens IDENTIFIER s1)
  end.

(** [emplaceToken(tokens, match('=') ? a : b, scanState)] *)
Definition emplaceEither (s : ScanState) (tokens : list Token)
  (expected : ascii) (a b : TokenType) : Result (ScanState * list Token) :=
  let '(m, s1) := match_ expected s in
  Ok (s1, emplaceToken tokens (if m then a else b) s1).

(** The three-way cases of [scanToken]: '=' after the operator, the second
    character [second] after it (then, where [withEqual] is given, a
    further '='), or the operator alone. *)
Definition emplaceCompound (s : ScanState) (tokens : list Token)
  (equalType : TokenType) (second : ascii) (doubledType : TokenType)
  (single : TokenType) : Result (ScanState * list Token) :=
  let '(meq, s1) := match_ "=" s in
  if meq then Ok (s1, emplaceToken tokens equalType s1)
  else
    let '(m2, s2) := match_ second s1 in
    if m2 then Ok (s2, emplaceToken tokens doubledType s2)
    else Ok (s2, emplaceToken tokens single s2).

Definition emplaceShift (s : ScanState) (tokens : list Token)
  (equalType : TokenType) (second : ascii)
  (shiftEqualType shiftType : TokenType) (single : TokenType)
  : Result (ScanState * list Token) :=
  let '(meq, s1) := match_ "=" s in
  if meq then Ok (s1, emplaceToken tokens equalType s1)
  else
    let '(m2, s2) := match_ second s1 in
    if m2 then
      let '(m3, s3) := match_ "=" s2 in
      if m3 then Ok (s3, emplaceToken tokens shiftEqualType s3)
      else Ok (s3, emplaceToken tokens shiftType s3)
    else Ok (s2, emplaceToken tokens single s2).

Local Notation "c == x" := (Ascii.eqb c x%char) (at level 70).

Definition scanToken (s : ScanState) (tokens : list Token)
  : Result (ScanState * list Token) :=
  '(c, s) ← advance s;
  (* Single character tokens *)
  if c == "(" then Ok (s, emplaceToken tokens LEFT_PAREN s)
  else if c == ")" then Ok (s, emplaceToken tokens RIGHT_PAREN s)
  else if c == "{" then Ok (s, emplaceToken tokens LEFT_BRACE s)
  else if c == "}" then Ok (s, emplaceToken tokens RIGHT_BRACE s)
  else if c == "[" then Ok (s, emplaceToken tokens LEFT_SQUARE_BRACKET s)
  else if c == "]" then Ok (s, emplaceToken tokens RIGHT_SQUARE_BRACKET s)
  else if c == "," then Ok (s, emplaceToken tokens COMMA s)
  else if c == "." then Ok (s, emplaceToken tokens DOT s)
  else if c == ":" then Ok (s, emplaceToken tokens COLON s)
  else if c == ";" then Ok (s, emplaceToken tokens SEMICOLON s)
  else if c == "~" then Ok (s, emplaceToken tokens TILDA s)
  else if c == "?" then Ok (s, emplaceToken tokens QUESTION s)
  (* Operators *)
  else if c == "!" then emplaceEither s tokens "=" NOT_EQUAL NOT
  else if c == "=" then emplaceEither s tokens "=" EQUAL_EQUAL EQUAL
  (* Assignment operators *)
  else if c == "*" then emplaceEither s tokens "=" STAR_EQUAL STAR
  else if c == "%" then emplaceEither s tokens "=" PERCENT_EQUAL PERCENT
  else if c == "^" then emplaceEither s tokens "=" CARET_EQUAL CARET
  else if c == "<" then
    emplaceShift s tokens LESS_EQUAL "<" SHIFT_LEFT_EQUAL SHIFT_LEFT LESS
  else if c == ">" then
    emplaceShift s tokens GREATER_EQUAL "<" SHIFT_RIGHT_EQUAL SHIFT_RIGHT GREATER
  else if c == "+" then emplaceCompound s tokens PLUS_EQUAL "+" PLUS_PLUS PLUS
  else if c == "-" then emplaceCompound s tokens MINUS_EQUAL "-" MINUS_MINUS MINUS
  else if c == "&" then
    emplaceCompound s tokens AMPERSAND_EQUAL "&" AMPERSAND_AMPERSAND AMPERSAND
  else if c == "|" then emplaceCompound s tokens PIPE_EQUAL "|" PIPE_PIPE PIPE
  else if c == "/" then
    let '(m, s1) := match_ "/" s in
    if m then
      (* Line comment *)
      s2 ← advanceWhile (loopFuel s1)
             (fun s => negb (Ascii.eqb (peek s) "010") && negb (isAtEnd s)) s1;
      Ok (s2, tokens)
    else Ok (s1, emplaceToken tokens SLASH s1)
  (* String *)
  else if c == "034" then scanString s tokens
  (* Whitespace *)
  else if (c == " ") || (c == "013") || (c == "009") then Ok (s, tokens)
  (* New line *)
  else if c == "010" then Ok (nextLine s, tokens)
  else if isdigit c || (c == ".") then scanNumber c s tokens
  else if isalpha c || (c == "_") then scanIdentifier s tokens
  else Ok (error "Unexpected character." s, tokens).

Fixpoint scanTokens (fuel : nat) (s : ScanState) (tokens : list Token)
  : Result (ScanState * list Token) :=
  match fuel with
  | O => Throw OutOfFuel
  | S fuel' =>
      if negb (isAtEnd s) then
        '(s', tokens') ← scanToken (resetLexeme s) tokens;
        scanTokens fuel' s' tokens'
      else Ok (s, tokens)
  end.

(** [scanSource] returns the tokens; the error handler it was given by
    reference is returned with them. *)
Definition scanSource (source : string) (context : TypeContext)
  (errorHandler : ErrorLog) : Result (list Token * ErrorLog) :=
  let tokens := [] in
  let scanState := newScanState source context errorHandler in
  '(scanState, tokens) ← scanTokens (loopFuel scanState) scanState tokens;
  Ok (emplaceToken tokens END_OF_FILE scanState, m_ErrorHandler scanState).

(** A string of decimal digits. *)
Definition isDigits (s : string) : bool :=
  forallb isdigit (list_ascii_of_string s).

(** *** Relations between the states of a scan *)

(** [s'] is a later state of the scan that was in state [s]: the same
    source and context, further on in the source, with a longer error log. *)
Definition extends (s s' : ScanState) : Prop :=
  m_Source s' = m_Source s /\ m_Context s' = m_Context s
  /\ m_Current s <= m_Current s'
  /\ exists reported, m_ErrorHandler s' = m_ErrorHandler s ++ reported.

(** The outcome of a scanner function: a later state, or an exception of
    the C++ code. *)
Definition sound {A : Type} (s : ScanState) (state : A -> ScanState)
  (r : Result A) : Prop :=
  match r with
  | Ok a => extends s (state a)
  | Throw e => e <> OutOfFuel
  end.

(** A call of [scanToken] that returns has consumed at least one character. *)
Definition progress (s : ScanState) (r : Result (ScanState * list Token)) : Prop :=
  match r with
  | Ok (s', _) => extends s s' /\ m_Current s < m_Current s'
  | Throw e => e <> OutOfFuel
  end.

End Scanner.

(** ** Output streams

    CodeStream (codeStream.h) is not part of the sources.  A stream is the
    sequence of pieces written to it with [<<]: text, the braces a
    CodeStream::Scope or OB/CB writes, and the thread-id range tests of
    the kernels, kept apart from other text so that they can be read back.
    Indentation is not modelled. *)
Module CodeStream.

Inductive RangeTest : Type :=
| IdBelow (hi : N)               (* if(id < hi) *)
| IdWithin (lo hi : N).          (* if(id >= lo && id < hi) *)

Inductive Piece : Type :=
| Str (text : string)
| If (test : RangeTest)
| OB
| CB.

Abbreviation CodeStream := (list Piece).

Definition endl : string := String "010" "".

Definition str (os : CodeStream) : string :=
  String.concat ""
    (map (fun p =>
            match p with
            | Str text => text
            | If (IdBelow hi) => "if(id < " +:+ pretty hi +:+ ")"
            | If (IdWithin lo hi) =>
                "if(id >= " +:+ pretty lo +:+ " && id < " +:+ pretty hi +:+ ")"
            | OB => "{" +:+ endl
            | CB => "}" +:+ endl
            end) os).

(** Whether the emitted test holds of the thread id [id]. *)
Definition holds (id : N) (test : RangeTest) : bool :=
  match test with
  | IdBelow hi => (id <? hi)%N
  | IdWithin lo hi => (lo <=? id)%N && (id <? hi)%N
  end.

Definition rangeTests (os : CodeStream) : list RangeTest :=
  omap (fun p => match p with If test => Some test | _ => None end) os.

End CodeStream.

(** ** The model graph, as far as the emitters below read it *)
Module ModelSpec.

Record SynapseGroupInternal : Type := {
  getName : string;
  getPSModelTargetName : string;
  isDendriticDelayRequired : bool;
  getMaxDendriticDelayTimesteps : N }.

Record NeuronGroupInternal : Type := {
  getNumNeurons : N;
  isDelayRequired : bool;
  getNumDelaySlots : N;
  isPrevSpikeTimeRequired : bool;
  isPrevSpikeEventTimeRequired : bool;
  (* std::vector<std::pair<SynapseGroupInternal*, std::vector<...>>> *)
  getMergedInSyn : list (SynapseGroupInternal * list SynapseGroupInternal) }.

(** A merged group: its index and its member groups; the first member is the
    archetype, and a merged group has at least one member. *)
Record GroupMerged (G : Type) : Type := {
  getIndex : N;
  getArchetype : G;
  otherGroups : list G }.
Arguments getIndex {G} _.
Arguments getArchetype {G} _.
Arguments otherGroups {G} _.

Definition getGroups {G : Type} (n : GroupMerged G) : list G :=
  getArchetype n :: otherGroups n.

End ModelSpec.

(** ** size_t *)
Module SizeT.

Definition modulus : N := 2 ^ 64.
Definition wrap (x : N) : N := (x mod modulus)%N.
Definition add (a b : N) : N := wrap (a + b).
Definition sub (a b : N) : N := wrap (a + modulus - wrap b).
Definition mul (a b : N) : N := wrap (a * b).

End SizeT.

(** ** code_generator/backendSIMT.cc *)
Module BackendSIMT.
Import CodeStream ModelSpec.

Inductive Kernel : Type :=
| KernelNeuronUpdate | KernelPresynapticUpdate | KernelPostsynapticUpdate
| KernelSynapseDynamicsUpdate | KernelInitialize | KernelInitializeSparse
| KernelPreNeuronReset | KernelPreSynapseReset | KernelCustomUpdate.

(** Modelled from the spec: [padSize] is declared in a header that is not
    part of the sources.  [pad(n, blockSize)] is [n] rounded up to a whole
    number of blocks (pad(100,32) = 128, pad(250,32) = 256), computed in
    size_t. *)
Definition padSize (size blockSize : N) : N :=
  SizeT.mul (SizeT.sub (SizeT.add size blockSize) 1 / blockSize) blockSize.

Section Kernels.

(** What the emitters take from the rest of the back end: the block size
    table, and the text written by helpers that are not part of the
    sources. *)
Variable getKernelBlockSize : Kernel -> N.
Variable getPointerPrefix : string.
(** [genGroupMergedSearch(os, popSubs, n, idStart)]: the text it writes. *)
Variable genGroupMergedSearch : GroupMerged NeuronGroupInternal -> N -> string.
(** [n.genMergedGroupSpikeCountReset(os, batchSize)]: the text it writes. *)
Variable genMergedGroupSpikeCountReset :
  GroupMerged NeuronGroupInternal -> N -> string.
(** [popSubs[name]], after [genGroupMergedSearch]. *)
Variable popSubs : string -> string.

Definition write (os : CodeStream) (text : string) : CodeStream :=
  os ++ [Str text].

(** The guard in front of a merged group's code. *)
Definition genRangeTest (os : CodeStream) (idStart size : N) : CodeStream :=
  if (idStart =? 0)%N then os ++ [If (IdBelow size)]
  else os ++ [If (IdWithin idStart (SizeT.add idStart size))].

Definition batchLoopOpen (os : CodeStream) (batchSize : N) : CodeStream :=
  if (1 <? batchSize)%N then
    os ++ [Str ("for(unsigned int batch = 0; batch < " +:+ pretty batchSize
                +:+ "; batch++)"); OB]
  else os.

Definition batchLoopClose (os : CodeStream) (batchSize : N) : CodeStream :=
  if (1 <? batchSize)%N then os ++ [CB] else os.

Definition genPrevTimeUpdate (os : CodeStream) (cnt prevT spk : string)
  (slot outerOffset innerOffset : string) : CodeStream :=
  os ++ [Str ("if(" +:+ popSubs "id" +:+ " < group->" +:+ cnt +:+ "[" +:+ slot +:+ "])");
         OB;
         Str ("group->" +:+ prevT +:+ "[" +:+ outerOffset +:+ "group->" +:+ spk
              +:+ "[" +:+ innerOffset +:+ popSubs "id" +:+ "]] = "
              +:+ popSubs "t" +:+ " - DT;" +:+ endl);
         CB].

(** The body generated for a merged group that resets previous spike
    times, between the braces of its range test. *)
Definition genPrevSpikeTimeBody (os : CodeStream)
  (n : GroupMerged NeuronGroupInternal) (idStart batchSize : N) : CodeStream :=
  let a := getArchetype n in
  let os := write os (genGroupMergedSearch n idStart) in
  let os := batchLoopOpen os batchSize in
  let os :=
    if isDelayRequired a then
      let os :=
        if (batchSize =? 1)%N then
          write os ("const unsigned int lastTimestepDelaySlot = *group->spkQuePtr;"
                    +:+ endl)
        else
          write os ("const unsigned int lastTimestepDelaySlot = *group->spkQuePtr  + (batch *  "
                    +:+ pretty (getNumDelaySlots a) +:+ ");" +:+ endl) in
      let os :=
        write os ("const unsigned int lastTimestepDelayOffset = lastTimestepDelaySlot * group->numNeurons;"
                  +:+ endl) in
      let os :=
        if isPrevSpikeTimeRequired a then
          genPrevTimeUpdate os "spkCnt" "prevST" "spk"
            "lastTimestepDelaySlot" "lastTimestepDelayOffset + "
            "lastTimestepDelayOffset + "
        else os in
      if isPrevSpikeEventTimeRequired a then
        genPrevTimeUpdate os "spkCntEvnt" "prevSET" "spkEvnt"
          "lastTimestepDelaySlot" "lastTimestepDelayOffset + "
          "lastTimestepDelayOffset + "
      else os
    else
      let os :=
        if (1 <=? batchSize)%N then
          write os ("const unsigned int batchOffset = group->numNeurons * batch;"
                    +:+ endl)
        else os in
      let slot := if (batchSize =? 1)%N then "0" else "batch" in
      let offset := if (1 <? batchSize)%N then "batchOffset + " else "" in
      let os :=
        if isPrevSpikeTimeRequired a then
          genPrevTimeUpdate os "spkCnt" "prevST" "spk" slot "" offset
        else os in
      if isPrevSpikeEventTimeRequired a then
        genPrevTimeUpdate os "spkCntEvnt" "prevSET" "spkEvnt" slot "" offset
      else os in
  let os := batchLoopClose os batchSize in
  let os := write os endl in
  (* Use first thread to update spike queue pointer and reset spike counts *)
  let os := os ++ [Str ("if(" +:+ popSubs "id" +:+ " == 0)"); OB] in
  let os :=
    if isDelayRequired a then
      write os ("*group->spkQuePtr  = (*group->spkQuePtr + 1) % "
                +:+ pretty (getNumDelaySlots a) +:+ ";" +:+ endl)
    else os in
  let os := batchLoopOpen os batchSize in
  let os := write os (genMergedGroupSpikeCountReset n batchSize) in
  let os := batchLoopClose os batchSize in
  os ++ [CB].

(** The accumulation [paddedSize]: the padded sizes of the members of a
    merged group, summed. *)
Definition paddedSize (n : GroupMerged NeuronGroupInternal) : N :=
  fold_left
    (fun acc g =>
       SizeT.add acc
         (padSize (getNumNeurons g) (getKernelBlockSize KernelPreNeuronReset)))
    (getGroups n) 0%N.

(** [n.getGroups().size()] *)
Definition size {G : Type} (n : GroupMerged G) : N :=
  SizeT.wrap (N.of_nat (length (getGroups n))).

(** The size the pre-neuron-reset kernel gives to a merged group. *)
Definition neuronResetSize (n : GroupMerged NeuronGroupInternal) : N :=
  if isPrevSpikeTimeRequired (getArchetype n)
     || isPrevSpikeEventTimeRequired (getArchetype n)
  then paddedSize n else size n.

(** One iteration of the loop of [genPreNeuronResetKernel]. *)
Definition genPreNeuronResetGroup (batchSize : N) (st : CodeStream * N)
  (n : GroupMerged NeuronGroupInternal) : CodeStream * N :=
  let '(os, idStart) := st in
  let os := write os ("// merged" +:+ pretty (getIndex n) +:+ endl) in
  if isPrevSpikeTimeRequired (getArchetype n)
     || isPrevSpikeEventTimeRequired (getArchetype n) then
    (* Sum padded sizes of each group within merged group *)
    let paddedSize := paddedSize n in
    let os := genRangeTest os idStart paddedSize in
    let os := os ++ [OB] in
    let os := genPrevSpikeTimeBody os n idStart batchSize in
    let os := os ++ [CB] in
    (os, SizeT.add idStart paddedSize)
  else
    let size := size n in
    let os := genRangeTest os idStart size in
    let os := os ++ [OB] in
    let os :=
      write os (getPointerPrefix +:+ "struct MergedNeuronSpikeQueueUpdateGroup"
                +:+ pretty (getIndex n)
                +:+ " *group = &d_mergedNeuronSpikeQueueUpdateGroup"
                +:+ pretty (getIndex n) +:+ "[id - " +:+ pretty idStart +:+ "]; "
                +:+ endl) in
    let os :=
      if isDelayRequired (getArchetype n) then
        write os ("*group->spkQuePtr  = (*group->spkQuePtr + 1) % "
                  +:+ pretty (getNumDelaySlots (getArchetype n)) +:+ ";" +:+ endl)
      else os in
    let os := batchLoopOpen os batchSize in
    let os := write os (genMergedGroupSpikeCountReset n batchSize) in
    let os := batchLoopClose os batchSize in
    let os := os ++ [CB] in
    (os, SizeT.add idStart size).

(** [genPreNeuronResetKernel(os, kernelSubs, modelMerged, idStart)]: the
    stream and [idStart] after the call. *)
Definition genPreNeuronResetKernel (os : CodeStream) (batchSize : N)
  (mergedNeuronSpikeQueueUpdateGroups : list (GroupMerged NeuronGroupInternal))
  : CodeStream * N :=
  fold_left (genPreNeuronResetGroup batchSize)
    mergedNeuronSpikeQueueUpdateGroups (os, 0%N).

(** One iteration of the loop of [genPreSynapseResetKernel]. *)
Definition genPreSynapseResetGroup (st : CodeStream * N)
  (n : GroupMerged SynapseGroupInternal) : CodeStream * N :=
  let '(os, idStart) := st in
  let os := write os ("// merged" +:+ pretty (getIndex n) +:+ endl) in
  let size := size n in
  let os := genRangeTest os idStart size in
  let os := os ++ [OB] in
  let os :=
    write os (getPointerPrefix +:+ "struct MergedSynapseDendriticDelayUpdateGroup"
              +:+ pretty (getIndex n)
              +:+ " *group = &d_mergedSynapseDendriticDelayUpdateGroup"
              +:+ pretty (getIndex n) +:+ "[id - " +:+ pretty idStart +:+ "]; "
              +:+ endl) in
  let os :=
    write os ("*group->denDelayPtr = (*group->denDelayPtr + 1) % "
              +:+ pretty (getMaxDendriticDelayTimesteps (getArchetype n))
              +:+ ";" +:+ endl) in
  let os := os ++ [CB] in
  (os, SizeT.add idStart size).

Definition genPreSynapseResetKernel (os : CodeStream)
  (mergedSynapseDendriticDelayUpdateGroups : list (GroupMerged SynapseGroupInternal))
  : CodeStream * N :=
  let '(os, idStart) :=
    fold_left genPreSynapseResetGroup
      mergedSynapseDendriticDelayUpdateGroups (os, 0%N) in
  (write os endl, idStart).

End Kernels.

(** *** The registry of presynaptic update strategies *)
Section Strategies.

Variable PreferencesBase : Type.

(** PresynapticUpdateStrategySIMT::Base, as far as the registry uses it. *)
Record Strategy : Type := {
  isCompatible : SynapseGroupInternal -> PreferencesBase -> bool;
  getNumThreads : SynapseGroupInternal -> N;
  getSynapticMatrixRowStride : SynapseGroupInternal -> N }.

(** [s_PresynapticUpdateStrategies], a static vector: the registry is
    threaded through the functions that touch it. *)
Definition addPresynapticUpdateStrategy (s_PresynapticUpdateStrategies : list Strategy)
  (strategy : Strategy) : list Strategy :=
  s_PresynapticUpdateStrategies ++ [strategy].

(** The loop from [rbegin()] to [rend()], over the reversed vector. *)
Fixpoint findCompatible (reversed : list Strategy) (sg : SynapseGroupInternal)
  (preferences : PreferencesBase) : option Strategy :=
  match reversed with
  | [] => None
  | s :: rest =>
      if isCompatible s sg preferences then Some s
      else findCompatible rest sg preferences
  end.

Definition getPresynapticUpdateStrategy (s_PresynapticUpdateStrategies : list Strategy)
  (sg : SynapseGroupInternal) (preferences : PreferencesBase) : Result Strategy :=
  match findCompatible (rev s_PresynapticUpdateStrategies) sg preferences with
  | Some s => Ok s
  | None =>
      Throw (runtime_error
        ("Unable to find a suitable presynaptic update strategy for synapse group '"
         +:+ getName sg +:+ "'"))
  end.

Definition getNumPresynapticUpdateThreads (s_PresynapticUpdateStrategies : list Strategy)
  (sg : SynapseGroupInternal) (preferences : PreferencesBase) : Result N :=
  s ← getPresynapticUpdateStrategy s_PresynapticUpdateStrategies sg preferences;
  Ok (getNumThreads s sg).

End Strategies.

End BackendSIMT.

(** ** The layout of thread ids over merged groups *)
Module Layout.
Import CodeStream ModelSpec BackendSIMT.

(** The half-open range of thread ids a test accepts, and its width: the
    number of threads the merged group behind it contributes. *)
Definition bounds (test : RangeTest) : N * N :=
  match test with
  | IdBelow hi => (0, hi)
  | IdWithin lo hi => (lo, hi)
  end%N.

Definition width (test : RangeTest) : N := ((bounds test).2 - (bounds test).1)%N.

Definition N_sum (l : list N) : N := foldr N.add 0%N l.

(** Consecutive ranges of the given widths, from [start] on. *)
Fixpoint layout (start : N) (widths : list N) : list (N * N) :=
  match widths with
  | [] => []
  | w :: widths => (start, start + w)%N :: layout (start + w) widths
  end.

(** [size] rounded up to a whole number of blocks, in exact arithmetic. *)
Definition roundUp (size blockSize : N) : N :=
  ((size + blockSize - 1) / blockSize * blockSize)%N.

Definition numMembers {G : Type} (n : GroupMerged G) : N :=
  N.of_nat (length (getGroups n)).

(** The threads a merged spike queue update group takes in the
    pre-neuron-reset kernel. *)
Definition neuronResetThreads (blockSize : N) (n : GroupMerged NeuronGroupInternal) : N :=
  if isPrevSpikeTimeRequired (getArchetype n)
     || isPrevSpikeEventTimeRequired (getArchetype n)
  then N_sum (map (fun g => roundUp (getNumNeurons g) blockSize) (getGroups n))
  else numMembers n.

(** The test [genRangeTest] writes. *)
Definition rangeTest (idStart size : N) : RangeTest :=
  if (idStart =? 0)%N then IdBelow size
  else IdWithin idStart (SizeT.add idStart size).

(** The tests a kernel writes for groups of the given sizes, with [idStart]
    advanced in size_t. *)
Fixpoint rangeTestsFrom (idStart : N) (sizes : list N) : list RangeTest :=
  match sizes with
  | [] => []
  | size :: sizes =>
      rangeTest idStart size :: rangeTestsFrom (SizeT.add idStart size) sizes
  end.

(** Whether [id] lies in a half-open range. *)
Definition inRange (id : N) (b : N * N) : bool := ((b.1 <=? id) && (id <? b.2))%N.

(** A neuron group of [numNeurons] neurons, which needs its previous spike
    times or not, a synapse group, and a merged group of either. *)
Definition neurons (numNeurons : N) (prevSpikeTime : bool) : NeuronGroupInternal :=
  {| getNumNeurons := numNeurons; isDelayRequired := false;
     getNumDelaySlots := 1; isPrevSpikeTimeRequired := prevSpikeTime;
     isPrevSpikeEventTimeRequired := false; getMergedInSyn := [] |}.

Definition synapses (name : string) : SynapseGroupInternal :=
  {| getName := name; getPSModelTargetName := name;
     isDendriticDelayRequired := true; getMaxDendriticDelayTimesteps := 4 |}.

Definition merged {G : Type} (index : N) (archetype : G) (others : list G)
  : GroupMerged G :=
  {| getIndex := index; getArchetype := archetype; otherGroups := others |}.

(** The reset kernels of a back end whose blocks have 32 threads. *)
Definition preNeuronReset (groups : list (GroupMerged NeuronGroupInternal))
  : CodeStream * N :=
  genPreNeuronResetKernel (fun _ => 32%N) "" (fun _ _ => "") (fun _ _ => "")
    (fun name => name) [] 1 groups.

Definition preSynapseReset (groups : list (GroupMerged SynapseGroupInternal))
  : CodeStream * N :=
  genPreSynapseResetKernel "" [] groups.

End Layout.

(** ** code_generator/generateRunner.cc: the stepTime driver *)
Module Runner.
Import CodeStream ModelSpec.

Definition write (os : CodeStream) (text : string) : CodeStream :=
  os ++ [Str text].

(** [model.getNeuronGroups()] is a std::map from names to neuron groups; it
    is taken as the sequence of its entries in iteration order. *)
Definition genSpikeQueueAdvance (runner : CodeStream)
  (n : string * NeuronGroupInternal) : CodeStream :=
  if isDelayRequired n.2 then
    write runner ("spkQuePtr" +:+ n.1 +:+ " = (spkQuePtr" +:+ n.1 +:+ " + 1) % "
                  +:+ pretty (getNumDelaySlots n.2) +:+ ";" +:+ endl)
  else runner.

Definition genDenDelayAdvance (runner : CodeStream)
  (m : SynapseGroupInternal * list SynapseGroupInternal) : CodeStream :=
  let sg := m.1 in
  if isDendriticDelayRequired sg then
    write runner ("denDelayPtr" +:+ getPSModelTargetName sg +:+ " = (denDelayPtr"
                  +:+ getPSModelTargetName sg +:+ " + 1) % "
                  +:+ pretty (getMaxDendriticDelayTimesteps sg) +:+ ";" +:+ endl)
  else runner.

(** The part of [generateRunner] that writes [stepTime()] to [runner]. *)
Definition genStepTime (runner : CodeStream)
  (neuronGroups : list (string * NeuronGroupInternal))
  (runnerStepTimeFinaliseStream : string) : CodeStream :=
  let runner := write runner "void stepTime()" in
  let runner := runner ++ [OB] in
  (* Update synaptic state *)
  let runner := write runner ("updateSynapses(t);" +:+ endl) in
  (* Generate code to advance host-side spike queues *)
  let runner := fold_left genSpikeQueueAdvance neuronGroups runner in
  (* Update neuronal state *)
  let runner := write runner ("updateNeurons(t);" +:+ endl) in
  (* Generate code to advance host side dendritic delay buffers *)
  let runner :=
    fold_left
      (fun runner n => fold_left genDenDelayAdvance (getMergedInSyn n.2) runner)
      neuronGroups runner in
  (* Advance time *)
  let runner := write runner ("iT++;" +:+ endl) in
  let runner := write runner ("t = iT*DT;" +:+ endl) in
  (* Write step time finalize logic to runner *)
  let runner := write runner runnerStepTimeFinaliseStream in
  let runner := runner ++ [CB] in
  write runner endl.

(** The statements that advance a spike queue pointer and a dendritic delay
    pointer. *)
Definition spikeQueueAdvance (n : string * NeuronGroupInternal) : Piece :=
  Str ("spkQuePtr" +:+ n.1 +:+ " = (spkQuePtr" +:+ n.1 +:+ " + 1) % "
       +:+ pretty (getNumDelaySlots n.2) +:+ ";" +:+ endl).

Definition denDelayAdvance (sg : SynapseGroupInternal) : Piece :=
  Str ("denDelayPtr" +:+ getPSModelTargetName sg +:+ " = (denDelayPtr"
       +:+ getPSModelTargetName sg +:+ " + 1) % "
       +:+ pretty (getMaxDendriticDelayTimesteps sg) +:+ ";" +:+ endl).

End Runner.

(** ** code_generator/customUpdateGroupMerged.cc: genCustomUpdate *)
Module CustomUpdate.
Import CodeStream.

(** Models::Base::Var and Models::Base::VarRef: name, type and access bits. *)
Record Var : Type := mkVar {
  name : string;
  type : string;
  access : N }.

Section GenCustomUpdate.

(** varAccess.h is not part of the sources: the bits of
    VarAccessMode::READ_ONLY, VarAccessMode::READ_WRITE and
    VarAccessModeAttribute::REDUCE, and the duplication bits of an access,
    are taken as given. *)
Variable READ_ONLY READ_WRITE REDUCE : N.
Variable getVarAccessDuplication : N -> N.

(** What [genCustomUpdate] takes from the merged group, the substitution
    stack and the model, none of them part of the sources. *)
Variable VarReference : Type.
Variable getVarReferences : gmap string VarReference.
Variable getVarIndex : N -> string -> string.
Variable getVarRefIndex : VarReference -> string -> string.
(** [updateSubs[index]] *)
Variable updateSubsIndex : string.
(** [updateSubs.applyCheckUnreplaced(code, context)], with the substitutions
    the function has added; it throws when a [$(...)] is left. *)
Variable applyCheckUnreplaced : string -> string -> Result string.
Variable ensureFtype : string -> string -> string.
Variable getPrecision : string.
Variable getIndex : N.

(** [a & b] on access bits, as a condition. *)
Definition hasBits (a b : N) : bool := negb (N.land a b =? 0)%N.

Definition varRefAt (name : string) : Result VarReference :=
  match getVarReferences !! name with
  | Some r => Ok r
  | None => Throw out_of_range
  end.

(** A loop over [items] whose body may throw. *)
Fixpoint forEach {A : Type} (body : CodeStream -> A -> Result CodeStream)
  (items : list A) (os : CodeStream) : Result CodeStream :=
  match items with
  | [] => Ok os
  | v :: rest => os ← body os v; forEach body rest os
  end.

Definition declareVar (os : CodeStream) (v : Var) : CodeStream :=
  os ++ [Str ((if hasBits (access v) READ_ONLY then "const " else "")
              +:+ type v +:+ " l" +:+ name v
              +:+ (if negb (hasBits (access v) REDUCE) then
                     " = group->" +:+ name v +:+ "["
                     +:+ getVarIndex (getVarAccessDuplication (access v))
                           updateSubsIndex
                     +:+ "]"
                   else "")
              +:+ ";" +:+ endl)].

Definition declareVarRef (os : CodeStream) (v : Var) : Result CodeStream :=
  let qualifier := if (access v =? READ_ONLY)%N then "const " else "" in
  initialiser ←
    (if negb (hasBits (access v) REDUCE) then
       r ← varRefAt (name v);
       Ok (" = " +:+ "group->" +:+ name v +:+ "["
           +:+ getVarRefIndex r updateSubsIndex +:+ "]")
     else Ok "");
  Ok (os ++ [Str (qualifier +:+ type v +:+ " l" +:+ name v +:+ initialiser
                  +:+ ";" +:+ endl)]).

Definition writeBackVar (os : CodeStream) (v : Var) : CodeStream :=
  if hasBits (access v) READ_WRITE then
    os ++ [Str ("group->" +:+ name v +:+ "["
                +:+ getVarIndex (getVarAccessDuplication (access v))
                      updateSubsIndex
                +:+ "] = l" +:+ name v +:+ ";" +:+ endl)]
  else os.

Definition writeBackVarRef (os : CodeStream) (v : Var) : Result CodeStream :=
  if (access v =? READ_WRITE)%N then
    r ← varRefAt (name v);
    Ok (os ++ [Str ("group->" +:+ name v +:+ "["
                    +:+ getVarRefIndex r updateSubsIndex
                    +:+ "] = l" +:+ name v +:+ ";" +:+ endl)])
  else Ok os.

Definition genCustomUpdate (os : CodeStream) (getVars varRefs : list Var)
  (getUpdateCode : string) : Result CodeStream :=
  (* Loop through variables *)
  let os := fold_left declareVar getVars os in
  (* Loop through variable references *)
  os ← forEach declareVarRef varRefs os;
  code ← applyCheckUnreplaced getUpdateCode
            ("custom update : merged" +:+ pretty getIndex);
  let code := ensureFtype code getPrecision in
  let os := os ++ [Str code] in
  (* Write read/write variables back to global memory *)
  let os := fold_left writeBackVar getVars os in
  (* Write read/write variable references back to global memory *)
  forEach writeBackVarRef varRefs os.

(** A loop body that only appends to the stream. *)
Definition appends {A : Type} (body : CodeStream -> A -> Result CodeStream) : Prop :=
  forall os v, body os v = (ps ← body [] v; Ok (os ++ ps)).

(** The text of a declaration and of a write-back. *)
Definition declaration (qualifier : string) (v : Var) (initialiser : string) : Piece :=
  Str (qualifier +:+ type v +:+ " l" +:+ name v +:+ initialiser +:+ ";" +:+ endl).

Definition writeBack (v : Var) (index : string) : Piece :=
  Str ("group->" +:+ name v +:+ "[" +:+ index +:+ "] = l" +:+ name v +:+ ";" +:+ endl).

Definition varQualifier (v : Var) : string :=
  if hasBits (access v) READ_ONLY then "const " else "".
Definition varRefQualifier (v : Var) : string :=
  if (access v =? READ_ONLY)%N then "const " else "".
Definition varIndex (v : Var) : string :=
  getVarIndex (getVarAccessDuplication (access v)) updateSubsIndex.

End GenCustomUpdate.

End CustomUpdate.

(** ** genn/type.cc: parseNumeric *)
Module ParseNumeric.
Import Scanner.

Section ParseNumeric.

(** [Parser::parseType(tokens, allowPointers, errorHandler)] is not part of
    the sources: its result (null when no type was parsed) and the errors
    it reports to the handler. *)
Variable parseType : list Token -> bool -> Result (option TypeBase * ErrorLog).

(** SingleLineErrorHandler::hasError *)
Definition hasError (errorHandler : ErrorLog) : bool :=
  negb (bool_decide (errorHandler = [])).

(** The call passes no type context to the scanner: it scans with the empty
    one. *)
Definition parseNumeric (typeString : string) : Result Numeric.NumericBase :=
  let errorHandler : ErrorLog := [] in
  '(tokens, errorHandler) ← scanSource typeString ∅ errorHandler;
  '(parsed, reported) ← parseType tokens false;
  let errorHandler := errorHandler ++ reported in
  let type :=
    match parsed with
    | Some (NumericType t) => Some t
    | _ => None
    end in
  if hasError errorHandler then
    Throw (runtime_error ("Error parsing type '" +:+ typeString +:+ "'"))
  else
    match type with
    | None =>
        Throw (runtime_error ("Unable to parse type '" +:+ typeString +:+ "'"))
    | Some t => Ok t
    end.

End ParseNumeric.

End ParseNumeric.

(** ** Concrete inputs *)
Module Examples.
Import CodeStream ModelSpec BackendSIMT CustomUpdate.

(** Two strategies that accept every synapse group, told apart by their
    thread counts. *)
Definition accepting (threads : N) : Strategy unit :=
  {| isCompatible := fun _ _ => true;
     getNumThreads := fun _ => threads;
     getSynapticMatrixRowStride := fun _ => threads |}.

Definition someSynapseGroup : SynapseGroupInternal :=
  {| getName := "Syn"; getPSModelTargetName := "Syn";
     isDendriticDelayRequired := false; getMaxDendriticDelayTimesteps := 1 |}.

(** The access bits of upstream GeNN's varAccess.h. *)
Definition READ_ONLY : N := 1.
Definition READ_WRITE : N := 2.
Definition REDUCE : N := 4.
Definition SUM : N := 8.
Definition DUPLICATE : N := 32.
Definition SHARED : N := 64.

(** [genCustomUpdate] for a merged custom update that knows the variable
    reference [g], with substitutions that leave the update code as it
    is. *)
Definition gen (getVars varRefs : list Var) (getUpdateCode : string)
  : Result CodeStream :=
  genCustomUpdate READ_ONLY READ_WRITE REDUCE
    (fun a => N.land a (N.lor DUPLICATE SHARED))
    string {["g" := "g"]} (fun _ index => index) (fun _ index => index)
    "id" (fun code _ => Ok code) (fun code _ => code) "float" 0
    [] getVars varRefs getUpdateCode.

End Examples.

(** ** Lexical structure: what the properties of the scanner are stated with *)
Module Lexical.
Import Scanner.

(** The number of newline characters of a source. *)
Fixpoint newlines (source : string) : nat :=
  match source with
  | "" => 0
  | String c rest => (if Ascii.eqb c "010" then 1 else 0) + newlines rest
  end.

(** The newline characters at and after position [pos]. *)
Fixpoint newlinesFrom (pos : nat) (source : string) : nat :=
  match pos, source with
  | S pos, String _ rest => newlinesFrom pos rest
  | _, _ => newlines source
  end.

(** A sequence of line numbers that never goes back. *)
Definition nondecreasing (lines : list nat) : Prop :=
  forall i j a b, i <= j -> lines !! i = Some a -> lines !! j = Some b -> a <= b.

(** What a scanning function does to the line counter, the tokens and the
    error log when it returns: the line is kept, at most one token is
    added and at most one error is reported, both on that line. *)
Definition emits (s : ScanState) (tokens : list Token)
  (r : Result (ScanState * list Token)) : Prop :=
  match r with
  | Ok (s', tokens') =>
      m_Line s' = m_Line s
      /\ (tokens' = tokens
          \/ exists type lexeme,
               tokens' = tokens ++ [mkToken type lexeme (m_Line s)])
      /\ (m_ErrorHandler s' = m_ErrorHandler s
          \/ exists message,
               m_ErrorHandler s' = m_ErrorHandler s ++ [(m_Line s, message)])
  | Throw _ => True
  end.

(** The line counter and the error log are the same in both states. *)
Definition frame (s s' : ScanState) : Prop :=
  m_Line s' = m_Line s /\ m_ErrorHandler s' = m_ErrorHandler s.

(** The invariant of the loop of [scanSource]: the line counter has
    counted no more than the newlines passed, and the tokens and the
    errors carry lines up to the current one, in order. *)
Definition linesInv (s : ScanState) (tokens : list Token) : Prop :=
  1 <= m_Line s
  /\ m_Line s + newlinesFrom (m_Current s) (m_Source s)
     <= 1 + newlines (m_Source s)
  /\ Forall (fun t => 1 <= line t <= m_Line s) tokens
  /\ nondecreasing (line <$> tokens)
  /\ Forall (fun e => 1 <= e.1 <= m_Line s) (m_ErrorHandler s)
  /\ nondecreasing (fst <$> m_ErrorHandler s).

(** Blank characters: space, carriage return, tab and newline. *)
Definition isBlank (c : ascii) : bool :=
  Ascii.eqb c " " || Ascii.eqb c "013" || Ascii.eqb c "009" || Ascii.eqb c "010".

(** The characters that start no lexeme: the control characters other than
    tab, newline and carriage return, the printable characters
    [# $ ' @ \ `], DEL and the bytes above 127. *)
Definition startsNoLexeme (c : ascii) : bool :=
  let n := nat_of_ascii c in
  ((n <? 9) || (n =? 11) || (n =? 12) || ((14 <=? n) && (n <? 32))
   || (n =? 35) || (n =? 36) || (n =? 39) || (n =? 64) || (n =? 92)
   || (n =? 96) || (127 <=? n))%nat.

Definition all (p : ascii -> bool) (s : string) : bool :=
  forallb p (list_ascii_of_string s).

(** The errors a run of blank characters and of characters that start no
    lexeme gives, from line [line] on. *)
Fixpoint unexpected (line : nat) (source : string) : ErrorLog :=
  match source with
  | "" => []
  | String c rest =>
      if Ascii.eqb c "010" then unexpected (line + 1) rest
      else if startsNoLexeme c then
        (line, "Unexpected character.") :: unexpected line rest
      else unexpected line rest
  end.

(** The characters an identifier starts with and goes on with. *)
Definition isIdentifierStart (c : ascii) : bool := isalpha c || Ascii.eqb c "_".
Definition isIdentifierChar (c : ascii) : bool := isalnum c || Ascii.eqb c "_".

(** The type of the token a word is scanned as. *)
Definition wordType (word : string) (context : TypeContext) : TokenType :=
  match keywords !! word with
  | Some k => k
  | None =>
      if bool_decide (is_Some (context !! word)) then TYPE_SPECIFIER
      else IDENTIFIER
  end.

Definition notQuote (c : ascii) : bool := negb (Ascii.eqb c "034").
Definition notNewline (c : ascii) : bool := negb (Ascii.eqb c "010").

(** The token type of an integer literal with suffix [sfx]. *)
Definition integerType (sfx : string) : TokenType :=
  match sfx with
  | "" => INT32_NUMBER
  | _ => UINT32_NUMBER
  end.

(** A token and an error [lines] lines further down. *)
Definition moveToken (lines : nat) (t : Token) : Token :=
  mkToken (type t) (lexeme t) (line t + lines).

Definition moveError (lines : nat) (e : nat * string) : nat * string :=
  (e.1 + lines, e.2).

(** The state of a scan of [m_Source s] seen as the state of a scan of
    [pre +:+ m_Source s] that has passed [pre]: [pre] held [lines] newlines
    and its scan reported [before]. *)
Definition moveState (pre : string) (lines : nat) (before : ErrorLog)
  (s : ScanState) : ScanState :=
  mkScanState (m_Start s + String.length pre) (m_Current s + String.length pre)
    (m_Line s + lines) (pre +:+ m_Source s) (m_Context s)
    (before ++ (moveError lines <$> m_ErrorHandler s)).

(** The tokens of that scan, after the tokens [tokensBefore] of [pre]. *)
Definition moveTokens (lines : nat) (tokensBefore tokens : list Token)
  : list Token :=
  tokensBefore ++ (moveToken lines <$> tokens).

(** The outcome of a scanning function, moved. *)
Definition moveOutcome (pre : string) (lines : nat) (before : ErrorLog)
  (tokensBefore : list Token) (r : Result (ScanState * list Token))
  : Result (ScanState * list Token) :=
  match r with
  | Ok (s, tokens) =>
      Ok (moveState pre lines before s, moveTokens lines tokensBefore tokens)
  | Throw e => Throw e
  end.

(** The state of a scan of [m_Source s] seen as a state of the scan of
    [m_Source s +:+ rest]. *)
Definition continued (rest : string) (s : ScanState) : ScanState :=
  mkScanState (m_Start s) (m_Current s) (m_Line s) (m_Source s +:+ rest)
    (m_Context s) (m_ErrorHandler s).

(** A state of the scan of [source] before its end, and one that may be
    at its end. *)
Definition inside (source : string) (s : ScanState) : Prop :=
  m_Source s = source /\ m_Current s < String.length source.

Definition within (source : string) (s : ScanState) : Prop :=
  m_Source s = source /\ m_Current s <= String.length source.

(** What a scanning function that returns from a state of the scan of
    [source] does in the scan of [source +:+ rest]: the same. *)
Definition local (source rest : string)
  (r r' : Result (ScanState * list Token)) : Prop :=
  match r with
  | Ok (s', tokens') => r' = Ok (continued rest s', tokens') /\ within source s'
  | Throw _ => True
  end.

End Lexical.

(** ** genn/type.cc: the table of type specifiers *)
Module NumericTypes.
Import Numeric.

(** The table [numericTypes]: the sets of type specifiers that name a
    numeric type. *)
Definition numericTypes : gmap (gset string) NumericBase :=
  list_to_map [
    (({["char"]} : gset string), Int8);
    ({["unsigned"; "char"]}, Uint8);
    ({["short"]}, Int16);
    ({["short"; "int"]}, Int16);
    ({["signed"; "short"]}, Int16);
    ({["signed"; "short"; "int"]}, Int16);
    ({["unsigned"; "short"]}, Uint16);
    ({["unsigned"; "short"; "int"]}, Uint16);
    ({["int"]}, Int32);
    ({["signed"]}, Int32);
    ({["signed"; "int"]}, Int32);
    ({["unsigned"]}, Uint32);
    ({["unsigned"; "int"]}, Uint32);
    ({["float"]}, Float);
    ({["double"]}, Double)].

(** [getNumericType]: the null pointer is [None]. *)
Definition getNumericType (typeSpecifiers : gset string) : option NumericBase :=
  match numericTypes !! typeSpecifiers with
  | None => None
  | Some type => Some type
  end.

(** The specifiers the table knows. *)
Definition specifiers : gset string :=
  {["char"; "short"; "int"; "signed"; "unsigned"; "float"; "double"]}.

End NumericTypes.

(** ** Nesting of scopes in an output stream *)
Module Scopes.
Import CodeStream.

(** The nesting depth after the pieces of [os], from depth [depth]; [None]
    when a scope is closed that was not opened. *)
Fixpoint depthAfter (depth : nat) (os : CodeStream) : option nat :=
  match os with
  | [] => Some depth
  | OB :: os => depthAfter (S depth) os
  | CB :: os =>
      match depth with
      | O => None
      | S depth => depthAfter depth os
      end
  | _ :: os => depthAfter depth os
  end.

End Scopes.

(** ** code_generator/backendSIMT.cc: numbers of threads *)
Module Threads.
Import ModelSpec BackendSIMT.

(** [std::string::empty] *)
Definition empty (s : string) : bool :=
  match s with
  | "" => true
  | _ => false
  end.

Section Threads.

Variable getKernelBlockSize : Kernel -> N.

(** What the functions below read of a synapse group that
    [SynapseGroupInternal] above does not hold: its neuron groups, its
    connection counts, whether its matrix type has the bit
    SynapseMatrixConnectivity::SPARSE, and the build code of its
    connectivity initialiser's snippet. *)
Variables getSrcNeuronGroup getTrgNeuronGroup :
  SynapseGroupInternal -> NeuronGroupInternal.
Variables getMaxConnections getMaxSourceConnections : SynapseGroupInternal -> N.
Variable isSparse : SynapseGroupInternal -> bool.
Variables getRowBuildCode getColBuildCode : SynapseGroupInternal -> string.

(** The accumulation of the accumulation of all groups in merged groups. *)
Definition getNumMergedGroupThreads {G : Type} (groups : list (GroupMerged G))
  (getNumThreads : G -> N) : N :=
  fold_left
    (fun acc n =>
       fold_left (fun acc g => SizeT.add acc (getNumThreads g)) (getGroups n) acc)
    groups 0%N.

Definition getNumInitialisationRNGStreams
  (getMergedNeuronInitGroups : list (GroupMerged NeuronGroupInternal))
  (getMergedSynapseDenseInitGroups getMergedSynapseConnectivityInitGroups
     getMergedSynapseSparseInitGroups : list (GroupMerged SynapseGroupInternal))
  : N :=
  (* Calculate total number of threads used for neuron initialisation group *)
  let numInitThreads :=
    getNumMergedGroupThreads getMergedNeuronInitGroups
      (fun ng => padSize (getNumNeurons ng) (getKernelBlockSize KernelInitialize)) in
  (* Add on total number of threads used for dense synapse initialisation *)
  let numInitThreads :=
    SizeT.add numInitThreads
      (getNumMergedGroupThreads getMergedSynapseDenseInitGroups
         (fun sg => padSize (getNumNeurons (getTrgNeuronGroup sg))
                      (getKernelBlockSize KernelInitialize))) in
  (* Add on total number of threads used for synapse connectivity initialisation *)
  let numInitThreads :=
    SizeT.add numInitThreads
      (getNumMergedGroupThreads getMergedSynapseConnectivityInitGroups
         (fun sg => padSize (getNumNeurons (getSrcNeuronGroup sg))
                      (getKernelBlockSize KernelInitialize))) in
  (* Finally, add on total number of threads used for sparse synapse initialisation *)
  SizeT.add numInitThreads
    (getNumMergedGroupThreads getMergedSynapseSparseInitGroups
       (fun sg => padSize (getMaxConnections sg)
                    (getKernelBlockSize KernelInitializeSparse))).

Definition getNumPostsynapticUpdateThreads (sg : SynapseGroupInternal) : N :=
  if isSparse sg then getMaxSourceConnections sg
  else getNumNeurons (getSrcNeuronGroup sg).

Definition getNumSynapseDynamicsThreads (sg : SynapseGroupInternal) : N :=
  if isSparse sg then
    SizeT.mul (getNumNeurons (getSrcNeuronGroup sg)) (getMaxConnections sg)
  else
    SizeT.mul (getNumNeurons (getSrcNeuronGroup sg))
      (getNumNeurons (getTrgNeuronGroup sg)).

Definition getNumConnectivityInitThreads (sg : SynapseGroupInternal) : Result N :=
  (* If there's row building code, return number of source neurons i.e. rows *)
  if negb (empty (getRowBuildCode sg)) then
    Ok (getNumNeurons (getSrcNeuronGroup sg))
  (* Otherwise, if there's column building code, return number of target
     neurons i.e. columns *)
  else if negb (empty (getColBuildCode sg)) then
    Ok (getNumNeurons (getTrgNeuronGroup sg))
  else
    Throw (runtime_error
      "Cannot calculate number of connectivity init threads without connectivity building code").

(** The work the initialisation kernels do: for every group that
    [getNumInitialisationRNGStreams] counts, the number of items it
    initialises and the block size of its kernel. *)
Definition initialisationSizes
  (getMergedNeuronInitGroups : list (GroupMerged NeuronGroupInternal))
  (getMergedSynapseDenseInitGroups getMergedSynapseConnectivityInitGroups
     getMergedSynapseSparseInitGroups : list (GroupMerged SynapseGroupInternal))
  : list (N * N) :=
  map (fun ng => (getNumNeurons ng, getKernelBlockSize KernelInitialize))
    (concat (map getGroups getMergedNeuronInitGroups))
  ++ map (fun sg => (getNumNeurons (getTrgNeuronGroup sg),
                     getKernelBlockSize KernelInitialize))
       (concat (map getGroups getMergedSynapseDenseInitGroups))
  ++ map (fun sg => (getNumNeurons (getSrcNeuronGroup sg),
                     getKernelBlockSize KernelInitialize))
       (concat (map getGroups getMergedSynapseConnectivityInitGroups))
  ++ map (fun sg => (getMaxConnections sg,
                     getKernelBlockSize KernelInitializeSparse))
       (concat (map getGroups getMergedSynapseSparseInitGroups)).

End Threads.

(** All the groups of a list of merged groups. *)
Definition allGroups {G : Type} (groups : list (GroupMerged G)) : list G :=
  concat (map getGroups groups).

End Threads.

(** ** code_generator/backendSIMT.cc: device types *)
Module DeviceTypes.

Section DeviceTypes.

(** gennUtils.h is not part of the sources: [Utils::isTypePointer] and
    [Utils::getUnderlyingType] are taken as given, and so is what
    [BackendBase::addType] does to the state of the base class. *)
Variable isTypePointer : string -> bool.
Variable getUnderlyingType : string -> string.
Variable BackendBase : Type.
Variable addType : string -> N -> BackendBase -> BackendBase.

Record BackendSIMT : Type := {
  base : BackendBase;
  m_DeviceTypes : gset string }.

Definition addDeviceType (this : BackendSIMT) (type : string) (size : N)
  : BackendSIMT :=
  {| base := addType type size (base this);
     m_DeviceTypes := {[type]} ∪ m_DeviceTypes this |}.

Definition isDeviceType (this : BackendSIMT) (type : string) : bool :=
  (* Get underlying type *)
  let underlyingType :=
    if isTypePointer type then getUnderlyingType type else type in
  (* Return true if it is in device types set *)
  bool_decide (underlyingType ∈ m_DeviceTypes this).

End DeviceTypes.

End DeviceTypes.

(** ** code_generator/generateRunner.cc: push and pull functions *)
Module PushPull.
Import CodeStream.

Definition write (os : CodeStream) (text : string) : CodeStream :=
  os ++ [Str text].

(** The three streams the functions below write to. *)
Record Streams : Type := {
  definitionsFunc : CodeStream;
  runnerPushFunc : CodeStream;
  runnerPullFunc : CodeStream }.

Section PushPull.

(** varLocation.h is not part of the sources: the bits VarLocation::HOST
    and VarLocation::DEVICE are taken as given. *)
Variables HOST DEVICE : N.

Definition canPushPullVar (loc : N) : bool :=
  (* A variable can be pushed and pulled if it is located on both host and
     device *)
  negb (N.land loc HOST =? 0)%N && negb (N.land loc DEVICE =? 0)%N.

(** [genVarPushPullScope], the overload that returns bool.  [handler] is
    what the call of the handler writes to the push and to the pull
    stream. *)
Definition genVarPushPullScope (s : Streams) (loc : N) (description : string)
  (handler : CodeStream * CodeStream) : Streams * bool :=
  (* If this variable has a location that allows pushing and pulling *)
  if canPushPullVar loc then
    let definitionsFunc :=
      write (definitionsFunc s)
        ("EXPORT_FUNC void push" +:+ description
         +:+ "ToDevice(bool uninitialisedOnly = false);" +:+ endl) in
    let definitionsFunc :=
      write definitionsFunc
        ("EXPORT_FUNC void pull" +:+ description +:+ "FromDevice();" +:+ endl) in
    let runnerPushFunc :=
      write (runnerPushFunc s)
        ("void push" +:+ description +:+ "ToDevice(bool uninitialisedOnly)") in
    let runnerPullFunc :=
      write (runnerPullFunc s)
        ("void pull" +:+ description +:+ "FromDevice()") in
    let runnerPushFunc := runnerPushFunc ++ [OB] in
    let runnerPullFunc := runnerPullFunc ++ [OB] in
    let runnerPushFunc := runnerPushFunc ++ handler.1 in
    let runnerPullFunc := runnerPullFunc ++ handler.2 in
    let runnerPullFunc := runnerPullFunc ++ [CB] in
    let runnerPushFunc := runnerPushFunc ++ [CB] in
    let runnerPushFunc := write runnerPushFunc endl in
    let runnerPullFunc := write runnerPullFunc endl in
    ({| definitionsFunc := definitionsFunc;
        runnerPushFunc := runnerPushFunc;
        runnerPullFunc := runnerPullFunc |}, true)
  else (s, false).

(** [genVarPushPullScope], the overload that takes
    [statePushPullFunction]. *)
Definition genVarPushPullScopeState (s : Streams) (loc : N)
  (description : string) (statePushPullFunction : list string)
  (handler : CodeStream * CodeStream) : Streams * list string :=
  (* Add function to vector if push pull function was actually required *)
  let '(s, required) := genVarPushPullScope s loc description handler in
  if required then (s, statePushPullFunction ++ [description])
  else (s, statePushPullFunction).

Definition genStatePushPull (s : Streams) (name : string)
  (statePushPullFunction : list string) : Streams :=
  let definitionsFunc :=
    write (definitionsFunc s)
      ("EXPORT_FUNC void push" +:+ name
       +:+ "StateToDevice(bool uninitialisedOnly = false);" +:+ endl) in
  let definitionsFunc :=
    write definitionsFunc
      ("EXPORT_FUNC void pull" +:+ name +:+ "StateFromDevice();" +:+ endl) in
  let runnerPushFunc :=
    write (runnerPushFunc s)
      ("void push" +:+ name +:+ "StateToDevice(bool uninitialisedOnly)") in
  let runnerPullFunc :=
    write (runnerPullFunc s) ("void pull" +:+ name +:+ "StateFromDevice()") in
  let runnerPushFunc := runnerPushFunc ++ [OB] in
  let runnerPullFunc := runnerPullFunc ++ [OB] in
  let '(runnerPushFunc, runnerPullFunc) :=
    fold_left
      (fun '(runnerPushFunc, runnerPullFunc) func =>
         (write runnerPushFunc
            ("push" +:+ func +:+ "ToDevice(uninitialisedOnly);" +:+ endl),
          write runnerPullFunc ("pull" +:+ func +:+ "FromDevice();" +:+ endl)))
      statePushPullFunction (runnerPushFunc, runnerPullFunc) in
  let runnerPullFunc := runnerPullFunc ++ [CB] in
  let runnerPushFunc := runnerPushFunc ++ [CB] in
  let runnerPushFunc := write runnerPushFunc endl in
  let runnerPullFunc := write runnerPullFunc endl in
  {| definitionsFunc := definitionsFunc;
     runnerPushFunc := runnerPushFunc;
     runnerPullFunc := runnerPullFunc |}.

(** A variable of a population: its location, the description of its push
    and pull functions, and what its handler writes. *)
Definition Variable_ : Type := N * string * (CodeStream * CodeStream).

(** The calls of [genVarPushPullScope] for the variables of a population,
    with the vector [statePushPullFunction] they share. *)
Definition genVarsPushPull (s : Streams) (vars : list Variable_)
  (statePushPullFunction : list string) : Streams * list string :=
  fold_left
    (fun '(s, statePushPullFunction) '(loc, description, handler) =>
       genVarPushPullScopeState s loc description statePushPullFunction handler)
    vars (s, statePushPullFunction).

(** The descriptions of the variables that are on both host and device. *)
Definition pushable (vars : list Variable_) : list string :=
  map (fun v => v.1.2) (List.filter (fun v => canPushPullVar v.1.1) vars).

(** The text of a declaration, of a definition's head and of a call. *)
Definition pushDeclaration (description : string) : Piece :=
  Str ("EXPORT_FUNC void push" +:+ description
       +:+ "ToDevice(bool uninitialisedOnly = false);" +:+ endl).
Definition pullDeclaration (description : string) : Piece :=
  Str ("EXPORT_FUNC void pull" +:+ description +:+ "FromDevice();" +:+ endl).
Definition pushHead (description : string) : Piece :=
  Str ("void push" +:+ description +:+ "ToDevice(bool uninitialisedOnly)").
Definition pullHead (description : string) : Piece :=
  Str ("void pull" +:+ description +:+ "FromDevice()").
Definition pushCall (func : string) : Piece :=
  Str ("push" +:+ func +:+ "ToDevice(uninitialisedOnly);" +:+ endl).
Definition pullCall (func : string) : Piece :=
  Str ("pull" +:+ func +:+ "FromDevice();" +:+ endl).

End PushPull.

End PushPull.

(** ** code_generator/generateRunner.cc: MergedStructGenerator *)
Module MergedStruct.
Import CodeStream ModelSpec.

(** Snippet::Base::EGP *)
Record EGP : Type := {
  egpName : string;
  egpType : string }.

Section MergedStructGenerator.

(** [T::GroupInternal] and its [getName]. *)
Variable GroupInternal : Type.
Variable getName : GroupInternal -> string.

Definition GetFieldValueFunc : Type := GroupInternal -> string.

Record MergedStructGenerator : Type := {
  m_MergedGroup : GroupMerged GroupInternal;
  m_Fields : list (string * GetFieldValueFunc) }.

Definition addField (this : MergedStructGenerator) (name : string)
  (getFieldValue : GetFieldValueFunc) : MergedStructGenerator :=
  {| m_MergedGroup := m_MergedGroup this;
     m_Fields := m_Fields this ++ [(name, getFieldValue)] |}.

Definition addPointerField (this : MergedStructGenerator) (name prefix : string)
  : MergedStructGenerator :=
  addField this name (fun g => prefix +:+ getName g).

Definition addVars (this : MergedStructGenerator) (vars : list CustomUpdate.Var)
  (prefix : string) : MergedStructGenerator :=
  fold_left
    (fun this v =>
       addPointerField this (CustomUpdate.type v +:+ " *" +:+ CustomUpdate.name v)
         (prefix +:+ CustomUpdate.name v))
    vars this.

Definition addEGPs (this : MergedStructGenerator) (egps : list EGP)
  : MergedStructGenerator :=
  fold_left
    (fun this e =>
       addField this (egpType e +:+ " " +:+ egpName e)
         (fun g => egpName e +:+ getName g))
    egps this.

Definition write (os : CodeStream) (text : string) : CodeStream :=
  os ++ [Str text].

(** [generate]: the streams [definitionsInternal],
    [definitionsInternalFunc] and [runnerVarAlloc] after the call. *)
Definition generate (this : MergedStructGenerator)
  (definitionsInternal definitionsInternalFunc runnerVarAlloc : CodeStream)
  (name : string) : CodeStream * CodeStream * CodeStream :=
  let index := pretty (getIndex (m_MergedGroup this)) in
  (* Write struct declation to top of definitions internal *)
  let definitionsInternal :=
    write definitionsInternal
      ("struct Merged" +:+ name +:+ "Group" +:+ index +:+ endl) in
  let definitionsInternal := definitionsInternal ++ [OB] in
  let definitionsInternal :=
    fold_left (fun os f => write os (f.1 +:+ ";" +:+ endl))
      (m_Fields this) definitionsInternal in
  let definitionsInternal := write definitionsInternal endl in
  let definitionsInternal := definitionsInternal ++ [CB] in
  let definitionsInternal := write definitionsInternal (";" +:+ endl) in
  (* Write local array of these structs containing individual neuron group
     pointers etc *)
  let runnerVarAlloc :=
    write runnerVarAlloc
      ("Merged" +:+ name +:+ "Group" +:+ index +:+ " merged" +:+ name
       +:+ "Group" +:+ index +:+ "[] = ") in
  let runnerVarAlloc := runnerVarAlloc ++ [OB] in
  let runnerVarAlloc :=
    fold_left
      (fun os sg =>
         let os := write os "{" in
         let os :=
           fold_left (fun os f => write os (f.2 sg +:+ ", ")) (m_Fields this) os in
         write os ("}," +:+ endl))
      (getGroups (m_MergedGroup this)) runnerVarAlloc in
  let runnerVarAlloc := runnerVarAlloc ++ [CB] in
  let runnerVarAlloc := write runnerVarAlloc (";" +:+ endl) in
  (* Then generate call to function to copy local array to device *)
  let runnerVarAlloc :=
    write runnerVarAlloc
      ("pushMerged" +:+ name +:+ "Group" +:+ index +:+ "ToDevice(merged"
       +:+ name +:+ "Group" +:+ index +:+ ");" +:+ endl) in
  (* Finally add declaration to function to definitions internal *)
  let definitionsInternalFunc :=
    write definitionsInternalFunc
      ("EXPORT_FUNC void pushMerged" +:+ name +:+ "Group" +:+ index
       +:+ "ToDevice(const Merged" +:+ name +:+ "Group" +:+ index
       +:+ " *group);" +:+ endl) in
  (definitionsInternal, definitionsInternalFunc, runnerVarAlloc).

(** The member a field declares, and the row of a group: an opening brace,
    the values of the fields and a closing brace. *)
Definition member (f : string * GetFieldValueFunc) : Piece :=
  Str (f.1 +:+ ";" +:+ endl).

Definition row (fields : list (string * GetFieldValueFunc)) (sg : GroupInternal)
  : CodeStream :=
  [Str "{"] ++ map (fun f => Str (f.2 sg +:+ ", ")) fields ++ [Str ("}," +:+ endl)].

End MergedStructGenerator.

End MergedStruct.

(** ** code_generator/customUpdateGroupMerged.cc: GroupMergedTypeEnvironment *)
Module TypeEnvironment.
Import Scanner.

(** Type::QualifiedType *)
Record QualifiedType : Type := {
  qualifiedType : TypeBase;
  constValue : bool;
  constPointer : bool }.

(** The exception TypeChecker::TypeCheckError. *)
Inductive TypeCheckError : Type := typeCheckError.

(** The log of an ErrorHandlerBase for errors at a token: one entry per
    call of [error(token, message)], oldest first. *)
Abbreviation TokenErrorLog := (list (Token * string)).

(** TypeChecker::EnvironmentBase, as far as an enclosing environment is
    asked: its [getType], which returns a type or throws, and the log
    after the call. *)
Definition EnvironmentBase : Type :=
  Token -> TokenErrorLog -> (TypeCheckError + QualifiedType) * TokenErrorLog.

Record GroupMergedTypeEnvironment : Type := {
  m_Enclosing : option EnvironmentBase;
  m_Types : gmap string QualifiedType }.

(** std::unordered_map::try_emplace: the map, and whether the insertion
    took place. *)
Definition try_emplace {V : Type} (m : gmap string V) (k : string) (v : V)
  : gmap string V * bool :=
  match m !! k with
  | Some _ => (m, false)
  | None => (<[k := v]> m, true)
  end.

(** The virtual [define(const Token&, ...)]: it always throws. *)
Definition defineToken (this : GroupMergedTypeEnvironment) (name : Token)
  (type : QualifiedType) (errorHandler : TokenErrorLog)
  : TypeCheckError * TokenErrorLog :=
  (typeCheckError,
   errorHandler ++ [(name, "Cannot declare variable in external environment")]).

Definition getType (this : GroupMergedTypeEnvironment) (name : Token)
  (errorHandler : TokenErrorLog)
  : (TypeCheckError + QualifiedType) * TokenErrorLog :=
  match m_Types this !! lexeme name with
  | None =>
      match m_Enclosing this with
      | Some enclosing => enclosing name errorHandler
      | None =>
          (inl typeCheckError, errorHandler ++ [(name, "Undefined variable")])
      end
  | Some type => (inr type, errorHandler)
  end.

(** The public [define(name, type, isConstValue, isConstPointer)]. *)
Definition define (this : GroupMergedTypeEnvironment) (name : string)
  (type : TypeBase) (isConstValue isConstPointer : bool)
  : Result GroupMergedTypeEnvironment :=
  let '(types, inserted) :=
    try_emplace (m_Types this) name
      {| qualifiedType := type; constValue := isConstValue;
         constPointer := isConstPointer |} in
  if negb inserted then
    Throw (runtime_error ("Redeclaration of '" +:+ name +:+ "'"))
  else Ok {| m_Enclosing := m_Enclosing this; m_Types := types |}.

End TypeEnvironment.

(** ** Indices of variables in merged groups *)
Module VarIndex.

Section VarIndex.

(** varAccess.h is not part of the sources: the values
    VarAccessDuplication::SHARED and VarAccessDuplication::SHARED_NEURON
    are taken as given. *)
Variables SHARED SHARED_NEURON : N.

(** *** customUpdateGroupMerged.cc: CustomUpdateGroupMerged *)
Section CustomUpdateGroupMerged.

(** [getArchetype().isBatched()] *)
Variable isBatched : bool.

(** [getVarIndex] and [getVarRefIndex] hold [assert(!index.empty())] in the
    branches that use the index.  The functions below are the functions of
    a build with NDEBUG, in which the assertions are compiled out; what is
    proved of them for an index that is not empty holds in every build. *)

Definition getVarIndex (varDuplication : N) (index : string) : string :=
  if (varDuplication =? SHARED_NEURON)%N then
    if isBatched then "batch" else "0"
  else if (varDuplication =? SHARED)%N || negb isBatched then index
  else "batchOffset + " +:+ index.

Definition getVarRefIndex (delay : bool) (varDuplication : N) (index : string)
  : string :=
  if delay then
    if (varDuplication =? SHARED_NEURON)%N then
      if isBatched then "batchDelaySlot" else "delaySlot"
    else if (varDuplication =? SHARED)%N || negb isBatched then
      "delayOffset + " +:+ index
    else "batchDelayOffset + " +:+ index
  else getVarIndex varDuplication index.

(** *** customUpdateGroupMerged.cc: CustomUpdateWUGroupMergedBase *)
Definition getVarIndexWU (varDuplication : N) (index : string) : string :=
  (if (varDuplication =? SHARED)%N || negb isBatched then ""
   else "batchOffset + ") +:+ index.

Definition getVarRefIndexWU (varDuplication : N) (index : string) : string :=
  (if (varDuplication =? SHARED)%N || negb isBatched then ""
   else "batchOffset + ") +:+ index.

End CustomUpdateGroupMerged.

(** *** neuronUpdateGroupMerged.cc: NeuronUpdateGroupMerged *)
Definition getNeuronVarIndex (batchSize : N) (varDuplication : N)
  (index : string) : string :=
  if (varDuplication =? SHARED_NEURON)%N then
    if (batchSize =? 1)%N then "0" else "batch"
  else if (varDuplication =? SHARED)%N || (batchSize =? 1)%N then index
  else "batchOffset + " +:+ index.

Definition getReadVarIndex (delay : bool) (batchSize : N) (varDuplication : N)
  (index : string) : string :=
  if delay then
    if (varDuplication =? SHARED_NEURON)%N then
      if (batchSize =? 1)%N then "readDelaySlot" else "readBatchDelaySlot"
    else if (varDuplication =? SHARED)%N || (batchSize =? 1)%N then
      "readDelayOffset + " +:+ index
    else "readBatchDelayOffset + " +:+ index
  else getNeuronVarIndex batchSize varDuplication index.

Definition getWriteVarIndex (delay : bool) (batchSize : N) (varDuplication : N)
  (index : string) : string :=
  if delay then
    if (varDuplication =? SHARED_NEURON)%N then
      if (batchSize =? 1)%N then "writeDelaySlot" else "writeBatchDelaySlot"
    else if (varDuplication =? SHARED)%N || (batchSize =? 1)%N then
      "writeDelayOffset + " +:+ index
    else "writeBatchDelayOffset + " +:+ index
  else getNeuronVarIndex batchSize varDuplication index.

(** The index of a delayed variable, read or written: [access] is "read"
    or "write". *)
Definition delayedVarIndex (access : string) (batchSize : N)
  (varDuplication : N) (index : string) : string :=
  if (varDuplication =? SHARED_NEURON)%N then
    access +:+ (if (batchSize =? 1)%N then "DelaySlot" else "BatchDelaySlot")
  else
    access
    +:+ (if (varDuplication =? SHARED)%N || (batchSize =? 1)%N
         then "DelayOffset + " else "BatchDelayOffset + ")
    +:+ index.

End VarIndex.

End VarIndex.

(** ** Literals: what the properties of the scanned literals are stated with *)
Module Literals.
Import Scanner Lexical.

(** The exponent of a floating literal: none, or a lowercase e, a sign
    (empty, + or -) and digits. *)
Definition exponentText (exponent : option (string * string)) : string :=
  match exponent with
  | None => ""
  | Some (sign, digits) => "e" +:+ sign +:+ digits
  end.

Definition isExponent (exponent : option (string * string)) : bool :=
  match exponent with
  | None => true
  | Some (sign, digits) =>
      bool_decide (sign ∈ [""; "+"; "-"]) && isDigits digits
      && negb (bool_decide (digits = ""))
  end.

(** The literal is not taken for an octal one: it does not begin with a 0
    before an octal digit. *)
Definition notOctal (d : ascii) (pre : string) : bool :=
  negb (Ascii.eqb d "0"
        && match pre with
           | String c _ => isodigit c
           | "" => false
           end).

(** The text after a floating literal lets the literal end: it is empty,
    or begins with a character that is no digit and, after a literal
    without exponent, no e. *)
Definition endsLiteral (exponent : option (string * string)) (after : string)
  : bool :=
  match after with
  | "" => true
  | String c _ =>
      negb (isdigit c)
      && match exponent with
         | None => negb (Ascii.eqb c "e")
         | Some _ => true
         end
  end.

(** The suffix the text after a floating literal begins with. *)
Definition floatingSuffix (after : string) : option TokenType :=
  match after with
  | "" => None
  | String c _ =>
      if Ascii.eqb (tolower c) "f" then Some FLOAT_NUMBER
      else if Ascii.eqb (tolower c) "d" then Some DOUBLE_NUMBER
      else None
  end.

(** The text after a hexadecimal literal lets the literal end: it is
    empty, or begins with a character that is no hexadecimal digit and no
    letter of an integer suffix. *)
Definition endsHexLiteral (after : string) : bool :=
  match after with
  | "" => true
  | String c _ =>
      negb (isxdigit c)
      && negb (Ascii.eqb (toupper c) "U" || Ascii.eqb (toupper c) "L")
  end.

End Literals.

(** * Properties *)

(** ** Numeric types *)
Module NumericFacts.
Import Numeric.

Lemma getCommonType_total (a b : NumericBase) :
  exists c, getCommonType a b = Ok c.
Proof. destruct a, b; eexists; vm_compute; reflexivity. Qed.

(** The common type is always one of the four types no promotion changes. *)
Lemma getCommonType_range (a b c : NumericBase) :
  getCommonType a b = Ok c -> c = Int32 \/ c = Uint32 \/ c = Float \/ c = Double.
Proof.
  destruct a, b; vm_compute; intros [= <-]; auto.
Qed.

(** C4, third part as stated: the common type of int8 with itself is int32,
    not int8. *)
Lemma getCommonType_self_counterexample :
  getCommonType Int8 Int8 = Ok Int32 /\ getCommonType Int8 Int8 <> Ok Int8.
Proof. split; [reflexivity | discriminate]. Qed.

(** C4 (amended): [getCommonType] is commutative and idempotent (the common
    type of two types is its own common type with itself), and the common
    type of a type with itself is its promoted type: the type itself for
    int32, uint32, float and double, int32 for bool and the 8 and 16 bit
    integers. *)
Theorem getCommonType_algebra :
  (forall a b, getCommonType a b = getCommonType b a)
  /\ (forall a b,
        (c ← getCommonType a b; getCommonType c c) = getCommonType a b)
  /\ (forall a, getCommonType a a = Ok (getPromotedType a))
  /\ (forall a, In a [Int32; Uint32; Float; Double] -> getCommonType a a = Ok a)
  /\ (forall a, In a [Bool; Int8; Int16; Uint8; Uint16] ->
        getCommonType a a = Ok Int32).
Proof.
  repeat split.
  - intros a b; destruct a, b; reflexivity.
  - intros a b; destruct a, b; reflexivity.
  - intros a; destruct a; reflexivity.
  - intros a Ha; simpl in Ha.
    destruct Ha as [<- | [<- | [<- | [<- | []]]]]; reflexivity.
  - intros a Ha; simpl in Ha.
    destruct Ha as [<- | [<- | [<- | [<- | [<- | []]]]]]; reflexivity.
Qed.

Lemma getCommonType_algebra_witness :
  getCommonType Uint32 Uint32 = Ok Uint32 /\ getCommonType Uint16 Uint16 = Ok Int32.
Proof.
  destruct getCommonType_algebra as (_ & _ & _ & Hbig & Hsmall).
  split; [apply Hbig | apply Hsmall]; simpl; auto 10.
Defined.

End NumericFacts.

(** ** The scanner *)
Module ScannerFacts.
Import Scanner.

Lemma extends_refl s : extends s s.
Proof. repeat split; [lia | exists []; by rewrite app_nil_r]. Qed.

Lemma extends_trans s1 s2 s3 : extends s1 s2 -> extends s2 s3 -> extends s1 s3.
Proof.
  intros (E1 & E2 & ? & r1 & H1) (E3 & E4 & ? & r2 & H2).
  repeat split; [congruence | congruence | lia |].
  exists (r1 ++ r2). by rewrite H2, H1, app_assoc.
Qed.

Lemma get_Some_lt n s c : String.get n s = Some c -> n < String.length s.
Proof.
  revert n; induction s as [|a s IH]; intros [|n]; simpl; try discriminate; try lia.
  intros H; apply IH in H; lia.
Qed.

Lemma advance_Ok s c s' :
  advance s = Ok (c, s') ->
  s' = set_Current s (m_Current s + 1)
  /\ m_Current s < String.length (m_Source s).
Proof.
  unfold advance, source_at; simpl. unfold mbind, Result_bind.
  replace (m_Current s + 1 - 1) with (m_Current s) by lia.
  destruct (String.get _ _) eqn:E; [|discriminate].
  intros [= <- <-]. split; [done | by eapply get_Some_lt].
Qed.

Lemma advance_fuel s : advance s <> Throw OutOfFuel.
Proof.
  unfold advance, source_at, mbind, Result_bind.
  by destruct (String.get _ _).
Qed.

Lemma extends_set_Current s n : m_Current s <= n -> extends s (set_Current s n).
Proof. intros; repeat split; simpl; [done | exists []; by rewrite app_nil_r]. Qed.

Lemma advance_extends s c s' : advance s = Ok (c, s') -> extends s s'.
Proof. intros [-> _]%advance_Ok. apply extends_set_Current; lia. Qed.

Lemma match_extends c s : extends s (match_ c s).2.
Proof.
  unfold match_. destruct (isAtEnd s); [apply extends_refl|].
  destruct (negb _); [apply extends_refl|]. apply extends_set_Current; simpl; lia.
Qed.

Lemma error_extends msg s : extends s (error msg s).
Proof. repeat split; simpl; [done | by eexists]. Qed.

Lemma advanceWhile_extends fuel cond s s' :
  advanceWhile fuel cond s = Ok s' -> extends s s'.
Proof.
  revert s; induction fuel as [|fuel IH]; intros s; simpl; [discriminate|].
  destruct (cond s).
  - unfold mbind, Result_bind. destruct (advance s) as [[c s1]|] eqn:E; [|discriminate].
    intros H. eapply extends_trans; [by eapply advance_extends | by apply IH].
  - intros [= <-]. apply extends_refl.
Qed.

Lemma advanceWhile_fuel fuel cond s :
  String.length (m_Source s) - m_Current s < fuel ->
  advanceWhile fuel cond s <> Throw OutOfFuel.
Proof.
  revert s; induction fuel as [|fuel IH]; intros s Hlt; [lia|]. simpl.
  destruct (cond s); [|done].
  unfold mbind, Result_bind. destruct (advance s) as [[c s1]|e] eqn:E.
  - apply advance_Ok in E as [-> Hc]. apply IH. simpl. lia.
  - intros [= ->]. by apply advance_fuel in E.
Qed.

Lemma advanceWhile_loopFuel cond s :
  advanceWhile (loopFuel s) cond s <> Throw OutOfFuel.
Proof. apply advanceWhile_fuel. unfold loopFuel. lia. Qed.

Lemma readSuffix_extends fuel suffix s suffix' s' :
  readSuffix fuel suffix s = Ok (suffix', s') -> extends s s'.
Proof.
  revert suffix s; induction fuel as [|fuel IH]; intros suffix s; simpl; [discriminate|].
  destruct (isSuffixChar s).
  - unfold mbind, Result_bind. destruct (advance s) as [[c s1]|] eqn:E; [|discriminate].
    intros H. eapply extends_trans; [by eapply advance_extends | by eapply IH].
  - intros [= <- <-]. apply extends_refl.
Qed.

Lemma readSuffix_fuel fuel suffix s :
  String.length (m_Source s) - m_Current s < fuel ->
  readSuffix fuel suffix s <> Throw OutOfFuel.
Proof.
  revert suffix s; induction fuel as [|fuel IH]; intros suffix s Hlt; [lia|]. simpl.
  destruct (isSuffixChar s); [|done].
  unfold mbind, Result_bind. destruct (advance s) as [[c s1]|e] eqn:E.
  - apply advance_Ok in E as [-> Hc]. apply IH. simpl. lia.
  - intros [= ->]. by apply advance_fuel in E.
Qed.

Lemma sound_bind {A B : Type} s (stA : A -> ScanState) (stB : B -> ScanState)
  (r : Result A) (k : A -> Result B) :
  sound s stA r ->
  (forall a, extends s (stA a) -> sound (stA a) stB (k a)) ->
  sound s stB (r ≫= k).
Proof.
  destruct r as [a|e]; simpl; [|done].
  intros Ha Hk. specialize (Hk a Ha). unfold mbind, Result_bind.
  destruct (k a); simpl in *; [by eapply extends_trans | done].
Qed.

Lemma sound_weaken {A : Type} s0 s (st : A -> ScanState) r :
  extends s0 s -> sound s st r -> sound s0 st r.
Proof. destruct r; simpl; [apply extends_trans | done]. Qed.

Lemma advanceWhile_sound cond s : sound s id (advanceWhile (loopFuel s) cond s).
Proof.
  unfold sound. destruct (advanceWhile _ _ _) eqn:E.
  - by eapply advanceWhile_extends.
  - intros ->. by apply advanceWhile_loopFuel in E.
Qed.

Lemma advance_sound s : sound s snd (advance s).
Proof.
  unfold sound. destruct (advance s) as [[c s']|e] eqn:E.
  - by eapply advance_extends.
  - intros ->. by apply advance_fuel in E.
Qed.

Lemma scanIntegerSuffix_sound s : sound s snd (scanIntegerSuffix s).
Proof.
  unfold scanIntegerSuffix.
  eapply (sound_bind s snd).
  - unfold sound. destruct (readSuffix _ _ _) as [[x s']|e] eqn:E.
    + by eapply readSuffix_extends.
    + intros ->. eapply readSuffix_fuel; [|done]. unfold loopFuel; lia.
  - intros [suffix s'] _. simpl. unfold at_.
    destruct (_ !! _); simpl; [apply extends_refl | done].
Qed.
Lemma getScalarTokenType_sound s : sound s (fun _ => s) (getScalarTokenType s).
Proof.
  unfold getScalarTokenType.
  destruct (_ !! _) as [[[]|]|]; simpl; try done; apply extends_refl.
Qed.

Lemma sound_match {A : Type} c s (st : A -> ScanState)
  (k : bool * ScanState -> Result A) :
  (forall m s1, sound s1 st (k (m, s1))) ->
  sound s st (k (match_ c s)).
Proof.
  intros Hk. pose proof (match_extends c s) as He.
  destruct (match_ c s) as [m s1]. by eapply sound_weaken.
Qed.

Ltac sound_leaf :=
  simpl;
  first [ apply extends_refl | apply error_extends | done
        | by repeat split; simpl; [lia | exists []; rewrite app_nil_r] ].

Create HintDb scanner discriminated.

Ltac sound_go :=
  lazymatch goal with
  | |- sound _ _ (Ok _) => sound_leaf
  | |- sound _ _ (Throw _) => sound_leaf
  | |- sound _ _ (if ?b then _ else _) => destruct b; sound_go
  | |- sound ?s _ (let '(_, _) := match_ ?c ?s in _) =>
      apply (sound_match c s _ (fun p => let '(m, s1) := p in _));
      intros ? ?; sound_go
  | |- sound ?s _ (advanceWhile (loopFuel ?s) _ ?s ≫= _) =>
      eapply sound_bind; [apply advanceWhile_sound | intros ? _; unfold id; sound_go]
  | |- sound ?s _ (advanceWhile (loopFuel (if ?m then _ else _)) _ _ ≫= _) =>
      destruct m; sound_go
  | |- sound ?s _ (advanceWhile (loopFuel (error ?msg ?s)) _ _ ≫= _) =>
      apply (sound_weaken s (error msg s)); [apply error_extends | sound_go]
  | |- sound ?s _ (advance ?s ≫= _) =>
      eapply sound_bind; [apply advance_sound | intros [? ?] _; cbn [fst snd]; sound_go]
  | |- sound ?s _ (scanIntegerSuffix ?s ≫= _) =>
      eapply sound_bind; [apply scanIntegerSuffix_sound | intros [? ?] _; cbn [fst snd]; sound_go]
  | |- sound ?s _ (getScalarTokenType ?s ≫= _) =>
      eapply sound_bind; [apply getScalarTokenType_sound | intros ? _; cbn [fst snd]; sound_go]
  | |- sound ?s _ (_ ≫= _) =>
      eapply (sound_bind s id); [sound_go | intros ? _; unfold id; sound_go]
  | |- sound ?s _ (advanceWhile (loopFuel ?s) _ ?s) => apply advanceWhile_sound
  | |- sound ?s _ (advanceWhile (loopFuel ?s') _ ?s') =>
      apply (sound_weaken s s'); [sound_leaf | apply advanceWhile_sound]
  | |- _ => try sound_leaf
  end.

Lemma scanString_sound s tokens : sound s fst (scanString s tokens).
Proof. unfold scanString. sound_go. Qed.

Lemma scanIdentifier_sound s tokens : sound s fst (scanIdentifier s tokens).
Proof.
  unfold scanIdentifier. eapply sound_bind; [apply advanceWhile_sound|].
  intros s1 _. unfold id. destruct (_ !! _); sound_go.
Qed.

Lemma emplaceEither_sound s tokens c a b :
  sound s fst (emplaceEither s tokens c a b).
Proof. unfold emplaceEither. sound_go. Qed.

Lemma emplaceCompound_sound s tokens e c d x :
  sound s fst (emplaceCompound s tokens e c d x).
Proof. unfold emplaceCompound. sound_go. Qed.

Lemma emplaceShift_sound s tokens e c d1 d2 x :
  sound s fst (emplaceShift s tokens e c d1 d2 x).
Proof. unfold emplaceShift. sound_go. Qed.

Lemma scanNumber_sound c s tokens : sound s fst (scanNumber c s tokens).
Proof.
  unfold scanNumber.
  assert (Hpre : forall (k : bool * ScanState -> Result (ScanState * list Token)),
    (forall m s0, sound s0 fst (k (m, s0))) ->
    sound s fst (k (if Ascii.eqb c "0" then
                      let '(mx, sx) := match_ "x" s in
                      if mx then (true, sx) else match_ "X" sx
                    else (false, s)))).
  { intros k Hk. destruct (Ascii.eqb c "0"); [|apply Hk].
    pose proof (match_extends "x" s) as H1.
    destruct (match_ "x" s) as [mx sx]. simpl in H1.
    destruct mx; [by eapply sound_weaken|].
    pose proof (match_extends "X" sx) as H2.
    destruct (match_ "X" sx) as [mX sX]. simpl in H2.
    eapply sound_weaken; [by eapply extends_trans | apply Hk]. }
  apply (Hpre (fun p => let '(m0, s0) := p in _)).
  intros m0 s0. sound_go.
Qed.

#[local] Hint Resolve scanString_sound scanIdentifier_sound emplaceEither_sound
  emplaceCompound_sound emplaceShift_sound scanNumber_sound : scanner.

Lemma scanToken_progress s tokens : progress s (scanToken s tokens).
Proof.
  unfold scanToken.
  destruct (advance s) as [[c s1]|e] eqn:E.
  2: { simpl. intros ->. by apply advance_fuel in E. }
  unfold mbind at 1; unfold Result_bind at 1; cbv beta iota.
  match goal with |- progress _ ?r => assert (Hr : sound s1 fst r) end.
  { repeat match goal with
           | |- sound _ _ (if ?b then _ else _) => destruct b
           end;
    first [ solve [auto with scanner] | sound_go ]. }
  pose proof (advance_extends _ _ _ E) as He.
  apply advance_Ok in E as [-> _].
  match goal with |- progress _ ?r => destruct r as [[s' tokens']|e] end;
    simpl in *; [|done].
  split; [by eapply extends_trans|].
  destruct Hr as (_ & _ & Hle & _). simpl in Hle. lia.
Qed.

Lemma scanTokens_sound fuel s tokens :
  String.length (m_Source s) - m_Current s < fuel ->
  sound s fst (scanTokens fuel s tokens).
Proof.
  revert s tokens; induction fuel as [|fuel IH]; intros s tokens Hlt; [lia|].
  simpl. destruct (isAtEnd s) eqn:Hend; simpl; [apply extends_refl|].
  pose proof (scanToken_progress (resetLexeme s) tokens) as Hp.
  unfold mbind, Result_bind.
  destruct (scanToken (resetLexeme s) tokens) as [[s' tokens']|e]; simpl in Hp; [|done].
  destruct Hp as [He Hcur]. simpl in Hcur.
  assert (Hs : extends s s').
  { eapply extends_trans; [|exact He].
    split; [done|]. split; [done|]. split; [simpl; lia|].
    exists []. simpl. by rewrite app_nil_r. }
  eapply sound_weaken; [exact Hs|]. apply IH.
  unfold isAtEnd in Hend. apply Nat.leb_gt in Hend.
  destruct Hs as (-> & _). lia.
Qed.

Lemma scanSource_sound source context errorHandler :
  match scanSource source context errorHandler with
  | Ok (tokens, errorHandler') =>
      (exists front lexeme line,
         tokens = front ++ [mkToken END_OF_FILE lexeme line])
      /\ exists reported, errorHandler' = errorHandler ++ reported
  | Throw e => e <> OutOfFuel
  end.
Proof.
  unfold scanSource.
  pose proof (scanTokens_sound (loopFuel (newScanState source context errorHandler))
                (newScanState source context errorHandler) []) as H.
  unfold mbind, Result_bind.
  destruct (scanTokens _ _ _) as [[s' tokens]|e]; simpl in *.
  - destruct H as (_ & _ & _ & reported & Hlog); [unfold loopFuel; simpl; lia|].
    split; [unfold emplaceToken; by eauto | by eauto].
  - apply H. unfold loopFuel; simpl; lia.
Qed.

Lemma scanTokens_unfold fuel s tokens :
  scanTokens (S fuel) s tokens =
    if negb (isAtEnd s) then
      scanToken (resetLexeme s) tokens ≫= λ '(s', tokens'), scanTokens fuel s' tokens'
    else Ok (s, tokens).
Proof. reflexivity. Qed.

Lemma append_cons c (a b : string) : String c a +:+ b = String c (a +:+ b).
Proof. reflexivity. Qed.

Lemma append_nil (b : string) : "" +:+ b = b.
Proof. reflexivity. Qed.

Lemma length_append (a b : string) :
  String.length (a +:+ b) = String.length a + String.length b.
Proof.
  induction a as [|c a IH]; [done|]. rewrite append_cons. simpl. by rewrite IH.
Qed.

Lemma get_append_l (a b : string) n :
  n < String.length a -> String.get n (a +:+ b) = String.get n a.
Proof. intros H. symmetry. by apply append_correct1. Qed.

Lemma get_append_r (a b : string) n :
  String.get (String.length a + n) (a +:+ b) = String.get n b.
Proof. rewrite Nat.add_comm. symmetry. apply append_correct2. Qed.

Lemma get_None (s : string) n : String.length s <= n -> String.get n s = None.
Proof.
  revert n; induction s as [|c s IH]; intros n H; simpl in *; [done|].
  destruct n; [lia|]. apply IH. lia.
Qed.

Lemma substring_all (s : string) : substring 0 (String.length s) s = s.
Proof. induction s as [|c s IH]; simpl; [done | by rewrite IH]. Qed.

Lemma substring_prefix (a b : string) :
  substring 0 (String.length a) (a +:+ b) = a.
Proof.
  induction a as [|c a IH]; [by destruct b|].
  rewrite append_cons. simpl. by rewrite IH.
Qed.

Lemma isDigits_get (s : string) n :
  isDigits s = true -> n < String.length s ->
  exists c, String.get n s = Some c /\ isdigit c = true.
Proof.
  unfold isDigits. revert n; induction s as [|c s IH]; intros n H Hn; simpl in *; [lia|].
  apply andb_true_iff in H as [Hc Hs].
  destruct n; [by exists c|]. apply IH; [done | lia].
Qed.

(** A run of [k] characters that satisfy [pc], from the current position
    to the end of the source or to a character that does not. *)
Lemma advanceWhile_run (pc : ascii -> bool) fuel s k :
  pc "000"%char = false ->
  (forall j, j < k ->
     exists c, String.get (m_Current s + j) (m_Source s) = Some c /\ pc c = true) ->
  (String.length (m_Source s) <= m_Current s + k
   \/ exists c, String.get (m_Current s + k) (m_Source s) = Some c /\ pc c = false) ->
  k < fuel ->
  advanceWhile fuel (fun s => pc (peek s)) s = Ok (set_Current s (m_Current s + k)).
Proof.
  intros H0. revert s fuel; induction k as [|k IH]; intros s fuel Hrun Hstop Hfuel.
  - destruct fuel; [lia|]. simpl.
    assert (Hp : pc (peek s) = false).
    { unfold peek, isAtEnd, char_at. rewrite Nat.add_0_r in Hstop.
      destruct Hstop as [Hend | (c & Hc & Hpc)].
      - apply Nat.leb_le in Hend. by rewrite Hend.
      - rewrite Hc. by destruct (_ <=? _)%nat. }
    rewrite Hp. f_equal. destruct s; simpl. by rewrite Nat.add_0_r.
  - destruct fuel; [lia|]. simpl.
    destruct (Hrun 0) as (c & Hc & Hpc); [lia|]. rewrite Nat.add_0_r in Hc.
    assert (Hlt : m_Current s < String.length (m_Source s)) by by eapply get_Some_lt.
    assert (Hp : pc (peek s) = true).
    { unfold peek, isAtEnd, char_at. rewrite Hc.
      apply Nat.leb_gt in Hlt. by rewrite Hlt. }
    rewrite Hp. unfold advance, source_at. simpl.
    replace (m_Current s + 1 - 1) with (m_Current s) by lia.
    rewrite Hc. simpl.
    rewrite IH; simpl.
    + f_equal. f_equal. lia.
    + intros j Hj. replace (m_Current s + 1 + j) with (m_Current s + S j) by lia.
      apply Hrun. lia.
    + replace (m_Current s + 1 + k) with (m_Current s + S k) by lia. done.
    + lia.
Qed.

Lemma match_true expected s :
  String.get (m_Current s) (m_Source s) = Some expected ->
  match_ expected s = (true, set_Current s (m_Current s + 1)).
Proof.
  intros H. unfold match_, isAtEnd, char_at. rewrite H.
  apply get_Some_lt in H. apply Nat.leb_gt in H. rewrite H.
  by rewrite Ascii.eqb_refl.
Qed.

Lemma get_lt (s : string) n :
  n < String.length s -> exists c, String.get n s = Some c.
Proof.
  revert n; induction s as [|c s IH]; intros n H; simpl in *; [lia|].
  destruct n; [by eexists|]. apply IH. lia.
Qed.

Lemma match_false expected s :
  (forall c, String.get (m_Current s) (m_Source s) = Some c -> c <> expected) ->
  match_ expected s = (false, s).
Proof.
  intros H. unfold match_, isAtEnd, char_at.
  destruct (Nat.leb_spec (String.length (m_Source s)) (m_Current s)) as [|Hlt]; [done|].
  destruct (get_lt _ _ Hlt) as [c Hc]. rewrite Hc.
  specialize (H c Hc). apply Ascii.eqb_neq in H. by rewrite H.
Qed.

Lemma peek_get s c :
  String.get (m_Current s) (m_Source s) = Some c -> peek s = c.
Proof.
  intros H. unfold peek, isAtEnd, char_at. rewrite H.
  apply get_Some_lt in H. apply Nat.leb_gt in H. by rewrite H.
Qed.

Lemma peek_end s :
  String.length (m_Source s) <= m_Current s -> peek s = "000"%char.
Proof. intros H. unfold peek, isAtEnd. apply Nat.leb_le in H. by rewrite H. Qed.

Lemma append_assoc (a b c : string) : (a +:+ b) +:+ c = a +:+ (b +:+ c).
Proof.
  induction a as [|x a IH]; [done|]. rewrite !append_cons. by rewrite IH.
Qed.

Lemma isdigit_cases d :
  isdigit d = true ->
  In d ["0"; "1"; "2"; "3"; "4"; "5"; "6"; "7"; "8"; "9"]%char.
Proof.
  destruct d as [[] [] [] [] [] [] [] []]; vm_compute; intros H;
    try discriminate; tauto.
Qed.

(** A digit sends [scanToken] to [scanNumber]. *)
Lemma scanToken_digit s d s1 tokens :
  advance s = Ok (d, s1) -> isdigit d = true ->
  scanToken s tokens = scanNumber d s1 tokens.
Proof.
  intros Hadv Hd. unfold scanToken. rewrite Hadv.
  unfold mbind at 1, Result_bind at 1. cbv beta iota.
  apply isdigit_cases in Hd. simpl in Hd.
  repeat (destruct Hd as [<- | Hd]; [reflexivity|]). done.
Qed.

(** C6: where the claim fails.  The two characters [>>] are scanned as two
    GREATER tokens and [>>=] as GREATER, GREATER_EQUAL; it is [><] and
    [><=] that give the shift-right tokens, while [<<] and [<<=] give the
    shift-left tokens. *)
Theorem scanSource_shift_right (context : TypeContext) (errorHandler : ErrorLog) :
  scanSource ">>" context errorHandler =
    Ok ([mkToken GREATER ">" 1; mkToken GREATER ">" 1;
         mkToken END_OF_FILE ">" 1], errorHandler)
  /\ scanSource ">>=" context errorHandler =
       Ok ([mkToken GREATER ">" 1; mkToken GREATER_EQUAL ">=" 1;
            mkToken END_OF_FILE ">=" 1], errorHandler)
  /\ scanSource "><" context errorHandler =
       Ok ([mkToken SHIFT_RIGHT "><" 1; mkToken END_OF_FILE "><" 1],
           errorHandler)
  /\ scanSource "><=" context errorHandler =
       Ok ([mkToken SHIFT_RIGHT_EQUAL "><=" 1; mkToken END_OF_FILE "><=" 1],
           errorHandler)
  /\ scanSource "<<" context errorHandler =
       Ok ([mkToken SHIFT_LEFT "<<" 1; mkToken END_OF_FILE "<<" 1],
           errorHandler)
  /\ scanSource "<<=" context errorHandler =
       Ok ([mkToken SHIFT_LEFT_EQUAL "<<=" 1; mkToken END_OF_FILE "<<=" 1],
           errorHandler).
Proof. repeat split; vm_compute; reflexivity. Qed.

(** C7: where the claim fails.  The suffix table has entries for the empty
    suffix and for U only: the lookup throws for every suffix that holds an
    L, and so does the scan of a literal with such a suffix; the suffixes
    without L are scanned. *)
Theorem scanSource_integer_suffix (context : TypeContext) (errorHandler : ErrorLog) :
  (forall suffix : gset ascii,
     at_ integerLiteralTokenTypes suffix =
       if decide (suffix = ∅) then Ok INT32_NUMBER
       else if decide (suffix = {["U"%char]}) then Ok UINT32_NUMBER
       else Throw out_of_range)
  /\ at_ integerLiteralTokenTypes ({["L"%char]} : gset ascii) = Throw out_of_range
  /\ at_ integerLiteralTokenTypes ({["U"%char; "L"%char]} : gset ascii)
       = Throw out_of_range
  /\ scanSource "1L" context errorHandler = Throw out_of_range
  /\ scanSource "1l" context errorHandler = Throw out_of_range
  /\ scanSource "1UL" context errorHandler = Throw out_of_range
  /\ scanSource "1LU" context errorHandler = Throw out_of_range
  /\ scanSource "1LL" context errorHandler = Throw out_of_range
  /\ scanSource "0x1FuL" context errorHandler = Throw out_of_range
  /\ scanSource "1" context errorHandler =
       Ok ([mkToken INT32_NUMBER "1" 1; mkToken END_OF_FILE "1" 1], errorHandler)
  /\ scanSource "1U" context errorHandler =
       Ok ([mkToken UINT32_NUMBER "1U" 1; mkToken END_OF_FILE "1U" 1], errorHandler)
  /\ scanSource "1u" context errorHandler =
       Ok ([mkToken UINT32_NUMBER "1u" 1; mkToken END_OF_FILE "1u" 1], errorHandler).
Proof.
  split; [|repeat split; vm_compute; reflexivity].
  intros suffix. unfold at_, integerLiteralTokenTypes. simpl.
  repeat case_decide; subst.
  - by rewrite lookup_insert_eq.
  - rewrite lookup_insert_ne by done. by rewrite lookup_insert_eq.
  - rewrite !lookup_insert_ne by done. by rewrite lookup_empty.
Qed.


(** C10: a scan that returns gives a token sequence that is not empty and
    ends with an END_OF_FILE token; a scan that does not return has thrown
    an exception of the C++ code (the model's loops never run out of
    iterations); the empty source gives the END_OF_FILE token alone. *)
Theorem scanSource_ends_with_END_OF_FILE (source : string)
  (context : TypeContext) (errorHandler : ErrorLog) :
  match scanSource source context errorHandler with
  | Ok (tokens, _) =>
      tokens <> [] /\ type <$> last tokens = Some END_OF_FILE
  | Throw e => e <> OutOfFuel
  end
  /\ scanSource "" context errorHandler =
       Ok ([mkToken END_OF_FILE "" 1], errorHandler).
Proof.
  split; [|vm_compute; reflexivity].
  pose proof (scanSource_sound source context errorHandler) as H.
  destruct (scanSource source context errorHandler) as [[tokens log]|e]; [|done].
  destruct H as [(front & lexeme & line & ->) _].
  split; [by destruct front | by rewrite last_snoc].
Qed.

End ScannerFacts.

(** ** The strategy registry *)
Module StrategyFacts.
Import ModelSpec BackendSIMT Examples.

Section Registry.

Context {PreferencesBase : Type}.
Implicit Types (s strategy : Strategy PreferencesBase).
Implicit Types (registry : list (Strategy PreferencesBase)).

Lemma findCompatible_rev_snoc registry s sg (preferences : PreferencesBase) :
  findCompatible _ (rev (registry ++ [s])) sg preferences =
    if isCompatible _ s sg preferences then Some s
    else findCompatible _ (rev registry) sg preferences.
Proof. by rewrite rev_unit. Qed.

(** The scan from the back finds the last compatible strategy in
    registration order. *)
Lemma findCompatible_last registry sg (preferences : PreferencesBase) :
  findCompatible _ (rev registry) sg preferences =
    last (List.filter (fun s => isCompatible _ s sg preferences) registry).
Proof.
  induction registry as [|s registry IH] using rev_ind; [done|].
  rewrite findCompatible_rev_snoc, List.filter_app. simpl.
  destruct (isCompatible _ s sg preferences).
  - by rewrite last_snoc.
  - by rewrite app_nil_r.
Qed.

Lemma findCompatible_Some reversed sg (preferences : PreferencesBase) s :
  findCompatible _ reversed sg preferences = Some s <->
  exists before after,
    reversed = before ++ s :: after
    /\ isCompatible _ s sg preferences = true
    /\ Forall (fun s' => isCompatible _ s' sg preferences = false) before.
Proof.
  induction reversed as [|s' reversed IH]; simpl.
  - split; [done|]. intros (before & after & H & _). by destruct before.
  - destruct (isCompatible _ s' sg preferences) eqn:E.
    + split.
      * intros [= ->]. by exists [], reversed.
      * intros ([|b before] & after & H & Hs & Hb); simplify_eq/=; [done|].
        apply Forall_cons in Hb as [Hb _]. congruence.
    + rewrite IH. split.
      * intros (before & after & -> & Hs & Hb).
        exists (s' :: before), after. by repeat split; [|constructor].
      * intros ([|b before] & after & H & Hs & Hb); simplify_eq/=; [congruence|].
        apply Forall_cons in Hb as [_ Hb]. by exists before, after.
Qed.

Lemma findCompatible_None reversed sg (preferences : PreferencesBase) :
  Forall (fun s => isCompatible _ s sg preferences = false) reversed ->
  findCompatible _ reversed sg preferences = None.
Proof. induction 1 as [|s l Hs _ IH]; simpl; [done | by rewrite Hs]. Qed.

(** C3: the registry is scanned from the last registered strategy to the
    first and the first compatible one met is returned, which is the last
    compatible strategy in registration order: every strategy registered
    after it is incompatible.  A strategy that is registered is put at the
    end, so a compatible one is selected from then on.  When no strategy
    is compatible the call throws a runtime error whose message holds the
    name of the synapse group. *)
Theorem getPresynapticUpdateStrategy_selection registry sg
  (preferences : PreferencesBase) :
  getPresynapticUpdateStrategy _ registry sg preferences =
    match last (List.filter (fun s => isCompatible _ s sg preferences) registry) with
    | Some s => Ok s
    | None =>
        Throw (runtime_error
          ("Unable to find a suitable presynaptic update strategy for synapse group '"
           +:+ getName sg +:+ "'"))
    end
  /\ (forall s,
        getPresynapticUpdateStrategy _ registry sg preferences = Ok s <->
        exists earlier later,
          registry = earlier ++ s :: later
          /\ isCompatible _ s sg preferences = true
          /\ Forall (fun s' => isCompatible _ s' sg preferences = false) later)
  /\ (Forall (fun s => isCompatible _ s sg preferences = false) registry ->
      getPresynapticUpdateStrategy _ registry sg preferences =
        Throw (runtime_error
          ("Unable to find a suitable presynaptic update strategy for synapse group '"
           +:+ getName sg +:+ "'")))
  /\ (forall strategy,
        isCompatible _ strategy sg preferences = true ->
        getPresynapticUpdateStrategy _
          (addPresynapticUpdateStrategy _ registry strategy) sg preferences
        = Ok strategy).
Proof.
  unfold getPresynapticUpdateStrategy. repeat split.
  - by rewrite findCompatible_last.
  - destruct (findCompatible _ _ _ _) as [s'|] eqn:E; [|done].
    intros [= ->]. apply findCompatible_Some in E as (before & after & E & Hs & Hb).
    exists (rev after), (rev before). repeat split; [|done|].
    + rewrite <- (rev_involutive registry), E, rev_app_distr. simpl.
      by rewrite <- app_assoc.
    + by apply Forall_rev.
  - intros (earlier & later & -> & Hs & Hl).
    assert (E : findCompatible _ (rev (earlier ++ s :: later)) sg preferences = Some s).
    { apply findCompatible_Some. exists (rev later), (rev earlier).
      repeat split; [|done|by apply Forall_rev].
      rewrite rev_app_distr. simpl. by rewrite <- app_assoc. }
    by rewrite E.
  - intros H. rewrite findCompatible_None; [done | by apply Forall_rev].
  - intros strategy H. unfold addPresynapticUpdateStrategy.
    by rewrite findCompatible_rev_snoc, H.
Qed.

End Registry.

Lemma getPresynapticUpdateStrategy_selection_witness :
  getPresynapticUpdateStrategy _
    (addPresynapticUpdateStrategy _ [accepting 1] (accepting 2))
    someSynapseGroup tt = Ok (accepting 2)
  /\ getPresynapticUpdateStrategy unit [] someSynapseGroup tt =
       Throw (runtime_error
         "Unable to find a suitable presynaptic update strategy for synapse group 'Syn'").
Proof.
  split.
  - apply (getPresynapticUpdateStrategy_selection [accepting 1] someSynapseGroup tt).
    reflexivity.
  - apply (getPresynapticUpdateStrategy_selection [] someSynapseGroup tt).
    constructor.
Defined.

End StrategyFacts.

(** ** The stepTime driver *)
Module RunnerFacts.
Import CodeStream ModelSpec Runner.

Lemma fold_genSpikeQueueAdvance neuronGroups runner :
  fold_left genSpikeQueueAdvance neuronGroups runner =
    runner ++ map spikeQueueAdvance
                (List.filter (fun n => isDelayRequired n.2) neuronGroups).
Proof.
  revert runner; induction neuronGroups as [|n l IH]; intros runner; simpl.
  - by rewrite app_nil_r.
  - rewrite IH. unfold genSpikeQueueAdvance, write.
    destruct (isDelayRequired n.2); simpl; [|done].
    by rewrite <- app_assoc.
Qed.

Lemma fold_genDenDelayAdvance inSyn runner :
  fold_left genDenDelayAdvance inSyn runner =
    runner ++ map denDelayAdvance
                (List.filter isDendriticDelayRequired (map fst inSyn)).
Proof.
  revert runner; induction inSyn as [|m l IH]; intros runner; simpl.
  - by rewrite app_nil_r.
  - rewrite IH. unfold genDenDelayAdvance, write.
    destruct (isDendriticDelayRequired m.1); simpl; [|done].
    by rewrite <- app_assoc.
Qed.

Lemma fold_groups_genDenDelayAdvance
  (neuronGroups : list (string * NeuronGroupInternal)) runner :
  fold_left
    (fun runner n => fold_left genDenDelayAdvance (getMergedInSyn n.2) runner)
    neuronGroups runner =
    runner ++ map denDelayAdvance
                (List.filter isDendriticDelayRequired
                   (map fst (flat_map (fun n => getMergedInSyn n.2) neuronGroups))).
Proof.
  revert runner; induction neuronGroups as [|n l IH]; intros runner; simpl.
  - by rewrite app_nil_r.
  - rewrite IH, fold_genDenDelayAdvance, map_app, List.filter_app, map_app.
    by rewrite <- app_assoc.
Qed.

(** C2: the statements of the emitted [stepTime()], in order: the call of
    [updateSynapses], the advance of the spike queue pointer of every
    neuron group that requires delays, the call of [updateNeurons], the
    advance of the dendritic delay pointer of every merged incoming synapse
    group that requires dendritic delays, [iT++], [t = iT*DT], and the
    finalise stream. *)
Theorem genStepTime_order (runner : CodeStream)
  (neuronGroups : list (string * NeuronGroupInternal))
  (runnerStepTimeFinaliseStream : string) :
  genStepTime runner neuronGroups runnerStepTimeFinaliseStream =
    runner
    ++ [Str "void stepTime()"; OB; Str ("updateSynapses(t);" +:+ endl)]
    ++ map spikeQueueAdvance
         (List.filter (fun n => isDelayRequired n.2) neuronGroups)
    ++ [Str ("updateNeurons(t);" +:+ endl)]
    ++ map denDelayAdvance
         (List.filter isDendriticDelayRequired
            (map fst (flat_map (fun n => getMergedInSyn n.2) neuronGroups)))
    ++ [Str ("iT++;" +:+ endl); Str ("t = iT*DT;" +:+ endl);
        Str runnerStepTimeFinaliseStream; CB; Str endl].
Proof.
  unfold genStepTime, write.
  rewrite fold_groups_genDenDelayAdvance, fold_genSpikeQueueAdvance.
  repeat rewrite <- app_assoc. reflexivity.
Qed.

End RunnerFacts.

(** ** The custom update body *)
Module CustomUpdateFacts.
Import CodeStream CustomUpdate Examples.

Section GenCustomUpdate.

Variable READ_ONLY READ_WRITE REDUCE : N.
Variable getVarAccessDuplication : N -> N.
Variable VarReference : Type.
Variable getVarReferences : gmap string VarReference.
Variable getVarIndex : N -> string -> string.
Variable getVarRefIndex : VarReference -> string -> string.
Variable updateSubsIndex : string.
Variable applyCheckUnreplaced : string -> string -> Result string.
Variable ensureFtype : string -> string -> string.
Variable getPrecision : string.
Variable getIndex : N.

Local Abbreviation declareVar :=
  (declareVar READ_ONLY REDUCE getVarAccessDuplication getVarIndex updateSubsIndex).
Local Abbreviation declareVarRef :=
  (declareVarRef READ_ONLY REDUCE VarReference getVarReferences getVarRefIndex
     updateSubsIndex).
Local Abbreviation writeBackVar :=
  (writeBackVar READ_WRITE getVarAccessDuplication getVarIndex updateSubsIndex).
Local Abbreviation writeBackVarRef :=
  (writeBackVarRef READ_WRITE VarReference getVarReferences getVarRefIndex
     updateSubsIndex).
Local Abbreviation genCustomUpdate :=
  (genCustomUpdate READ_ONLY READ_WRITE REDUCE getVarAccessDuplication
     VarReference getVarReferences getVarIndex getVarRefIndex updateSubsIndex
     applyCheckUnreplaced ensureFtype getPrecision getIndex).

Local Abbreviation varQualifier := (varQualifier READ_ONLY).
Local Abbreviation varRefQualifier := (varRefQualifier READ_ONLY).
Local Abbreviation varIndex :=
  (varIndex getVarAccessDuplication getVarIndex updateSubsIndex).

Lemma forEach_appends {A : Type} (body : CodeStream -> A -> Result CodeStream)
  (items : list A) (os os' : CodeStream) :
  appends body ->
  forEach body items os = Ok os' ->
  exists pss, Forall2 (fun v ps => body [] v = Ok ps) items pss
              /\ os' = os ++ concat pss.
Proof.
  intros Hb. revert os; induction items as [|v items IH]; intros os; simpl.
  - intros [= <-]. exists []. split; [constructor | by rewrite app_nil_r].
  - rewrite (Hb os v). unfold mbind, Result_bind.
    destruct (body [] v) as [ps|] eqn:E; [|done].
    intros (pss & Hpss & ->)%IH. exists (ps :: pss).
    split; [by constructor | simpl; by rewrite app_assoc].
Qed.

Lemma forEach_total {A : Type} (body : CodeStream -> A -> Result CodeStream)
  (items : list A) (os : CodeStream) :
  appends body ->
  Forall (fun v => exists ps, body [] v = Ok ps) items ->
  exists os', forEach body items os = Ok os'.
Proof.
  intros Hb H. revert os; induction H as [|v items [ps Hv] _ IH]; intros os; simpl.
  - by eexists.
  - rewrite (Hb os v), Hv. simpl. apply IH.
Qed.

Lemma fold_left_appends {A : Type} (body : CodeStream -> A -> CodeStream)
  (items : list A) (os : CodeStream) :
  (forall os v, body os v = os ++ body [] v) ->
  fold_left body items os = os ++ flat_map (body []) items.
Proof.
  intros Hb. revert os; induction items as [|v items IH]; intros os; simpl.
  - by rewrite app_nil_r.
  - by rewrite IH, (Hb os v), <- app_assoc.
Qed.

Lemma declareVar_appends os v : declareVar os v = os ++ declareVar [] v.
Proof. reflexivity. Qed.

Lemma writeBackVar_appends os v : writeBackVar os v = os ++ writeBackVar [] v.
Proof.
  unfold CustomUpdate.writeBackVar.
  destruct (hasBits _ _); [done | by rewrite app_nil_r].
Qed.

Lemma declareVarRef_appends : appends declareVarRef.
Proof.
  intros os v. unfold CustomUpdate.declareVarRef, mbind, Result_bind.
  destruct (negb _); [destruct (varRefAt _ _ _)|]; reflexivity.
Qed.

Lemma writeBackVarRef_appends : appends writeBackVarRef.
Proof.
  intros os v. unfold CustomUpdate.writeBackVarRef, mbind, Result_bind.
  destruct (_ =? _)%N; [destruct (varRefAt _ _ _)|]; simpl;
    [done | done | by rewrite app_nil_r].
Qed.

(** C9 (amended): the body emitted for a custom update, when its update
    code has no unreplaced substitution and its variable references are
    known, is, in this order: one declaration of a local scalar [l<name>]
    for every variable and every variable reference, the update code, and
    the write-backs.  A variable or reference whose access has not the
    REDUCE bit is declared with its value in global memory as initialiser;
    one with the REDUCE bit is declared too, without initialiser.  After
    the code every variable whose access has the READ_WRITE bit, and every
    reference whose access is READ_WRITE, is written back from its local
    scalar, and nothing else is. *)
Theorem genCustomUpdate_layout (os : CodeStream) (getVars varRefs : list Var)
  (getUpdateCode code : string) :
  applyCheckUnreplaced getUpdateCode
    ("custom update : merged" +:+ pretty getIndex) = Ok code ->
  Forall (fun v => is_Some (getVarReferences !! name v)) varRefs ->
  exists declarations writeBacks,
    genCustomUpdate os getVars varRefs getUpdateCode =
      Ok (os ++ declarations ++ [Str (ensureFtype code getPrecision)] ++ writeBacks)
    /\ length declarations = (length getVars + length varRefs)%nat
    (* variables *)
    /\ (forall v, In v getVars ->
          In (declaration (varQualifier v) v
                (if hasBits (access v) REDUCE then ""
                 else " = group->" +:+ name v +:+ "[" +:+ varIndex v +:+ "]"))
             declarations)
    /\ (forall v, In v getVars -> hasBits (access v) READ_WRITE = true ->
          In (writeBack v (varIndex v)) writeBacks)
    (* variable references *)
    /\ (forall v, In v varRefs ->
          exists r, getVarReferences !! name v = Some r
            /\ In (declaration (varRefQualifier v) v
                     (if hasBits (access v) REDUCE then ""
                      else " = group->" +:+ name v +:+ "["
                           +:+ getVarRefIndex r updateSubsIndex +:+ "]"))
                  declarations)
    /\ (forall v, In v varRefs -> access v = READ_WRITE ->
          exists r, getVarReferences !! name v = Some r
            /\ In (writeBack v (getVarRefIndex r updateSubsIndex)) writeBacks)
    (* nothing else is written back *)
    /\ (forall p, In p writeBacks ->
          exists v,
            (In v getVars /\ hasBits (access v) READ_WRITE = true
             /\ p = writeBack v (varIndex v))
            \/ (In v varRefs /\ access v = READ_WRITE
                /\ exists r, getVarReferences !! name v = Some r
                     /\ p = writeBack v (getVarRefIndex r updateSubsIndex))).
Proof.
  intros Hcode Hrefs.
  (* the declarations of the variable references *)
  assert (Hdecl : forall v, In v varRefs ->
            exists r, getVarReferences !! name v = Some r
              /\ declareVarRef [] v =
                   Ok [declaration (varRefQualifier v) v
                         (if hasBits (access v) REDUCE then ""
                          else " = group->" +:+ name v +:+ "["
                               +:+ getVarRefIndex r updateSubsIndex +:+ "]")]).
  { intros v Hv. rewrite List.Forall_forall in Hrefs.
    destruct (Hrefs v Hv) as [r Hr]. exists r. split; [done|].
    unfold CustomUpdate.declareVarRef, varRefAt, mbind, Result_bind.
    rewrite Hr. by destruct (hasBits (access v) REDUCE). }
  assert (Hwb : forall v, In v varRefs ->
            exists r, getVarReferences !! name v = Some r
              /\ writeBackVarRef [] v =
                   Ok (if (access v =? READ_WRITE)%N
                       then [writeBack v (getVarRefIndex r updateSubsIndex)]
                       else [])).
  { intros v Hv. rewrite List.Forall_forall in Hrefs.
    destruct (Hrefs v Hv) as [r Hr]. exists r. split; [done|].
    unfold CustomUpdate.writeBackVarRef, varRefAt, mbind, Result_bind.
    rewrite Hr. by destruct (access v =? READ_WRITE)%N. }
  unfold CustomUpdate.genCustomUpdate.
  rewrite (fold_left_appends declareVar) by apply declareVar_appends.
  destruct (forEach_total declareVarRef varRefs
              (os ++ flat_map (declareVar []) getVars) declareVarRef_appends)
    as [os1 Hos1].
  { apply List.Forall_forall. intros v Hv.
    destruct (Hdecl v Hv) as (r & _ & ->). by eexists. }
  rewrite Hos1.
  apply forEach_appends in Hos1 as (pss1 & Hpss1 & ->);
    [|apply declareVarRef_appends].
  unfold mbind at 1, Result_bind at 1. rewrite Hcode.
  unfold mbind at 1, Result_bind at 1.
  rewrite (fold_left_appends writeBackVar) by apply writeBackVar_appends.
  match goal with
  | |- context [forEach writeBackVarRef varRefs ?o] =>
      destruct (forEach_total writeBackVarRef varRefs o writeBackVarRef_appends)
        as [os2 Hos2]
  end.
  { apply List.Forall_forall. intros v Hv.
    destruct (Hwb v Hv) as (r & _ & ->). by eexists. }
  pose proof Hos2 as Hos2'.
  apply forEach_appends in Hos2' as (pss2 & Hpss2 & ->);
    [|apply writeBackVarRef_appends].
  exists (flat_map (declareVar []) getVars ++ concat pss1),
         (flat_map (writeBackVar []) getVars ++ concat pss2).
  split; [rewrite Hos2; f_equal; by rewrite <- !app_assoc|].
  (* each reference has one declaration *)
  assert (Hone : Forall2 (fun v ps =>
            exists r, getVarReferences !! name v = Some r
              /\ ps = [declaration (varRefQualifier v) v
                         (if hasBits (access v) REDUCE then ""
                          else " = group->" +:+ name v +:+ "["
                               +:+ getVarRefIndex r updateSubsIndex +:+ "]")])
            varRefs pss1).
  { clear -Hpss1 Hdecl. induction Hpss1 as [|v ps l pss Hv _ IH]; constructor.
    - destruct (Hdecl v) as (r & Hr & E); [by left|]. exists r.
      split; [done | congruence].
    - apply IH. intros v' Hv'. apply Hdecl. by right. }
  assert (Htwo : Forall2 (fun v ps =>
            exists r, getVarReferences !! name v = Some r
              /\ ps = if (access v =? READ_WRITE)%N
                      then [writeBack v (getVarRefIndex r updateSubsIndex)]
                      else [])
            varRefs pss2).
  { clear -Hpss2 Hwb. induction Hpss2 as [|v ps l pss Hv _ IH]; constructor.
    - destruct (Hwb v) as (r & Hr & E); [by left|]. exists r.
      split; [done | congruence].
    - apply IH. intros v' Hv'. apply Hwb. by right. }
  repeat split.
  - rewrite length_app. f_equal.
    + clear. induction getVars; simpl; [done | by f_equal].
    + clear -Hone. induction Hone as [|v ps l pss (r & _ & ->) _ IH]; simpl;
        [done | by f_equal].
  - intros v Hv. apply in_or_app. left. apply in_flat_map. exists v.
    split; [done|]. unfold CustomUpdate.declareVar. simpl. left.
    unfold declaration, varQualifier, varIndex.
    by destruct (hasBits (access v) REDUCE).
  - intros v Hv Hrw. apply in_or_app. left. apply in_flat_map. exists v.
    split; [done|]. unfold CustomUpdate.writeBackVar. rewrite Hrw. by left.
  - intros v Hv. clear -Hone Hv.
    induction Hone as [|v' ps l pss (r & Hr & ->) _ IH]; [done|].
    destruct Hv as [<- | Hv].
    + exists r. split; [done|]. apply in_or_app. right. by left.
    + destruct (IH Hv) as (r' & Hr' & Hin). exists r'. split; [done|].
      apply in_app_or in Hin as [Hin | Hin]; apply in_or_app;
        [by left | right; by right].
  - intros v Hv Hrw. clear -Htwo Hv Hrw.
    induction Htwo as [|v' ps l pss (r & Hr & ->) _ IH]; [done|].
    destruct Hv as [<- | Hv].
    + exists r. split; [done|]. apply in_or_app. right. simpl.
      rewrite Hrw, N.eqb_refl. by left.
    + destruct (IH Hv) as (r' & Hr' & Hin). exists r'. split; [done|].
      apply in_app_or in Hin as [Hin | Hin]; apply in_or_app; [by left|].
      right. simpl. apply in_or_app. by right.
  - intros p [Hp | Hp]%in_app_or.
    + apply in_flat_map in Hp as (v & Hv & Hp). exists v. left.
      unfold CustomUpdate.writeBackVar in Hp.
      destruct (hasBits (access v) READ_WRITE) eqn:E; [|done].
      destruct Hp as [<- | []]. done.
    + clear -Htwo Hp.
      induction Htwo as [|v ps l pss (r & Hr & ->) _ IH]; [done|].
      simpl in Hp. apply in_app_or in Hp as [Hp | Hp].
      * destruct (access v =? READ_WRITE)%N eqn:E; [|done].
        apply N.eqb_eq in E. destruct Hp as [<- | []].
        exists v. right. split; [by left|]. split; [done|]. by exists r.
      * destruct (IH Hp) as (v' & [H | (Hv' & Hrest)]); exists v';
          [by left | right; split; [by right | done]].
Qed.

End GenCustomUpdate.

(** C9, as stated, fails for REDUCE variables: the reduction target [sum]
    is declared, as [scalar lsum;], before the update code. *)
Lemma genCustomUpdate_reduce_counterexample :
  hasBits (N.lor REDUCE (N.lor SUM SHARED)) REDUCE = true
  /\ gen [mkVar "sum" "scalar" (N.lor REDUCE (N.lor SUM SHARED))] []
         "$(sum) = 0;"
     = Ok [Str ("scalar lsum;" +:+ endl); Str "$(sum) = 0;"].
Proof. split; vm_compute; reflexivity. Qed.

Lemma genCustomUpdate_layout_witness :
  exists declarations writeBacks,
    gen [mkVar "x" "scalar" (N.lor READ_WRITE DUPLICATE);
         mkVar "sum" "scalar" (N.lor REDUCE (N.lor SUM SHARED))]
        [mkVar "g" "scalar" READ_ONLY] "$(x) += $(g);"
    = Ok (declarations ++ [Str "$(x) += $(g);"] ++ writeBacks)
    /\ length declarations = 3%nat.
Proof.
  destruct (genCustomUpdate_layout READ_ONLY READ_WRITE REDUCE
              (fun a => N.land a (N.lor DUPLICATE SHARED))
              string {["g" := "g"]} (fun _ index => index) (fun _ index => index)
              "id" (fun code _ => Ok code) (fun code _ => code) "float" 0
              []
              [mkVar "x" "scalar" (N.lor READ_WRITE DUPLICATE);
               mkVar "sum" "scalar" (N.lor REDUCE (N.lor SUM SHARED))]
              [mkVar "g" "scalar" READ_ONLY] "$(x) += $(g);" "$(x) += $(g);")
    as (declarations & writeBacks & H & Hlen & _).
  - reflexivity.
  - repeat constructor. by eexists.
  - exists declarations, writeBacks. split; [exact H | exact Hlen].
Defined.

End CustomUpdateFacts.

(** ** The reset kernels *)
Module KernelFacts.
Import CodeStream ModelSpec BackendSIMT Layout.
Local Open Scope N_scope.

Lemma wrap_small x : x < SizeT.modulus -> SizeT.wrap x = x.
Proof. apply N.mod_small. Qed.

Lemma padSize_exact size blockSize :
  0 < blockSize -> size + blockSize < SizeT.modulus ->
  padSize size blockSize = roundUp size blockSize.
Proof.
  intros HB Hlt. unfold padSize, roundUp, SizeT.mul, SizeT.sub, SizeT.add.
  rewrite (wrap_small (size + blockSize)) by done.
  rewrite (wrap_small 1) by done.
  assert (E : SizeT.wrap (size + blockSize + SizeT.modulus - 1)
              = size + blockSize - 1).
  { unfold SizeT.wrap.
    replace (size + blockSize + SizeT.modulus - 1)
      with (size + blockSize - 1 + 1 * SizeT.modulus) by lia.
    rewrite N.Div0.mod_add. apply N.mod_small. lia. }
  rewrite E. apply wrap_small.
  pose proof (N.Div0.mul_div_le (size + blockSize - 1) blockSize). lia.
Qed.

Lemma roundUp_divide size blockSize : (blockSize | roundUp size blockSize).
Proof. unfold roundUp. by eexists. Qed.

Lemma roundUp_ge size blockSize : 0 < blockSize -> size <= roundUp size blockSize.
Proof.
  intros HB. unfold roundUp.
  pose proof (N.mod_upper_bound (size + blockSize - 1) blockSize ltac:(lia)).
  pose proof (N.div_mod' (size + blockSize - 1) blockSize). lia.
Qed.

Lemma N_sum_app l1 l2 : N_sum (l1 ++ l2) = N_sum l1 + N_sum l2.
Proof. induction l1; simpl; lia. Qed.

Lemma N_sum_divide b l : Forall (N.divide b) l -> (b | N_sum l).
Proof.
  induction 1; simpl; [apply N.divide_0_r | by apply N.divide_add_r].
Qed.

(** Accumulating in size_t is exact as long as the exact sum fits. *)
Lemma fold_add_exact {A : Type} (f g : A -> N) (l : list A) (acc : N) :
  Forall (fun x => f x = g x) l ->
  acc + N_sum (map g l) < SizeT.modulus ->
  fold_left (fun acc x => SizeT.add acc (f x)) l acc = acc + N_sum (map g l).
Proof.
  intros H. revert acc; induction H as [|x l Hx _ IH]; intros acc Hlt; simpl in *.
  - lia.
  - rewrite Hx. unfold SizeT.add at 2. rewrite wrap_small by lia.
    rewrite IH by lia. lia.
Qed.

Lemma rangeTests_app os1 os2 :
  rangeTests (os1 ++ os2) = rangeTests os1 ++ rangeTests os2.
Proof. apply omap_app. Qed.

Lemma bounds_rangeTest idStart size :
  idStart + size < SizeT.modulus ->
  bounds (rangeTest idStart size) = (idStart, idStart + size).
Proof.
  intros H. unfold rangeTest. destruct (N.eqb_spec idStart 0) as [->|]; simpl.
  - done.
  - unfold SizeT.add. by rewrite wrap_small.
Qed.

Lemma rangeTestsFrom_exact idStart sizes :
  idStart + N_sum sizes < SizeT.modulus ->
  map bounds (rangeTestsFrom idStart sizes) = layout idStart sizes
  /\ fold_left SizeT.add sizes idStart = idStart + N_sum sizes.
Proof.
  revert idStart; induction sizes as [|w sizes IH]; intros idStart H; simpl in *.
  - split; [done | lia].
  - rewrite bounds_rangeTest by lia.
    unfold SizeT.add at 1 3. rewrite wrap_small by lia.
    destruct (IH (idStart + w)) as [-> ->]; [lia|]. split; [done | lia].
Qed.

Lemma holds_bounds id test : holds id test = inRange id (bounds test).
Proof. destruct test; [by destruct id | done]. Qed.

(** Consecutive ranges partition the ids they span: an id below the start
    is in none of them, an id they span is in exactly one. *)
Lemma layout_below id start widths :
  id < start -> List.filter (inRange id) (layout start widths) = [].
Proof.
  revert start; induction widths as [|w widths IH]; intros start H; simpl; [done|].
  unfold inRange at 1. simpl.
  destruct (N.leb_spec start id); [lia|]. simpl. apply IH. lia.
Qed.

Lemma layout_partition id start widths :
  start <= id < start + N_sum widths ->
  length (List.filter (inRange id) (layout start widths)) = 1%nat.
Proof.
  revert start; induction widths as [|w widths IH]; intros start H; simpl in *; [lia|].
  unfold inRange at 1. simpl.
  destruct (N.leb_spec start id); [|lia]. simpl.
  destruct (N.ltb_spec id (start + w)).
  - simpl. by rewrite layout_below.
  - apply IH. lia.
Qed.

Lemma filter_holds id tests :
  List.filter (holds id) tests =
  List.filter (fun t => inRange id (bounds t)) tests.
Proof. apply List.filter_ext. intros t. apply holds_bounds. Qed.

Lemma length_filter_map {A B : Type} (f : A -> B) (p : B -> bool) (l : list A) :
  length (List.filter (fun x => p (f x)) l) = length (List.filter p (map f l)).
Proof.
  induction l as [|x l IH]; simpl; [done|].
  destruct (p (f x)); simpl; by rewrite IH.
Qed.

(** What a kernel's range tests need for every id to meet exactly one. *)
Lemma rangeTests_partition tests widths :
  map bounds tests = layout 0 widths ->
  forall id, id < N_sum widths ->
    length (List.filter (holds id) tests) = 1%nat.
Proof.
  intros H id Hid.
  rewrite filter_holds, (length_filter_map bounds (inRange id)), H.
  apply layout_partition. lia.
Qed.

Section Kernels.

Variable getKernelBlockSize : Kernel -> N.
Variable getPointerPrefix : string.
Variable genGroupMergedSearch : GroupMerged NeuronGroupInternal -> N -> string.
Variable genMergedGroupSpikeCountReset :
  GroupMerged NeuronGroupInternal -> N -> string.
Variable popSubs : string -> string.

Local Abbreviation blockSize := (getKernelBlockSize KernelPreNeuronReset).
Local Abbreviation paddedSize := (paddedSize getKernelBlockSize).
Local Abbreviation genPreNeuronResetGroup :=
  (genPreNeuronResetGroup getKernelBlockSize getPointerPrefix
     genGroupMergedSearch genMergedGroupSpikeCountReset popSubs).
Local Abbreviation genPreNeuronResetKernel :=
  (genPreNeuronResetKernel getKernelBlockSize getPointerPrefix
     genGroupMergedSearch genMergedGroupSpikeCountReset popSubs).
Local Abbreviation genPreSynapseResetGroup :=
  (genPreSynapseResetGroup getPointerPrefix).
Local Abbreviation genPreSynapseResetKernel :=
  (genPreSynapseResetKernel getPointerPrefix).

Local Abbreviation neuronResetSize := (neuronResetSize getKernelBlockSize).

Lemma rangeTests_write os text : rangeTests (write os text) = rangeTests os.
Proof. unfold write. rewrite rangeTests_app. simpl. by rewrite app_nil_r. Qed.

Lemma rangeTests_batchLoopOpen os batchSize :
  rangeTests (batchLoopOpen os batchSize) = rangeTests os.
Proof.
  unfold batchLoopOpen. destruct (_ <? _); [|done].
  rewrite rangeTests_app. simpl. by rewrite app_nil_r.
Qed.

Lemma rangeTests_batchLoopClose os batchSize :
  rangeTests (batchLoopClose os batchSize) = rangeTests os.
Proof.
  unfold batchLoopClose. destruct (_ <? _); [|done].
  rewrite rangeTests_app. simpl. by rewrite app_nil_r.
Qed.

Lemma rangeTests_genPrevTimeUpdate os cnt prevT spk slot outer inner :
  rangeTests (genPrevTimeUpdate popSubs os cnt prevT spk slot outer inner)
  = rangeTests os.
Proof.
  unfold genPrevTimeUpdate. rewrite rangeTests_app. simpl. by rewrite app_nil_r.
Qed.

Lemma rangeTests_snoc_other os p :
  (forall t, p <> If t) -> rangeTests (os ++ [p]) = rangeTests os.
Proof.
  intros H. rewrite rangeTests_app. destruct p; simpl; try by rewrite app_nil_r.
  by destruct (H test).
Qed.

Lemma rangeTests_genRangeTest os idStart size :
  rangeTests (genRangeTest os idStart size)
  = rangeTests os ++ [rangeTest idStart size].
Proof.
  unfold genRangeTest, rangeTest. destruct (_ =? _); by rewrite rangeTests_app.
Qed.

Lemma rangeTests_app_plain os ps :
  rangeTests ps = [] -> rangeTests (os ++ ps) = rangeTests os.
Proof. intros H. by rewrite rangeTests_app, H, app_nil_r. Qed.

Ltac no_tests :=
  repeat first
    [ rewrite rangeTests_write
    | rewrite rangeTests_app_plain by reflexivity
    | rewrite rangeTests_batchLoopOpen
    | rewrite rangeTests_batchLoopClose
    | rewrite rangeTests_genPrevTimeUpdate
    | rewrite rangeTests_snoc_other by done
    | match goal with |- context [if ?b then _ else _] => destruct b end ].

Lemma rangeTests_genPrevSpikeTimeBody os n idStart batchSize :
  rangeTests (genPrevSpikeTimeBody genGroupMergedSearch
                genMergedGroupSpikeCountReset popSubs os n idStart batchSize)
  = rangeTests os.
Proof.
  unfold genPrevSpikeTimeBody.
  no_tests; try reflexivity.
Qed.

Lemma genPreNeuronResetGroup_tests batchSize os idStart n :
  rangeTests (genPreNeuronResetGroup batchSize (os, idStart) n).1
    = rangeTests os ++ [rangeTest idStart (neuronResetSize n)]
  /\ (genPreNeuronResetGroup batchSize (os, idStart) n).2
     = SizeT.add idStart (neuronResetSize n).
Proof.
  unfold BackendSIMT.genPreNeuronResetGroup, BackendSIMT.neuronResetSize.
  destruct (_ || _); simpl; (split; [|done]).
  - rewrite rangeTests_snoc_other by done.
    rewrite rangeTests_genPrevSpikeTimeBody.
    rewrite rangeTests_snoc_other by done.
    by rewrite rangeTests_genRangeTest, rangeTests_write.
  - no_tests; by rewrite rangeTests_genRangeTest, rangeTests_write.
Qed.

Lemma genPreSynapseResetGroup_tests os idStart (n : GroupMerged SynapseGroupInternal) :
  rangeTests (genPreSynapseResetGroup (os, idStart) n).1
    = rangeTests os ++ [rangeTest idStart (size n)]
  /\ (genPreSynapseResetGroup (os, idStart) n).2 = SizeT.add idStart (size n).
Proof.
  unfold BackendSIMT.genPreSynapseResetGroup. simpl. split; [|done].
  no_tests. by rewrite rangeTests_genRangeTest, rangeTests_write.
Qed.

(** A loop that writes one range test per group and advances [idStart] by
    the group's size. *)
Lemma fold_rangeTests {G : Type} (step : CodeStream * N -> G -> CodeStream * N)
  (sizeOf : G -> N) (groups : list G) (os : CodeStream) (idStart : N) :
  (forall os idStart n,
     rangeTests (step (os, idStart) n).1
       = rangeTests os ++ [rangeTest idStart (sizeOf n)]
     /\ (step (os, idStart) n).2 = SizeT.add idStart (sizeOf n)) ->
  rangeTests (fold_left step groups (os, idStart)).1
    = rangeTests os ++ rangeTestsFrom idStart (map sizeOf groups)
  /\ (fold_left step groups (os, idStart)).2
     = fold_left SizeT.add (map sizeOf groups) idStart.
Proof.
  intros Hstep. revert os idStart.
  induction groups as [|n groups IH]; intros os idStart; simpl.
  - by rewrite app_nil_r.
  - destruct (step (os, idStart) n) as [os1 id1] eqn:E.
    destruct (Hstep os idStart n) as [H1 H2]. rewrite E in H1, H2. simpl in *.
    destruct (IH os1 id1) as [-> ->]. rewrite H1, H2, <- app_assoc. done.
Qed.

Lemma layout_width start widths :
  map (fun b : N * N => b.2 - b.1) (layout start widths) = widths.
Proof.
  revert start; induction widths as [|w widths IH]; intros start; simpl; [done|].
  rewrite IH. f_equal. lia.
Qed.

Lemma map_width tests start widths :
  map bounds tests = layout start widths -> map width tests = widths.
Proof.
  intros H. rewrite <- (layout_width start widths), <- H, map_map. done.
Qed.

Lemma N_sum_member (x : N) l : In x l -> x <= N_sum l.
Proof. induction l as [|y l IH]; simpl; [done|]. intros [-> | H%IH]; lia. Qed.

Lemma size_exact {G : Type} (n : GroupMerged G) :
  numMembers n < SizeT.modulus -> size n = numMembers n.
Proof. apply wrap_small. Qed.

Lemma paddedSize_exact n :
  0 < blockSize ->
  Forall (fun g => getNumNeurons g + blockSize < SizeT.modulus) (getGroups n) ->
  N_sum (map (fun g => roundUp (getNumNeurons g) blockSize) (getGroups n))
    < SizeT.modulus ->
  paddedSize n
  = N_sum (map (fun g => roundUp (getNumNeurons g) blockSize) (getGroups n)).
Proof.
  intros HB Hg Hsum. unfold BackendSIMT.paddedSize.
  rewrite (fold_add_exact _ (fun g => roundUp (getNumNeurons g) blockSize));
    [done | | done].
  eapply Forall_impl; [exact Hg|]. intros g Hlt. by apply padSize_exact.
Qed.

Lemma neuronResetSize_exact n :
  0 < blockSize ->
  Forall (fun g => getNumNeurons g + blockSize < SizeT.modulus) (getGroups n) ->
  neuronResetThreads blockSize n < SizeT.modulus ->
  neuronResetSize n = neuronResetThreads blockSize n.
Proof.
  unfold BackendSIMT.neuronResetSize, neuronResetThreads. destruct (_ || _).
  - apply paddedSize_exact.
  - intros _ _. apply size_exact.
Qed.

Lemma map_exact {G : Type} (f g : G -> N) (groups : list G) :
  Forall (fun n => g n < SizeT.modulus -> f n = g n) groups ->
  N_sum (map g groups) < SizeT.modulus ->
  map f groups = map g groups.
Proof.
  induction 1 as [|n groups Hn _ IH]; simpl; [done|].
  intros H. rewrite Hn, IH by lia. done.
Qed.

(** C1 (amended): the thread ranges of the two reset kernels, as long as no
    size_t computation overflows.  In the pre-neuron-reset kernel a merged
    group that resets previous spike times takes the padded sizes of its
    members, a multiple of the block size; every other merged group, and
    every merged group of the pre-synapse-reset kernel, takes one thread per
    member, without padding.  In both kernels the ranges tested are
    consecutive from 0, the final [idStart] is the sum of the threads the
    groups take, and every id below it passes exactly one of the tests. *)
Theorem reset_kernels_thread_ranges (os : CodeStream) (batchSize : N)
  (neuronGroups : list (GroupMerged NeuronGroupInternal))
  (synapseGroups : list (GroupMerged SynapseGroupInternal)) :
  0 < blockSize ->
  Forall (fun n =>
            Forall (fun g => getNumNeurons g + blockSize < SizeT.modulus)
              (getGroups n)) neuronGroups ->
  N_sum (map (neuronResetThreads blockSize) neuronGroups) < SizeT.modulus ->
  N_sum (map numMembers synapseGroups) < SizeT.modulus ->
  (exists tests,
     rangeTests (genPreNeuronResetKernel os batchSize neuronGroups).1
       = rangeTests os ++ tests
     /\ map bounds tests = layout 0 (map (neuronResetThreads blockSize) neuronGroups)
     /\ map width tests = map (neuronResetThreads blockSize) neuronGroups
     /\ (genPreNeuronResetKernel os batchSize neuronGroups).2
        = N_sum (map (neuronResetThreads blockSize) neuronGroups)
     /\ forall id,
          id < (genPreNeuronResetKernel os batchSize neuronGroups).2 ->
          length (List.filter (holds id) tests) = 1%nat)
  /\ Forall (fun n =>
               if isPrevSpikeTimeRequired (getArchetype n)
                  || isPrevSpikeEventTimeRequired (getArchetype n)
               then (blockSize | neuronResetThreads blockSize n)
               else neuronResetThreads blockSize n = numMembers n) neuronGroups
  /\ (exists tests,
        rangeTests (genPreSynapseResetKernel os synapseGroups).1
          = rangeTests os ++ tests
        /\ map bounds tests = layout 0 (map numMembers synapseGroups)
        /\ map width tests = map numMembers synapseGroups
        /\ (genPreSynapseResetKernel os synapseGroups).2
           = N_sum (map numMembers synapseGroups)
        /\ forall id,
             id < (genPreSynapseResetKernel os synapseGroups).2 ->
             length (List.filter (holds id) tests) = 1%nat).
Proof.
  intros HB Hg Hn Hs. split; [|split].
  - destruct (fold_rangeTests (genPreNeuronResetGroup batchSize)
                neuronResetSize neuronGroups os 0
                (genPreNeuronResetGroup_tests batchSize)) as [H1 H2].
    assert (E : map neuronResetSize neuronGroups
                = map (neuronResetThreads blockSize) neuronGroups).
    { apply map_exact; [|done].
      eapply Forall_impl; [exact Hg|]. intros n Hgn Hlt.
      by apply neuronResetSize_exact. }
    rewrite E in H1, H2.
    destruct (rangeTestsFrom_exact 0
                (map (neuronResetThreads blockSize) neuronGroups)) as [H3 H4];
      [done|].
    unfold BackendSIMT.genPreNeuronResetKernel.
    eexists. split; [exact H1|]. split; [exact H3|].
    split; [by eapply map_width|]. rewrite H2, H4. split; [done|].
    by apply rangeTests_partition.
  - clear. induction neuronGroups as [|n l IH]; constructor; [|done].
    unfold neuronResetThreads. destruct (_ || _); [|done].
    apply N_sum_divide. apply Forall_map, Forall_forall. intros g _.
    apply roundUp_divide.
  - destruct (fold_rangeTests genPreSynapseResetGroup size synapseGroups os 0
                genPreSynapseResetGroup_tests) as [H1 H2].
    assert (E : map size synapseGroups = map numMembers synapseGroups).
    { apply map_exact; [|done]. apply Forall_forall. intros n _. apply size_exact. }
    rewrite E in H1, H2.
    destruct (rangeTestsFrom_exact 0 (map numMembers synapseGroups)) as [H3 H4];
      [done|].
    unfold BackendSIMT.genPreSynapseResetKernel.
    destruct (fold_left _ _ _) as [os' idStart]. simpl in *.
    exists (rangeTestsFrom 0 (map numMembers synapseGroups)).
    split; [by rewrite rangeTests_write|]. split; [exact H3|].
    split; [by eapply map_width|]. rewrite H2, H4. split; [done|].
    by apply rangeTests_partition.
Qed.

End Kernels.

(** C1, as stated, fails for the groups that are not padded: a merged group
    with one member takes one thread in the pre-synapse-reset kernel, and
    in the pre-neuron-reset kernel when it resets no previous spike times,
    which is no multiple of a block size of 32 threads. *)
Lemma reset_kernels_padding_counterexample :
  map width (rangeTests (preSynapseReset [merged 0 (synapses "Syn") []]).1) = [1]
  /\ map width (rangeTests (preNeuronReset [merged 0 (neurons 100 false) []]).1)
     = [1]
  /\ ~ (32 | 1).
Proof.
  split; [reflexivity|]. split; [reflexivity|].
  intros [k Hk]. lia.
Qed.

Lemma reset_kernels_thread_ranges_witness :
  (preNeuronReset
     [merged 0 (neurons 100 true) [neurons 250 true];
      merged 1 (neurons 10 false) [neurons 20 false]]).2 = 386
  /\ (preSynapseReset
        [merged 0 (synapses "A") []; merged 1 (synapses "B") [synapses "C"]]).2
     = 3.
Proof.
  destruct (reset_kernels_thread_ranges (fun _ => 32) "" (fun _ _ => "")
              (fun _ _ => "") (fun name => name) [] 1
              [merged 0 (neurons 100 true) [neurons 250 true];
               merged 1 (neurons 10 false) [neurons 20 false]]
              [merged 0 (synapses "A") []; merged 1 (synapses "B") [synapses "C"]])
    as ((tests & _ & _ & _ & Hn & _) & _ & (tests' & _ & _ & _ & Hs & _)).
  - reflexivity.
  - repeat constructor.
  - reflexivity.
  - reflexivity.
  - split; [exact Hn | exact Hs].
Defined.

End KernelFacts.

(** ** The scanner: lines, counts and lexemes *)
Module LexicalFacts.
Import Scanner Lexical ScannerFacts.

Ltac fields :=
  cbn [m_Start m_Current m_Line m_Source m_Context m_ErrorHandler].

Lemma frame_refl s : frame s s.
Proof. by split. Qed.

Lemma frame_trans s1 s2 s3 : frame s1 s2 -> frame s2 s3 -> frame s1 s3.
Proof. intros [? ?] [? ?]. split; congruence. Qed.

Lemma advance_get s c s' :
  advance s = Ok (c, s') -> String.get (m_Current s) (m_Source s) = Some c.
Proof.
  unfold advance, source_at; simpl. unfold mbind, Result_bind.
  replace (m_Current s + 1 - 1) with (m_Current s) by lia.
  destruct (String.get _ _) eqn:E; [|discriminate]. by intros [= <- _].
Qed.

Lemma advance_frame s c s' : advance s = Ok (c, s') -> frame s s'.
Proof. intros H. apply advance_Ok in H as [-> _]. done. Qed.

Lemma match_frame c s m s' : match_ c s = (m, s') -> frame s s'.
Proof.
  unfold match_. destruct (isAtEnd s); [by intros [= _ <-]|].
  destruct (negb _); by intros [= _ <-].
Qed.

Lemma advanceWhile_frame fuel cond s s' :
  advanceWhile fuel cond s = Ok s' -> frame s s'.
Proof.
  revert s; induction fuel as [|fuel IH]; intros s; simpl; [done|].
  destruct (cond s); [|by intros [= ->]].
  unfold mbind, Result_bind. destruct (advance s) as [[c s1]|e] eqn:E; [|done].
  intros H. apply IH in H. apply advance_frame in E. by eapply frame_trans.
Qed.

Lemma readSuffix_frame fuel suffix s suffix' s' :
  readSuffix fuel suffix s = Ok (suffix', s') -> frame s s'.
Proof.
  revert suffix s; induction fuel as [|fuel IH]; intros suffix s; simpl; [done|].
  destruct (isSuffixChar s); [|by intros [= _ ->]].
  unfold mbind, Result_bind. destruct (advance s) as [[c s1]|e] eqn:E; [|done].
  intros H. apply IH in H. apply advance_frame in E. by eapply frame_trans.
Qed.

Lemma scanIntegerSuffix_frame s t s' :
  scanIntegerSuffix s = Ok (t, s') -> frame s s'.
Proof.
  unfold scanIntegerSuffix, mbind, Result_bind.
  destruct (readSuffix _ _ _) as [[suffix s1]|e] eqn:E; [|done].
  destruct (at_ _ _); [|done]. intros [= _ <-]. by eapply readSuffix_frame.
Qed.

(** The exponent of a floating literal. *)
Lemma exponent_frame (me : bool) s4 s6 :
  (if me then
     s5 ← (if Ascii.eqb (peek s4) "-" || Ascii.eqb (peek s4) "+"
           then '(_, s') ← advance s4; Ok s'
           else Ok s4);
     advanceWhile (loopFuel s5) (fun s => isdigit (peek s)) s5
   else Ok s4) = Ok s6 ->
  frame s4 s6.
Proof.
  destruct me; [|by intros [= ->]].
  destruct (_ || _).
  - unfold mbind, Result_bind.
    destruct (advance s4) as [[c s']|e] eqn:E; [|done].
    intros H. apply advanceWhile_frame in H. apply advance_frame in E.
    by eapply frame_trans.
  - unfold mbind, Result_bind. apply advanceWhile_frame.
Qed.

Ltac emits_leaf :=
  repeat match goal with
         | H : context [if ?b then _ else _] |- _ => destruct b
         | H : frame _ _ |- _ => destruct H
         end;
  simpl in *; unfold emplaceToken, getLine in *;
  (split; [congruence|]);
  (split;
   [ first [ by left
           | match goal with
             | |- _ \/ (exists _ _, _ ++ [mkToken ?ty ?lx _] = _) =>
                 right; exists ty, lx; do 3 f_equal; congruence
             end ]
   | first [ left; congruence
           | match goal with
             | H : m_ErrorHandler _ = _ ++ [(_, ?msg)] |- _ =>
                 right; exists msg; congruence
             | |- _ \/ (exists _, _ ++ [(_, ?msg)] = _) =>
                 right; exists msg; congruence
             end ] ]).

Ltac emits_step :=
  match goal with
  | |- emits _ _ (Ok _) => emits_leaf
  | |- emits _ _ (Throw _) => exact I
  | |- emits _ _ (let '(_, _) := match_ ?c ?s in _) =>
      let E := fresh "E" in
      destruct (match_ c s) as [? ?] eqn:E; apply match_frame in E
  | |- emits _ _ (if ?b then _ else _) => destruct b
  | |- emits _ _ (match ?o with Some _ => _ | None => _ end) => destruct o
  | |- emits _ _ (advanceWhile ?f ?c ?s ≫= _) =>
      let E := fresh "E" in
      destruct (advanceWhile f c s) as [?|?] eqn:E;
      [apply advanceWhile_frame in E|];
      unfold mbind at 1, Result_bind at 1; cbv beta iota
  | |- emits _ _ (advance ?s ≫= _) =>
      let E := fresh "E" in
      destruct (advance s) as [[? ?]|?] eqn:E;
      [apply advance_frame in E|];
      unfold mbind at 1, Result_bind at 1; cbv beta iota
  | |- emits _ _ (scanIntegerSuffix ?s ≫= _) =>
      let E := fresh "E" in
      destruct (scanIntegerSuffix s) as [[? ?]|?] eqn:E;
      [apply scanIntegerSuffix_frame in E|];
      unfold mbind at 1, Result_bind at 1; cbv beta iota
  | |- emits _ _ (getScalarTokenType ?s ≫= _) =>
      destruct (getScalarTokenType s) as [?|?];
      unfold mbind at 1, Result_bind at 1; cbv beta iota
  | |- emits _ _ (?r ≫= _) =>
      let E := fresh "E" in
      destruct r as [?|?] eqn:E;
      [apply exponent_frame in E|];
      unfold mbind at 1, Result_bind at 1; cbv beta iota
  end.

Lemma scanString_emits s tokens : emits s tokens (scanString s tokens).
Proof. unfold scanString. repeat emits_step. Qed.

Lemma scanIdentifier_emits s tokens : emits s tokens (scanIdentifier s tokens).
Proof. unfold scanIdentifier. repeat emits_step. Qed.

Lemma emplaceEither_emits s tokens c a b :
  emits s tokens (emplaceEither s tokens c a b).
Proof. unfold emplaceEither. repeat emits_step. Qed.

Lemma emplaceCompound_emits s tokens e c d x :
  emits s tokens (emplaceCompound s tokens e c d x).
Proof. unfold emplaceCompound. repeat emits_step. Qed.

Lemma emplaceShift_emits s tokens e c d1 d2 x :
  emits s tokens (emplaceShift s tokens e c d1 d2 x).
Proof. unfold emplaceShift. repeat emits_step. Qed.

Lemma scanNumber_emits c s tokens : emits s tokens (scanNumber c s tokens).
Proof.
  unfold scanNumber.
  destruct (Ascii.eqb c "0") eqn:Hc.
  - destruct (match_ "x" s) as [mx sx] eqn:Ex. apply match_frame in Ex.
    destruct mx.
    + cbv beta iota. repeat emits_step.
    + destruct (match_ "X" sx) as [mX sX] eqn:EX. apply match_frame in EX.
      destruct mX; cbv beta iota; rewrite ?andb_true_l; repeat emits_step.
  - cbv beta iota. rewrite andb_false_l. repeat emits_step.
Qed.

(** What [scanToken] does to the line counter, the tokens and the log: a
    newline moves to the next line and adds nothing; every other call
    keeps the line and adds at most one token and one error, on that
    line. *)
Lemma scanToken_emits s tokens :
  match scanToken s tokens with
  | Ok (s', tokens') =>
      emits s tokens (Ok (s', tokens'))
      \/ (m_Line s' = m_Line s + 1 /\ tokens' = tokens
          /\ m_ErrorHandler s' = m_ErrorHandler s
          /\ m_Current s' = m_Current s + 1
          /\ String.get (m_Current s) (m_Source s) = Some "010"%char)
  | Throw _ => True
  end.
Proof.
  unfold scanToken.
  destruct (advance s) as [[c s1]|e] eqn:E; [|done].
  pose proof (advance_get _ _ _ E) as Hget.
  pose proof (advance_frame _ _ _ E) as Hf.
  apply advance_Ok in E as [Hs1 _].
  unfold mbind at 1; unfold Result_bind at 1; cbv beta iota.
  match goal with
  | |- match ?r with _ => _ end =>
      assert (Hr : emits s1 tokens r
                   \/ (r = Ok (nextLine s1, tokens) /\ c = "010"%char))
  end.
  { repeat match goal with
           | |- emits _ _ (if ?b then _ else _) \/ _ => destruct b eqn:?
           end;
    first [ right; split; [done|]; by apply Ascii.eqb_eq
          | left; first [ apply scanString_emits | apply scanIdentifier_emits
                        | apply emplaceEither_emits | apply emplaceCompound_emits
                        | apply emplaceShift_emits | apply scanNumber_emits
                        | repeat emits_step ] ]. }
  destruct Hr as [Hr | [-> ->]].
  - match goal with |- match ?r with _ => _ end => destruct r as [[s' tokens']|e] end;
      [|done].
    left. destruct Hf as [Hl Hlog]. simpl in *. by rewrite <- Hl, <- Hlog.
  - right. destruct Hf as [Hl Hlog]. subst s1. simpl. done.
Qed.


Lemma newlinesFrom_0 source : newlinesFrom 0 source = newlines source.
Proof. by destruct source. Qed.

Lemma newlinesFrom_S pos source :
  newlinesFrom (S pos) source <= newlinesFrom pos source.
Proof.
  revert pos; induction source as [|c rest IH]; intros pos; [by destruct pos|].
  destruct pos; simpl; [|apply IH].
  rewrite ?newlinesFrom_0. lia.
Qed.

Lemma newlinesFrom_le pos pos' source :
  pos <= pos' -> newlinesFrom pos' source <= newlinesFrom pos source.
Proof.
  induction 1 as [|pos' _ IH]; [done|].
  etrans; [apply newlinesFrom_S | done].
Qed.

Lemma newlinesFrom_newline pos source :
  String.get pos source = Some "010"%char ->
  newlinesFrom pos source = 1 + newlinesFrom (pos + 1) source.
Proof.
  revert pos; induction source as [|c rest IH]; intros pos; [by destruct pos|].
  destruct pos; simpl.
  - intros [= ->]. by rewrite ?newlinesFrom_0.
  - apply IH.
Qed.

Lemma nondecreasing_nil : nondecreasing [].
Proof. intros i j a b _ H. by rewrite lookup_nil in H. Qed.

Lemma nondecreasing_snoc lines x :
  nondecreasing lines -> Forall (fun a => a <= x) lines ->
  nondecreasing (lines ++ [x]).
Proof.
  intros Hs Hall i j a b Hij Hi Hj.
  apply lookup_snoc_Some in Hj as [[Hlt Hj] | [-> <-]].
  - rewrite lookup_app_l in Hi by lia. exact (Hs i j a b Hij Hi Hj).
  - apply lookup_snoc_Some in Hi as [[_ Hi] | [_ <-]]; [|done].
    rewrite Forall_forall in Hall. apply Hall.
    by eapply list_elem_of_lookup_2.
Qed.

Lemma linesInv_new source context :
  linesInv (newScanState source context []) [].
Proof.
  unfold linesInv. simpl. rewrite ?newlinesFrom_0.
  repeat split; try done; try lia; apply nondecreasing_nil.
Qed.

Lemma linesInv_resetLexeme s tokens :
  linesInv s tokens -> linesInv (resetLexeme s) tokens.
Proof. done. Qed.

Lemma Forall_line_snoc {A : Type} (f : A -> nat) (l : list A) (x : A) n :
  1 <= n -> f x = n ->
  Forall (fun a => 1 <= f a <= n) l ->
  Forall (fun a => 1 <= f a <= n) (l ++ [x]).
Proof. intros H1 Hx Hl. apply Forall_app. split; [done|]. constructor; [lia | done]. Qed.

Lemma nondecreasing_line_snoc {A : Type} (f : A -> nat) (l : list A) (x : A) n :
  f x = n ->
  Forall (fun a => 1 <= f a <= n) l -> nondecreasing (f <$> l) ->
  nondecreasing (f <$> (l ++ [x])).
Proof.
  intros Hx Hl Hs. rewrite fmap_app. simpl. apply nondecreasing_snoc; [done|].
  rewrite Forall_fmap. eapply Forall_impl; [exact Hl|]. simpl. lia.
Qed.

(** A call of [scanToken] keeps the invariant. *)
Lemma scanToken_linesInv s tokens s' tokens' :
  scanToken s tokens = Ok (s', tokens') ->
  linesInv s tokens -> linesInv s' tokens'.
Proof.
  intros Hscan (H1 & Hnl & Htok & Hsorted & Herr & Hesorted).
  pose proof (scanToken_progress s tokens) as Hp.
  pose proof (scanToken_emits s tokens) as He.
  rewrite Hscan in Hp, He. simpl in Hp.
  destruct Hp as [(Hsrc & _ & Hcur & _) _].
  unfold linesInv. rewrite Hsrc.
  destruct He as [(Hl & Htokens & Hlog) | (Hl & -> & Hlog & Hcur' & Hget)].
  - rewrite Hl. split; [done|]. split.
    { pose proof (newlinesFrom_le _ _ (m_Source s) Hcur). lia. }
    assert (Htok' : Forall (fun t => 1 <= line t <= m_Line s) tokens'
                    /\ nondecreasing (line <$> tokens')).
    { destruct Htokens as [-> | (ty & lx & ->)]; [done|].
      split; [by apply (Forall_line_snoc line)
             | by apply (nondecreasing_line_snoc line _ _ (m_Line s))]. }
    destruct Htok' as [? ?]. do 2 (split; [done|]).
    destruct Hlog as [-> | (msg & ->)]; [done|].
    split; [by apply (Forall_line_snoc fst)
           | by apply (nondecreasing_line_snoc fst _ _ (m_Line s))].
  - rewrite Hl, Hlog, Hcur'. split; [lia|]. split.
    { rewrite (newlinesFrom_newline _ _ Hget) in Hnl. lia. }
    split; [eapply Forall_impl; [exact Htok|]; simpl; lia|].
    split; [done|].
    split; [eapply Forall_impl; [exact Herr|]; simpl; lia | done].
Qed.

Lemma scanTokens_linesInv fuel s tokens s' tokens' :
  scanTokens fuel s tokens = Ok (s', tokens') ->
  linesInv s tokens -> linesInv s' tokens'.
Proof.
  revert s tokens; induction fuel as [|fuel IH]; intros s tokens; [done|].
  rewrite scanTokens_unfold. destruct (isAtEnd s); simpl.
  - by intros [= <- <-].
  - unfold mbind, Result_bind.
    destruct (scanToken (resetLexeme s) tokens) as [[s1 tokens1]|e] eqn:E; [|done].
    intros H Hinv. eapply IH; [exact H|].
    eapply scanToken_linesInv; [exact E|]. by apply linesInv_resetLexeme.
Qed.

(** The tokens and the position: a call of [scanToken] that returns adds
    at most one token and one error. *)
Lemma scanTokens_count fuel s tokens s' tokens' :
  scanTokens fuel s tokens = Ok (s', tokens') ->
  length tokens' <= length tokens + (String.length (m_Source s) - m_Current s)
  /\ length (m_ErrorHandler s')
     <= length (m_ErrorHandler s) + (String.length (m_Source s) - m_Current s).
Proof.
  revert s tokens; induction fuel as [|fuel IH]; intros s tokens; [done|].
  rewrite scanTokens_unfold. destruct (isAtEnd s) eqn:Hend; simpl.
  - intros [= <- <-]. lia.
  - unfold mbind, Result_bind.
    destruct (scanToken (resetLexeme s) tokens) as [[s1 tokens1]|e] eqn:E; [|done].
    intros H. apply IH in H as [Ht Hl].
    pose proof (scanToken_progress (resetLexeme s) tokens) as Hp.
    pose proof (scanToken_emits (resetLexeme s) tokens) as He.
    rewrite E in Hp, He. simpl in Hp.
    destruct Hp as [(Hsrc & _ & _ & _) Hcur]. simpl in Hsrc, Hcur.
    rewrite Hsrc in Ht, Hl.
    apply Nat.leb_gt in Hend.
    assert (length tokens1 <= length tokens + 1
            /\ length (m_ErrorHandler s1) <= length (m_ErrorHandler s) + 1)
      as [? ?].
    { destruct He as [(_ & Htokens & Hlog) | (_ & -> & Hlog & _)]; simpl in *.
      - split.
        + destruct Htokens as [-> | (ty & lx & ->)]; [lia|].
          rewrite length_app. simpl. lia.
        + destruct Hlog as [-> | (msg & ->)]; [lia|].
          rewrite length_app. simpl. lia.
      - rewrite Hlog. lia. }
    lia.
Qed.

Lemma advance_at start current line source context log c :
  String.get current source = Some c ->
  advance (mkScanState start current line source context log)
  = Ok (c, mkScanState start (current + 1) line source context log).
Proof.
  intros H. unfold advance, source_at, set_Current. fields.
  replace (current + 1 - 1) with current by lia. by rewrite H.
Qed.

(** What [scanToken] does at a blank character and at a character that
    starts no lexeme. *)
Lemma scanToken_skip start current line source context log c tokens :
  String.get current source = Some c ->
  isBlank c || startsNoLexeme c = true ->
  scanToken (mkScanState start current line source context log) tokens
  = Ok (mkScanState start (current + 1)
          (if Ascii.eqb c "010" then line + 1 else line) source context
          (if startsNoLexeme c then log ++ [(line, "Unexpected character.")]
           else log),
        tokens).
Proof.
  intros Hget Hc. unfold scanToken. rewrite (advance_at _ _ _ _ _ _ c Hget).
  unfold mbind at 1, Result_bind at 1. cbv beta iota.
  destruct c as [[] [] [] [] [] [] [] []];
    try (exfalso; vm_compute in Hc; discriminate Hc); reflexivity.
Qed.


Lemma snoc_append (pre : string) c (rest : string) :
  pre +:+ String c rest = (pre +:+ String c "") +:+ rest.
Proof. by rewrite append_assoc. Qed.

Lemma length_snoc (pre : string) c :
  String.length (pre +:+ String c "") = String.length pre + 1.
Proof. by rewrite length_append. Qed.

Lemma get_middle (pre : string) c (rest : string) :
  String.get (String.length pre) (pre +:+ String c rest) = Some c.
Proof.
  rewrite <- (Nat.add_0_r (String.length pre)). by rewrite get_append_r.
Qed.

Lemma all_cons p c rest :
  all p (String c rest) = true -> p c = true /\ all p rest = true.
Proof. unfold all. simpl. by intros ?%andb_true_iff. Qed.

(** The scan of a run of blank characters and of characters that start no
    lexeme, to the end of the source. *)
Lemma scanTokens_skip context (rest : string) :
  forall (pre : string) start line log tokens fuel,
  all (fun c => isBlank c || startsNoLexeme c) rest = true ->
  String.length rest < fuel ->
  scanTokens fuel
    (mkScanState start (String.length pre) line (pre +:+ rest) context log)
    tokens
  = Ok (mkScanState
          (match rest with
           | "" => start
           | _ => String.length (pre +:+ rest) - 1
           end)
          (String.length (pre +:+ rest)) (line + newlines rest)
          (pre +:+ rest) context (log ++ unexpected line rest),
        tokens).
Proof.
  induction rest as [|c rest IH]; intros pre start line log tokens fuel Hall Hfuel.
  - destruct fuel; [simpl in Hfuel; lia|]. rewrite scanTokens_unfold.
    unfold isAtEnd. fields.
    rewrite (proj2 (Nat.leb_le _ _)) by (rewrite length_append; simpl; lia).
    simpl. rewrite app_nil_r, Nat.add_0_r. do 3 f_equal.
    rewrite length_append. simpl. lia.
  - destruct fuel; [simpl in Hfuel; lia|]. rewrite scanTokens_unfold.
    apply all_cons in Hall as [Hc Hrest].
    unfold isAtEnd. fields.
    rewrite (proj2 (Nat.leb_gt _ _)) by (rewrite length_append; simpl; lia).
    change (negb false) with true. cbv iota.
    unfold resetLexeme. fields.
    rewrite (scanToken_skip _ _ _ _ _ _ c) by (by apply get_middle || done).
    unfold mbind, Result_bind.
    rewrite (snoc_append pre c rest), <- (length_snoc pre c).
    rewrite IH by (done || simpl in Hfuel; lia).
    f_equal. f_equal. f_equal.
    + destruct rest; [|done].
      rewrite length_append, length_snoc. simpl. lia.
    + simpl. destruct (Ascii.eqb c "010"); lia.
    + simpl. destruct (Ascii.eqb c "010") eqn:E.
      * apply Ascii.eqb_eq in E. subst c. done.
      * destruct (startsNoLexeme c); [by rewrite <- app_assoc | done].
Qed.


Lemma all_impl (p q : ascii -> bool) s :
  (forall c, p c = true -> q c = true) -> all p s = true -> all q s = true.
Proof.
  intros Hpq. unfold all. rewrite !forallb_forall. auto.
Qed.

Lemma unexpected_blank line s : all isBlank s = true -> unexpected line s = [].
Proof.
  revert line; induction s as [|c s IH]; intros line H; [done|].
  apply all_cons in H as [Hc Hs]. simpl.
  destruct (Ascii.eqb c "010"); [by apply IH|].
  replace (startsNoLexeme c) with false; [by apply IH|].
  destruct c as [[] [] [] [] [] [] [] []]; try reflexivity; discriminate Hc.
Qed.

Lemma unexpected_only line s :
  all startsNoLexeme s = true ->
  unexpected line s = replicate (String.length s) (line, "Unexpected character.")
  /\ newlines s = 0.
Proof.
  induction s as [|c s IH]; intros H; [done|].
  apply all_cons in H as [Hc Hs]. simpl.
  destruct (Ascii.eqb c "010") eqn:E.
  { apply Ascii.eqb_eq in E. subst c. discriminate Hc. }
  rewrite Hc. destruct (IH Hs) as [-> ->]. done.
Qed.

Lemma scanSource_skip source context errorHandler :
  all (fun c => isBlank c || startsNoLexeme c) source = true ->
  scanSource source context errorHandler =
    Ok ([mkToken END_OF_FILE
           (substring (String.length source - 1) 1 source)
           (1 + newlines source)],
        errorHandler ++ unexpected 1 source).
Proof.
  intros Hall. unfold scanSource, newScanState.
  pose proof (scanTokens_skip context source "" 0 1 errorHandler []
                (loopFuel (mkScanState 0 0 1 source context errorHandler))
                Hall) as H.
  rewrite !append_nil in H. simpl String.length in H.
  rewrite H by (clear; unfold loopFuel; simpl; lia).
  unfold mbind, Result_bind, emplaceToken, getLexeme, getLine. fields.
  rewrite app_nil_l. do 3 f_equal.
  destruct source as [|c rest]; [done|].
  f_equal. f_equal. cbn [String.length]. lia.
Qed.

(** Blank source: a source of spaces, tabs, carriage returns and newlines
    gives the END_OF_FILE token alone, on the line after the last newline,
    and reports nothing.  (The lexeme of END_OF_FILE is the last character
    scanned.) *)
Theorem scanSource_blank (source : string) (context : TypeContext)
  (errorHandler : ErrorLog) :
  all isBlank source = true ->
  scanSource source context errorHandler =
    Ok ([mkToken END_OF_FILE
           (substring (String.length source - 1) 1 source)
           (1 + newlines source)],
        errorHandler).
Proof.
  intros Hall. rewrite scanSource_skip.
  - by rewrite unexpected_blank, app_nil_r.
  - eapply all_impl; [|exact Hall]. intros c ->. done.
Qed.

Lemma scanSource_blank_witness :
  all isBlank (String " " (String "010" (String "009" (String "010" ""))))
  = true
  /\ scanSource (String " " (String "010" (String "009" (String "010" ""))))
       ∅ []
     = Ok ([mkToken END_OF_FILE (String "010" "") 3], []).
Proof.
  split; [reflexivity|].
  exact (scanSource_blank
           (String " " (String "010" (String "009" (String "010" "")))) ∅ []
           eq_refl).
Defined.

(** Characters that start no lexeme: every control character other than
    tab, newline and carriage return, each of [# $ ' @ \ `], DEL and every
    byte above 127 is reported as one error, with the line it is on, and
    gives no token; the scan goes on after it. *)
Theorem scanSource_unexpected (source : string) (context : TypeContext)
  (errorHandler : ErrorLog) :
  (all (fun c => isBlank c || startsNoLexeme c) source = true ->
   scanSource source context errorHandler =
     Ok ([mkToken END_OF_FILE
            (substring (String.length source - 1) 1 source)
            (1 + newlines source)],
         errorHandler ++ unexpected 1 source))
  /\ (all startsNoLexeme source = true ->
      scanSource source context errorHandler =
        Ok ([mkToken END_OF_FILE
               (substring (String.length source - 1) 1 source) 1],
            errorHandler
            ++ replicate (String.length source) (1, "Unexpected character."))).
Proof.
  split; [apply scanSource_skip|].
  intros Hall. rewrite scanSource_skip.
  - by destruct (unexpected_only 1 source Hall) as [-> ->].
  - eapply all_impl; [|exact Hall]. intros c ->. apply orb_true_r.
Qed.

Lemma scanSource_unexpected_witness :
  scanSource (String "#" (String "010" (String "@" ""))) ∅ []
  = Ok ([mkToken END_OF_FILE "@" 2],
        [(1, "Unexpected character."); (2, "Unexpected character.")])
  /\ scanSource "$$" ∅ []
     = Ok ([mkToken END_OF_FILE "$" 1],
           [(1, "Unexpected character."); (1, "Unexpected character.")]).
Proof.
  split.
  - exact (proj1 (scanSource_unexpected
                    (String "#" (String "010" (String "@" ""))) ∅ [])
             eq_refl).
  - exact (proj2 (scanSource_unexpected "$$" ∅ []) eq_refl).
Defined.

(** The scan of a source that is one lexeme. *)
Lemma scanSource_single source context errorHandler s' tokens' :
  source <> "" ->
  scanToken (newScanState source context errorHandler) [] = Ok (s', tokens') ->
  isAtEnd s' = true ->
  scanSource source context errorHandler
  = Ok (tokens' ++ [mkToken END_OF_FILE (getLexeme s') (m_Line s')],
        m_ErrorHandler s').
Proof.
  intros Hne Hscan Hend. unfold scanSource.
  assert (Hfuel : loopFuel (newScanState source context errorHandler)
                  = S (S (String.length source - 1))).
  { unfold loopFuel. simpl. destruct source; [done|]. simpl. lia. }
  rewrite Hfuel, scanTokens_unfold.
  assert (Hstart : isAtEnd (newScanState source context errorHandler) = false).
  { unfold isAtEnd. simpl. destruct source; [done|]. done. }
  rewrite Hstart. change (negb false) with true. cbv iota.
  change (resetLexeme (newScanState source context errorHandler))
    with (newScanState source context errorHandler).
  rewrite Hscan. unfold mbind at 2, Result_bind at 2. cbv beta iota.
  rewrite scanTokens_unfold, Hend. done.
Qed.

Lemma scanSource_single_throws source context errorHandler e :
  source <> "" ->
  scanToken (newScanState source context errorHandler) [] = Throw e ->
  scanSource source context errorHandler = Throw e.
Proof.
  intros Hne Hscan. unfold scanSource.
  assert (Hfuel : loopFuel (newScanState source context errorHandler)
                  = S (String.length source)).
  { unfold loopFuel. simpl. lia. }
  rewrite Hfuel, scanTokens_unfold.
  assert (Hstart : isAtEnd (newScanState source context errorHandler) = false).
  { unfold isAtEnd. simpl. destruct source; [done|]. done. }
  rewrite Hstart. change (negb false) with true. cbv iota.
  change (resetLexeme (newScanState source context errorHandler))
    with (newScanState source context errorHandler).
  by rewrite Hscan.
Qed.

Lemma all_get p (s : string) n :
  all p s = true -> n < String.length s ->
  exists c, String.get n s = Some c /\ p c = true.
Proof.
  unfold all. revert n; induction s as [|c s IH]; intros n H Hn; simpl in *; [lia|].
  apply andb_true_iff in H as [Hc Hs].
  destruct n; [by exists c|]. apply IH; [done | lia].
Qed.

(** A run of [k] characters that satisfy [pc], up to a character that
    does not. *)
Lemma advanceWhile_stop (pc : ascii -> bool) fuel s k c :
  (forall j, j < k ->
     exists c, String.get (m_Current s + j) (m_Source s) = Some c /\ pc c = true) ->
  String.get (m_Current s + k) (m_Source s) = Some c -> pc c = false ->
  k < fuel ->
  advanceWhile fuel (fun s => pc (peek s)) s = Ok (set_Current s (m_Current s + k)).
Proof.
  revert s fuel; induction k as [|k IH]; intros s fuel Hrun Hstop Hpc Hfuel.
  - destruct fuel; [lia|]. simpl. rewrite Nat.add_0_r in Hstop.
    rewrite (peek_get _ _ Hstop), Hpc. f_equal. destruct s; simpl.
    by rewrite Nat.add_0_r.
  - destruct fuel; [lia|]. simpl.
    destruct (Hrun 0) as (c0 & Hc0 & Hpc0); [lia|]. rewrite Nat.add_0_r in Hc0.
    rewrite (peek_get _ _ Hc0), Hpc0.
    unfold advance, source_at. simpl.
    replace (m_Current s + 1 - 1) with (m_Current s) by lia.
    rewrite Hc0. simpl.
    rewrite IH; simpl.
    + f_equal. f_equal. lia.
    + intros j Hj. replace (m_Current s + 1 + j) with (m_Current s + S j) by lia.
      apply Hrun. lia.
    + replace (m_Current s + 1 + k) with (m_Current s + S k) by lia. done.
    + done.
    + lia.
Qed.

(** A loop whose condition holds of every character left, and at the end
    of the source, leaves by the exception of [advance]. *)
Lemma advanceWhile_overrun (pc : ascii -> bool) fuel s :
  pc "000"%char = true ->
  (forall j c, String.get (m_Current s + j) (m_Source s) = Some c -> pc c = true) ->
  String.length (m_Source s) - m_Current s < fuel ->
  advanceWhile fuel (fun s => pc (peek s)) s = Throw out_of_range.
Proof.
  intros H0. revert s; induction fuel as [|fuel IH]; intros s Hrun Hfuel; [lia|].
  simpl.
  destruct (String.get (m_Current s) (m_Source s)) as [c|] eqn:Hget.
  - rewrite (peek_get _ _ Hget), (Hrun 0 c) by (by rewrite Nat.add_0_r).
    unfold advance, source_at. simpl.
    replace (m_Current s + 1 - 1) with (m_Current s) by lia.
    rewrite Hget. simpl. apply IH; simpl.
    + intros j c' Hj. apply (Hrun (1 + j) c').
      by replace (m_Current s + (1 + j)) with (m_Current s + 1 + j) by lia.
    + apply get_Some_lt in Hget. lia.
  - assert (Hend : String.length (m_Source s) <= m_Current s).
    { destruct (Nat.leb_spec (String.length (m_Source s)) (m_Current s)); [done|].
      destruct (get_lt (m_Source s) (m_Current s)) as [c Hc]; [done|]. congruence. }
    rewrite (peek_end _ Hend), H0.
    unfold advance, source_at. simpl.
    replace (m_Current s + 1 - 1) with (m_Current s) by lia.
    by rewrite Hget.
Qed.


Lemma scanToken_quote s s1 tokens :
  advance s = Ok ("034"%char, s1) -> scanToken s tokens = scanString s1 tokens.
Proof. intros H. unfold scanToken. by rewrite H. Qed.

Lemma scanString_closed (body : string) context errorHandler tokens :
  all notQuote body = true ->
  let source := String "034" (body +:+ String "034" "") in
  scanString (mkScanState 0 1 1 source context errorHandler) tokens
  = Ok (mkScanState 0 (String.length source) 1 source context errorHandler,
        tokens ++ [mkToken STRING source 1]).
Proof.
  intros Hall source. unfold scanString.
  change (fun s => negb (Ascii.eqb (peek s) "034"))
    with (fun s => notQuote (peek s)).
  assert (Hlen : String.length source = String.length body + 2).
  { unfold source. simpl. rewrite length_append. simpl. lia. }
  rewrite (advanceWhile_stop notQuote _ _ (String.length body) "034"); fields.
  - unfold mbind, Result_bind, set_Current. fields.
    rewrite match_true; fields.
    + unfold set_Current, emplaceToken, getLexeme, getLine. fields.
      replace (1 + String.length body + 1) with (String.length source) by lia.
      by rewrite Nat.sub_0_r, substring_all.
    + unfold source. simpl. by rewrite get_middle.
  - intros j Hj. unfold source. simpl. rewrite get_append_l by done.
    by apply all_get.
  - unfold source. simpl. by rewrite get_middle.
  - done.
  - unfold loopFuel. fields. lia.
Qed.

Lemma scanString_open (body : string) context errorHandler tokens :
  all notQuote body = true ->
  scanString (mkScanState 0 1 1 (String "034" body) context errorHandler) tokens
  = Throw out_of_range.
Proof.
  intros Hall. unfold scanString.
  change (fun s => negb (Ascii.eqb (peek s) "034"))
    with (fun s => notQuote (peek s)).
  rewrite advanceWhile_overrun; [done|done| |unfold loopFuel; fields; lia].
  fields. intros j c. simpl. intros Hget.
  destruct (all_get notQuote body j Hall) as (c' & Hc' & Hp).
  - by eapply get_Some_lt.
  - congruence.
Qed.

(** String literals.  A double quote, characters other than the double
    quote and a closing double quote are one STRING token whose lexeme
    keeps the quotes; newlines inside the literal are not counted.  When
    the closing quote is missing the scan throws std::out_of_range: it
    reads past the end of the source, and reports no error. *)
Theorem scanSource_string (body : string) (context : TypeContext)
  (errorHandler : ErrorLog) :
  all notQuote body = true ->
  (let source := String "034" (body +:+ String "034" "") in
   scanSource source context errorHandler =
     Ok ([mkToken STRING source 1; mkToken END_OF_FILE source 1], errorHandler))
  /\ scanSource (String "034" body) context errorHandler = Throw out_of_range.
Proof.
  intros Hall. split.
  - intros source.
    rewrite (scanSource_single source context errorHandler
               (mkScanState 0 (String.length source) 1 source context errorHandler)
               [mkToken STRING source 1]).
    + unfold getLexeme. fields. by rewrite Nat.sub_0_r, substring_all.
    + done.
    + rewrite (scanToken_quote _ (mkScanState 0 1 1 source context errorHandler)).
      * by apply scanString_closed.
      * by apply advance_at.
    + unfold isAtEnd. fields. by apply Nat.leb_le.
  - apply scanSource_single_throws; [done|].
    rewrite (scanToken_quote _
               (mkScanState 0 1 1 (String "034" body) context errorHandler)).
    + by apply scanString_open.
    + by apply advance_at.
Qed.

Lemma scanSource_string_witness :
  scanSource (String "034" (String "a" (String "010" (String "034" "")))) ∅ []
  = Ok ([mkToken STRING
           (String "034" (String "a" (String "010" (String "034" "")))) 1;
         mkToken END_OF_FILE
           (String "034" (String "a" (String "010" (String "034" "")))) 1], [])
  /\ scanSource (String "034" (String "a" (String "010" ""))) ∅ []
     = Throw out_of_range.
Proof.
  exact (scanSource_string (String "a" (String "010" "")) ∅ [] eq_refl).
Defined.


Lemma scanToken_word s c s1 tokens :
  advance s = Ok (c, s1) -> isIdentifierStart c = true ->
  scanToken s tokens = scanIdentifier s1 tokens.
Proof.
  intros H Hc. unfold scanToken. rewrite H. clear H.
  unfold mbind at 1, Result_bind at 1. cbv beta iota.
  destruct c as [[] [] [] [] [] [] [] []];
    try (exfalso; vm_compute in Hc; discriminate Hc); reflexivity.
Qed.

Lemma scanIdentifier_word c (rest : string) context errorHandler tokens :
  all isIdentifierChar rest = true ->
  let word := String c rest in
  scanIdentifier (mkScanState 0 1 1 word context errorHandler) tokens
  = Ok (mkScanState 0 (String.length word) 1 word context errorHandler,
        tokens ++ [mkToken (wordType word context) word 1]).
Proof.
  intros Hall word. unfold scanIdentifier.
  change (fun s => isalnum (peek s) || Ascii.eqb (peek s) "_")
    with (fun s => isIdentifierChar (peek s)).
  rewrite (advanceWhile_run isIdentifierChar _ _ (String.length rest)); fields.
  - unfold mbind, Result_bind, set_Current. fields.
    assert (Hlex : getLexeme (mkScanState 0 (1 + String.length rest) 1 word
                                context errorHandler) = word).
    { unfold getLexeme. fields. rewrite Nat.sub_0_r.
      change (1 + String.length rest) with (String.length word).
      apply substring_all. }
    rewrite Hlex. unfold wordType, isTypedefIdentifier, emplaceToken, getLine.
    rewrite Hlex. fields.
    destruct (keywords !! word); [done|].
    by destruct (bool_decide _).
  - done.
  - intros j Hj. simpl. by apply all_get.
  - left. simpl. lia.
  - unfold loopFuel. fields. simpl. lia.
Qed.

(** Words.  A letter or underscore followed by letters, digits and
    underscores is one token: the keyword's token when the word is a
    keyword, else TYPE_SPECIFIER when the type context binds the word,
    else IDENTIFIER.  A keyword is never taken for a type name of the
    context or for an identifier. *)
Theorem scanSource_word (c : ascii) (rest : string) (context : TypeContext)
  (errorHandler : ErrorLog) :
  isIdentifierStart c = true -> all isIdentifierChar rest = true ->
  let word := String c rest in
  scanSource word context errorHandler =
    Ok ([mkToken
           (match keywords !! word with
            | Some keyword => keyword
            | None =>
                match context !! word with
                | Some _ => TYPE_SPECIFIER
                | None => IDENTIFIER
                end
            end) word 1;
         mkToken END_OF_FILE word 1], errorHandler).
Proof.
  intros Hc Hall word.
  rewrite (scanSource_single word context errorHandler
             (mkScanState 0 (String.length word) 1 word context errorHandler)
             [mkToken (wordType word context) word 1]).
  - unfold getLexeme. fields. rewrite Nat.sub_0_r, substring_all.
    unfold wordType. destruct (keywords !! word); [done|].
    by destruct (context !! word).
  - done.
  - rewrite (scanToken_word _ c (mkScanState 0 1 1 word context errorHandler));
      [by apply scanIdentifier_word | by apply advance_at | done].
  - unfold isAtEnd. fields. by apply Nat.leb_le.
Qed.

Lemma scanSource_word_witness :
  scanSource "while" {["while" := NumericType Numeric.Float]} []
  = Ok ([mkToken WHILE "while" 1; mkToken END_OF_FILE "while" 1], [])
  /\ scanSource "scalar" {["scalar" := NumericType Numeric.Float]} []
     = Ok ([mkToken TYPE_SPECIFIER "scalar" 1;
            mkToken END_OF_FILE "scalar" 1], [])
  /\ scanSource "_x1" {["scalar" := NumericType Numeric.Float]} []
     = Ok ([mkToken IDENTIFIER "_x1" 1; mkToken END_OF_FILE "_x1" 1], []).
Proof.
  split; [|split].
  - exact (scanSource_word "w" "hile" {["while" := NumericType Numeric.Float]} []
             eq_refl eq_refl).
  - exact (scanSource_word "s" "calar" {["scalar" := NumericType Numeric.Float]} []
             eq_refl eq_refl).
  - exact (scanSource_word "_" "x1" {["scalar" := NumericType Numeric.Float]} []
             eq_refl eq_refl).
Defined.


Lemma append_nil_r (s : string) : s +:+ "" = s.
Proof. induction s as [|c s IH]; [done|]. by rewrite append_cons, IH. Qed.

Lemma scanToken_slash s s1 tokens :
  advance s = Ok ("/"%char, s1) ->
  scanToken s tokens =
    let '(m, s2) := match_ "/" s1 in
    if m then
      s3 ← advanceWhile (loopFuel s2)
             (fun s => negb (Ascii.eqb (peek s) "010") && negb (isAtEnd s)) s2;
      Ok (s3, tokens)
    else Ok (s2, emplaceToken tokens SLASH s2).
Proof. intros H. unfold scanToken. by rewrite H. Qed.

(** The loop of a line comment: to the next newline, or to the end of the
    source. *)
Lemma advanceWhile_comment fuel s k :
  (forall j, j < k ->
     exists c, String.get (m_Current s + j) (m_Source s) = Some c
               /\ notNewline c = true) ->
  (String.length (m_Source s) <= m_Current s + k
   \/ String.get (m_Current s + k) (m_Source s) = Some "010"%char) ->
  k < fuel ->
  advanceWhile fuel
    (fun s => negb (Ascii.eqb (peek s) "010") && negb (isAtEnd s)) s
  = Ok (set_Current s (m_Current s + k)).
Proof.
  revert s fuel; induction k as [|k IH]; intros s fuel Hrun Hstop Hfuel.
  - destruct fuel; [lia|]. simpl. rewrite Nat.add_0_r in Hstop.
    replace (negb (Ascii.eqb (peek s) "010") && negb (isAtEnd s)) with false.
    + f_equal. destruct s; simpl. by rewrite Nat.add_0_r.
    + destruct Hstop as [Hend | Hnl].
      * unfold isAtEnd. apply Nat.leb_le in Hend. rewrite Hend.
        by rewrite andb_false_r.
      * by rewrite (peek_get _ _ Hnl).
  - destruct fuel; [lia|]. simpl.
    destruct (Hrun 0) as (c0 & Hc0 & Hpc0); [lia|]. rewrite Nat.add_0_r in Hc0.
    rewrite (peek_get _ _ Hc0). unfold notNewline in Hpc0. rewrite Hpc0.
    unfold isAtEnd at 1.
    rewrite (proj2 (Nat.leb_gt _ _)) by (by eapply get_Some_lt).
    cbn [negb andb].
    unfold advance, source_at. simpl.
    replace (m_Current s + 1 - 1) with (m_Current s) by lia.
    rewrite Hc0. simpl.
    rewrite IH; simpl.
    + f_equal. f_equal. lia.
    + intros j Hj. replace (m_Current s + 1 + j) with (m_Current s + S j) by lia.
      apply Hrun. lia.
    + replace (m_Current s + 1 + k) with (m_Current s + S k) by lia. done.
    + lia.
Qed.

Lemma scanToken_comment (body tail : string) context errorHandler tokens :
  all notNewline body = true ->
  tail = "" \/ String.get 0 tail = Some "010"%char ->
  let source := String "/" (String "/" (body +:+ tail)) in
  scanToken (mkScanState 0 0 1 source context errorHandler) tokens
  = Ok (mkScanState 0 (2 + String.length body) 1 source context errorHandler,
        tokens).
Proof.
  intros Hall Htail source.
  rewrite (scanToken_slash _ (mkScanState 0 1 1 source context errorHandler))
    by by apply advance_at.
  rewrite match_true by done. unfold set_Current. fields.
  rewrite (advanceWhile_comment _ _ (String.length body)); fields.
  - done.
  - intros j Hj. simpl. rewrite get_append_l by done. by apply all_get.
  - simpl. destruct Htail as [-> | Hnl].
    + left. rewrite length_append. simpl. lia.
    + right. rewrite <- (Nat.add_0_r (String.length body)).
      by rewrite get_append_r.
  - unfold loopFuel. fields. simpl. rewrite length_append. lia.
Qed.

(** Line comments.  Two slashes and the characters up to the next newline
    give no token and no error: a comment that ends the source leaves the
    END_OF_FILE token alone, on line 1; after a comment that a newline
    ends the scan goes on with that newline, which is counted. *)
Theorem scanSource_line_comment (body blanks : string) (context : TypeContext)
  (errorHandler : ErrorLog) :
  all notNewline body = true ->
  (let source := String "/" (String "/" body) in
   scanSource source context errorHandler =
     Ok ([mkToken END_OF_FILE source 1], errorHandler))
  /\ (all isBlank blanks = true ->
      let source := String "/" (String "/" (body +:+ String "010" blanks)) in
      scanSource source context errorHandler =
        Ok ([mkToken END_OF_FILE
               (substring (String.length source - 1) 1 source)
               (2 + newlines blanks)],
            errorHandler)).
Proof.
  intros Hall. split.
  - intros source.
    rewrite (scanSource_single source context errorHandler
               (mkScanState 0 (String.length source) 1 source context errorHandler)
               []).
    + unfold getLexeme. fields. by rewrite Nat.sub_0_r, substring_all.
    + done.
    + pose proof (scanToken_comment body "" context errorHandler [] Hall
                    (or_introl eq_refl)) as H.
      cbv zeta in H. rewrite append_nil_r in H. exact H.
    + unfold isAtEnd. fields. by apply Nat.leb_le.
  - intros Hblanks source. unfold scanSource, newScanState.
    set (tail := String "010" blanks).
    assert (Hfuel : loopFuel (mkScanState 0 0 1 source context errorHandler)
                    = S (String.length source)).
    { unfold loopFuel. fields. lia. }
    rewrite Hfuel, scanTokens_unfold.
    change (isAtEnd (mkScanState 0 0 1 source context errorHandler)) with false.
    change (negb false) with true. cbv iota.
    change (resetLexeme (mkScanState 0 0 1 source context errorHandler))
      with (mkScanState 0 0 1 source context errorHandler).
    pose proof (scanToken_comment body tail context errorHandler [] Hall
                  (or_intror eq_refl)) as H.
    cbv zeta in H.
    change (String "/" (String "/" (body +:+ tail))) with source in H.
    rewrite H. clear H.
    unfold mbind at 2, Result_bind at 2. cbv beta iota.
    pose proof (scanTokens_skip context tail (String "/" (String "/" body))
                  0 1 errorHandler [] (String.length source)) as H.
    change (String "/" (String "/" body) +:+ tail) with source in H.
    change (String.length (String "/" (String "/" body)))
      with (2 + String.length body) in H.
    rewrite H; clear H.
    + unfold mbind, Result_bind, emplaceToken, getLexeme, getLine. fields.
      rewrite unexpected_blank, app_nil_r by done.
      rewrite app_nil_l. do 3 f_equal. unfold tail. cbv iota.
      f_equal. f_equal.
      assert (1 <= String.length source); [|lia].
      unfold source. simpl. lia.
    + eapply all_impl; [|exact (Hblanks : all isBlank tail = true)].
      intros c ->. done.
    + unfold source, tail. simpl. rewrite length_append. simpl. lia.
Qed.


Lemma scanSource_line_comment_witness :
  scanSource "// a b" ∅ [] = Ok ([mkToken END_OF_FILE "// a b" 1], [])
  /\ scanSource (String "/" (String "/" (String "x" (String "010" " ")))) ∅ []
     = Ok ([mkToken END_OF_FILE " " 2], []).
Proof.
  split.
  - exact (proj1 (scanSource_line_comment " a b" "" ∅ [] eq_refl)).
  - exact (proj2 (scanSource_line_comment "x" " " ∅ [] eq_refl) eq_refl).
Defined.

Lemma substring_suffix (pre rest : string) :
  substring (String.length pre) (String.length rest) (pre +:+ rest) = rest.
Proof.
  induction pre as [|c pre IH]; [apply substring_all|].
  rewrite append_cons. simpl. apply IH.
Qed.

Section IntegerLiteral.

Variables (pre : string) (d : ascii) (digits sfx : string).
Hypothesis Hd : isdigit d = true.
Hypothesis Hdigits : isDigits digits = true.
Hypothesis Hlead : d <> "0"%char \/ digits = "".
Hypothesis Hsfx : sfx = "" \/ sfx = "u" \/ sfx = "U".

Variables (context : TypeContext) (log : ErrorLog) (line : nat).

Let literal : string := String d (digits +:+ sfx).
Let source : string := pre +:+ literal.
Let P : nat := String.length pre.
Let n : nat := P + 1 + String.length digits.
Let at_ (current : nat) : ScanState :=
  mkScanState P current line source context log.

Ltac fields' := unfold at_; fields.

Let length_source : String.length source = n + String.length sfx.
Proof.
  unfold source, literal, n, P. rewrite length_append. simpl.
  rewrite length_append. lia.
Qed.

Let get_first : String.get P source = Some d.
Proof. apply get_middle. Qed.

Let get_digits j :
  j < String.length digits ->
  exists c, String.get (P + 1 + j) source = Some c /\ isdigit c = true.
Proof.
  intros Hj. unfold source, literal, P.
  replace (String.length pre + 1 + j) with (String.length pre + S j) by lia.
  rewrite get_append_r. simpl. rewrite get_append_l by done.
  by apply isDigits_get.
Qed.

Let get_sfx j : String.get (n + j) source = String.get j sfx.
Proof.
  unfold source, literal, n, P.
  replace (String.length pre + 1 + String.length digits + j)
    with (String.length pre + S (String.length digits + j)) by lia.
  rewrite get_append_r. simpl. by rewrite get_append_r.
Qed.

Let get_n : String.get n source = String.get 0 sfx.
Proof. rewrite <- (Nat.add_0_r n). apply get_sfx. Qed.

(** The character after the digits is not one of [others]. *)
Let after_digits c :
  String.get n source = Some c -> c = "u"%char \/ c = "U"%char.
Proof.
  rewrite get_n. destruct Hsfx as [-> | [-> | ->]]; simpl; [done| |];
    intros [= <-]; auto.
Qed.

Let match_after e :
  e <> "u"%char -> e <> "U"%char -> match_ e (at_ n) = (false, at_ n).
Proof.
  intros Hu HU. apply match_false. fields'. intros c Hc.
  apply after_digits in Hc as [-> | ->]; congruence.
Qed.

Let get_cases : (exists c, String.get n source = Some c)
                \/ String.get n source = None.
Proof. destruct (String.get n source); eauto. Qed.

Let peek_after : peek (at_ n) = "000"%char \/ peek (at_ n) = "u"%char
                 \/ peek (at_ n) = "U"%char.
Proof.
  destruct get_cases as [[c E] | E].
  - rewrite (peek_get (at_ n) c) by done. apply after_digits in E. tauto.
  - left. apply peek_end. fields'.
    destruct (Nat.leb_spec (String.length source) n); [done|].
    destruct (get_lt source n) as [c Hc]; [done|]. congruence.
Qed.

Let no_prefix :
  (if Ascii.eqb d "0" then
     let '(mx, sx) := match_ "x" (at_ (P + 1)) in
     if mx then (true, sx) else match_ "X" sx
   else (false, at_ (P + 1))) = (false, at_ (P + 1)).
Proof.
  destruct Hlead as [Hne | Hnil].
  - apply Ascii.eqb_neq in Hne. by rewrite Hne.
  - destruct (Ascii.eqb d "0"); [|done].
    assert (Hn : P + 1 = n) by (unfold n; rewrite Hnil; simpl; lia).
    rewrite Hn, !match_after by done. done.
Qed.

Let not_octal : Ascii.eqb d "0" && isodigit (peek (at_ (P + 1))) = false.
Proof.
  destruct Hlead as [Hne | Hnil].
  - apply Ascii.eqb_neq in Hne. by rewrite Hne.
  - assert (Hn : P + 1 = n) by (unfold n; rewrite Hnil; simpl; lia).
    rewrite Hn. destruct peek_after as [-> | [-> | ->]]; by rewrite andb_false_r.
Qed.

Let fuel_enough current k :
  current + k < String.length source + 1 -> k < loopFuel (at_ current).
Proof. unfold loopFuel. fields'. lia. Qed.

Let digits_run :
  advanceWhile (loopFuel (at_ (P + 1))) (fun s => isdigit (peek s)) (at_ (P + 1))
  = Ok (at_ n).
Proof.
  rewrite (advanceWhile_run isdigit _ _ (String.length digits)); [done|done| | |].
  - intros j Hj. by apply get_digits.
  - fields'. fold n. destruct get_cases as [[c E] | E].
    + right. exists c. split; [done|]. by apply after_digits in E as [-> | ->].
    + left. destruct (Nat.leb_spec (String.length source) n); [done|].
      destruct (get_lt source n) as [c Hc]; [done|]. congruence.
  - apply fuel_enough. rewrite length_source. unfold n. lia.
Qed.

Let no_digits :
  advanceWhile (loopFuel (at_ n)) (fun s => isdigit (peek s)) (at_ n)
  = Ok (at_ n).
Proof.
  unfold loopFuel. cbn [advanceWhile].
  by destruct peek_after as [-> | [-> | ->]].
Qed.

Let lexeme_literal : getLexeme (at_ (String.length source)) = literal.
Proof.
  unfold getLexeme. fields'.
  replace (String.length source - P) with (String.length literal)
    by (unfold source, P; rewrite length_append; lia).
  apply substring_suffix.
Qed.

Let suffix :
  scanIntegerSuffix (at_ n) = Ok (integerType sfx, at_ (String.length source)).
Proof.
  unfold scanIntegerSuffix.
  assert (Hread : readSuffix (loopFuel (at_ n)) ∅ (at_ n)
                  = Ok (match sfx with "" => ∅ | _ => {["U"%char]} end,
                        at_ (String.length source))).
  { pose proof get_n as Hget. pose proof length_source as Hlen.
    unfold loopFuel. fields'. rewrite Hlen.
    replace (n + String.length sfx - n) with (String.length sfx) by lia.
    destruct Hsfx as [E | [E | E]]; rewrite E in *; simpl in Hget, Hlen |- *.
    - unfold isSuffixChar. rewrite peek_end by (fields'; lia).
      cbn. do 3 f_equal. lia.
    - unfold isSuffixChar at 1. rewrite (peek_get _ "u") by done.
      cbn [toupper between]. simpl (Ascii.eqb _ _ || _).
      cbv iota. rewrite (advance_at _ _ _ _ _ _ "u") by done.
      unfold mbind, Result_bind.
      unfold isSuffixChar. rewrite peek_end by (fields; lia).
      change ((toupper "000" =? "U")%char || (toupper "000" =? "L")%char)
        with false. cbv iota.
      change (toupper "u") with "U"%char.
      by rewrite (right_id_L ∅ (∪)).
    - unfold isSuffixChar at 1. rewrite (peek_get _ "U") by done.
      cbn [toupper between]. simpl (Ascii.eqb _ _ || _).
      cbv iota. rewrite (advance_at _ _ _ _ _ _ "U") by done.
      unfold mbind, Result_bind.
      unfold isSuffixChar. rewrite peek_end by (fields; lia).
      change ((toupper "000" =? "U")%char || (toupper "000" =? "L")%char)
        with false. cbv iota.
      change (toupper "U") with "U"%char.
      by rewrite (right_id_L ∅ (∪)). }
  rewrite Hread. unfold mbind, Result_bind.
  by destruct Hsfx as [-> | [-> | ->]].
Qed.

(** The scan of an integer literal that starts at the current position
    and ends the source. *)
Lemma scanToken_integer tokens :
  scanToken (at_ P) tokens
  = Ok (at_ (String.length source),
        tokens ++ [mkToken (integerType sfx) literal line]).
Proof.
  rewrite (scanToken_digit _ d (at_ (P + 1))) by (by apply advance_at || done).
  unfold scanNumber. rewrite no_prefix. cbv beta iota.
  rewrite not_octal, digits_run.
  unfold mbind at 1, Result_bind at 1. cbv beta iota.
  rewrite match_after by done. cbv beta iota. rewrite no_digits.
  unfold mbind at 1, Result_bind at 1. cbv beta iota.
  rewrite suffix. unfold mbind, Result_bind, emplaceToken, getLine.
  by rewrite lexeme_literal.
Qed.

End IntegerLiteral.


(** Decimal integer literals.  A digit followed by digits (with no leading
    0 before another digit) is one INT32_NUMBER token; followed by the
    suffix u or U it is one UINT32_NUMBER token, whose lexeme keeps the
    suffix. *)
Theorem scanSource_integer (d : ascii) (digits sfx : string)
  (context : TypeContext) (errorHandler : ErrorLog) :
  isdigit d = true -> isDigits digits = true ->
  d <> "0"%char \/ digits = "" ->
  sfx = "" \/ sfx = "u" \/ sfx = "U" ->
  let literal := String d (digits +:+ sfx) in
  scanSource literal context errorHandler =
    Ok ([mkToken (if decide (sfx = "") then INT32_NUMBER else UINT32_NUMBER)
           literal 1;
         mkToken END_OF_FILE literal 1], errorHandler).
Proof.
  intros Hd Hdigits Hlead Hsfx literal.
  pose proof (scanToken_integer "" d digits sfx Hd Hdigits Hlead Hsfx
                context errorHandler 1 []) as H.
  rewrite !append_nil in H. simpl String.length in H.
  rewrite (scanSource_single literal context errorHandler _ _ ltac:(done) H).
  - unfold getLexeme. fields. rewrite Nat.sub_0_r.
    pose proof (substring_all literal) as Hsub.
    unfold literal in Hsub |- *. cbn [String.length] in Hsub. rewrite Hsub.
    by destruct Hsfx as [-> | [-> | ->]].
  - unfold isAtEnd. fields. by apply Nat.leb_le.
Qed.

Lemma scanSource_integer_witness :
  scanSource "120" ∅ []
  = Ok ([mkToken INT32_NUMBER "120" 1; mkToken END_OF_FILE "120" 1], [])
  /\ scanSource "0u" ∅ []
     = Ok ([mkToken UINT32_NUMBER "0u" 1; mkToken END_OF_FILE "0u" 1], []).
Proof.
  assert (H1 : isdigit "1" = true) by reflexivity.
  assert (H0 : isdigit "0" = true) by reflexivity.
  assert (H20 : isDigits "20" = true) by reflexivity.
  assert (Hnil : isDigits "" = true) by reflexivity.
  assert (Hlead1 : "1"%char <> "0"%char \/ "20" = "") by (left; discriminate).
  assert (Hlead0 : "0"%char <> "0"%char \/ "" = "") by (by right).
  split.
  - exact (scanSource_integer "1" "20" "" ∅ [] H1 H20 Hlead1 (or_introl eq_refl)).
  - exact (scanSource_integer "0" "" "u" ∅ [] H0 Hnil Hlead0
             (or_intror (or_introl eq_refl))).
Defined.

Lemma nondecreasing_fmap {A : Type} (f : A -> nat) (l : list A) :
  nondecreasing (f <$> l) ->
  forall i j a b, i <= j -> l !! i = Some a -> l !! j = Some b -> f a <= f b.
Proof.
  intros H i j a b Hij Ha Hb.
  apply (H i j (f a) (f b) Hij); rewrite list_lookup_fmap; [by rewrite Ha | by rewrite Hb].
Qed.

(** Line numbers.  The tokens of a scan carry line numbers that start at
    1, never go back along the sequence and never exceed one more than the
    number of newline characters of the source; so do the errors reported
    to a handler that was empty before the scan. *)
Theorem scanSource_lines (source : string) (context : TypeContext) :
  match scanSource source context [] with
  | Ok (tokens, errors) =>
      Forall (fun t => 1 <= line t <= 1 + newlines source) tokens
      /\ (forall i j a b, i <= j ->
            tokens !! i = Some a -> tokens !! j = Some b -> line a <= line b)
      /\ Forall (fun e => 1 <= e.1 <= 1 + newlines source) errors
      /\ (forall i j a b, i <= j ->
            errors !! i = Some a -> errors !! j = Some b -> a.1 <= b.1)
  | Throw _ => True
  end.
Proof.
  unfold scanSource.
  pose proof (scanTokens_sound (loopFuel (newScanState source context []))
                (newScanState source context []) []) as Hsound.
  destruct (scanTokens _ _ _) as [[s tokens]|e] eqn:E; [|done].
  destruct Hsound as (Hsrc & _); [unfold loopFuel; simpl; lia|].
  simpl in Hsrc.
  apply scanTokens_linesInv in E; [|apply linesInv_new].
  destruct E as (H1 & Hnl & Htok & Hsorted & Herr & Hesorted).
  rewrite Hsrc in Hnl. unfold mbind, Result_bind.
  assert (Hline : m_Line s <= 1 + newlines source) by lia.
  assert (Hwiden : forall {A : Type} (f : A -> nat) (l : list A),
            Forall (fun a => 1 <= f a <= m_Line s) l ->
            Forall (fun a => 1 <= f a <= 1 + newlines source) l).
  { intros A f l H. eapply Forall_impl; [exact H|]. simpl. lia. }
  unfold emplaceToken, getLine.
  split; [|split; [|split]].
  - apply Forall_app. split; [by apply (Hwiden _ line)|].
    constructor; [simpl; lia | done].
  - apply (nondecreasing_fmap line).
    by apply (nondecreasing_line_snoc line _ _ (m_Line s)).
  - by apply (Hwiden _ fst).
  - by apply (nondecreasing_fmap fst).
Qed.

(** Counts.  A scan gives at most one token for each character of the
    source, and the END_OF_FILE token; it reports at most one error for
    each character, and adds its errors to the log it was given, which it
    keeps. *)
Theorem scanSource_counts (source : string) (context : TypeContext)
  (errorHandler : ErrorLog) :
  match scanSource source context errorHandler with
  | Ok (tokens, errors) =>
      length tokens <= String.length source + 1
      /\ exists reported,
           errors = errorHandler ++ reported
           /\ length reported <= String.length source
  | Throw _ => True
  end.
Proof.
  pose proof (scanSource_sound source context errorHandler) as Hsound.
  unfold scanSource in *.
  destruct (scanTokens _ _ _) as [[s tokens]|e] eqn:E; [|done].
  apply scanTokens_count in E as [Ht Hl]. simpl in Ht, Hl.
  unfold mbind, Result_bind in *.
  destruct Hsound as [_ (reported & Hlog)].
  unfold emplaceToken. rewrite length_app. simpl.
  split; [lia|]. exists reported. split; [done|].
  rewrite Hlog, length_app in Hl. lia.
Qed.

Section Move.

Variables (pre : string) (lines : nat) (before : ErrorLog).
Variable tokensBefore : list Token.

Local Abbreviation move := (moveState pre lines before).
Local Abbreviation moveT := (moveTokens lines tokensBefore).
Local Abbreviation moved := (moveOutcome pre lines before tokensBefore).

Lemma get_move n (source : string) :
  String.get (n + String.length pre) (pre +:+ source) = String.get n source.
Proof. rewrite Nat.add_comm. apply get_append_r. Qed.

Lemma substring_move n m (source : string) :
  substring (n + String.length pre) m (pre +:+ source) = substring n m source.
Proof.
  induction pre as [|c p IH].
  - rewrite append_nil. cbn [String.length]. by rewrite Nat.add_0_r.
  - rewrite append_cons. cbn [String.length]. rewrite Nat.add_succ_r.
    destruct m; cbn [substring]; apply IH.
Qed.

Lemma isAtEnd_move s : isAtEnd (move s) = isAtEnd s.
Proof.
  unfold isAtEnd, moveState. fields. rewrite length_append.
  destruct (Nat.leb_spec (String.length (m_Source s)) (m_Current s));
    [apply Nat.leb_le | apply Nat.leb_gt]; lia.
Qed.

Lemma char_at_move s :
  char_at (m_Source (move s)) (m_Current (move s))
  = char_at (m_Source s) (m_Current s).
Proof. unfold char_at, moveState. fields. by rewrite get_move. Qed.

Lemma peek_move s : peek (move s) = peek s.
Proof. unfold peek. by rewrite isAtEnd_move, char_at_move. Qed.

Lemma loopFuel_move s : loopFuel (move s) = loopFuel s.
Proof.
  unfold loopFuel, moveState. fields. rewrite length_append. f_equal. lia.
Qed.

Lemma set_Current_move s n :
  set_Current (move s) (n + String.length pre) = move (set_Current s n).
Proof. done. Qed.

Lemma advance_move s :
  advance (move s) = (advance s ≫= fun '(c, s') => Ok (c, move s')).
Proof.
  unfold advance, source_at, set_Current, moveState. fields.
  replace (m_Current s + String.length pre + 1 - 1)
    with (m_Current s + String.length pre) by lia.
  replace (m_Current s + 1 - 1) with (m_Current s) by lia.
  rewrite get_move.
  destruct (String.get (m_Current s) (m_Source s)); [|done].
  unfold mbind, Result_bind. fields. do 3 f_equal. lia.
Qed.

Lemma match_move c s :
  match_ c (move s) = let '(m, s') := match_ c s in (m, move s').
Proof.
  unfold match_. rewrite isAtEnd_move, char_at_move.
  destruct (isAtEnd s); [done|]. destruct (negb _); [done|].
  unfold moveState, set_Current. fields. do 2 f_equal. lia.
Qed.

Lemma error_move message s : error message (move s) = move (error message s).
Proof.
  unfold error, moveState, getLine. fields. f_equal.
  by rewrite fmap_app, app_assoc.
Qed.

Lemma nextLine_move s : nextLine (move s) = move (nextLine s).
Proof. unfold nextLine, moveState. fields. f_equal. lia. Qed.

Lemma resetLexeme_move s : resetLexeme (move s) = move (resetLexeme s).
Proof. done. Qed.

Lemma getLexeme_move s : getLexeme (move s) = getLexeme s.
Proof.
  unfold getLexeme, moveState. fields.
  replace (m_Current s + String.length pre - (m_Start s + String.length pre))
    with (m_Current s - m_Start s) by lia.
  apply substring_move.
Qed.

Lemma emplaceToken_move tokens type s :
  emplaceToken (moveT tokens) type (move s)
  = moveT (emplaceToken tokens type s).
Proof.
  unfold emplaceToken, moveTokens.
  by rewrite fmap_app, getLexeme_move, app_assoc.
Qed.

Lemma getScalarTokenType_move s :
  getScalarTokenType (move s) = getScalarTokenType s.
Proof. done. Qed.

Lemma isTypedefIdentifier_move lexeme s :
  isTypedefIdentifier lexeme (move s) = isTypedefIdentifier lexeme s.
Proof. done. Qed.

Lemma advanceWhile_move fuel cond s :
  (forall s, cond (move s) = cond s) ->
  advanceWhile fuel cond (move s)
  = (advanceWhile fuel cond s ≫= fun s' => Ok (move s')).
Proof.
  intros Hcond. revert s; induction fuel as [|fuel IH]; intros s; simpl; [done|].
  rewrite Hcond. destruct (cond s); [|done].
  rewrite advance_move. destruct (advance s) as [[c s1]|e]; [|done].
  simpl. apply IH.
Qed.

Lemma isSuffixChar_move s : isSuffixChar (move s) = isSuffixChar s.
Proof. unfold isSuffixChar. by rewrite peek_move. Qed.

Lemma readSuffix_move fuel suffix s :
  readSuffix fuel suffix (move s)
  = (readSuffix fuel suffix s ≫= fun '(x, s') => Ok (x, move s')).
Proof.
  revert suffix s; induction fuel as [|fuel IH]; intros suffix s; simpl; [done|].
  rewrite isSuffixChar_move. destruct (isSuffixChar s); [|done].
  rewrite advance_move. destruct (advance s) as [[c s1]|e]; [|done].
  simpl. apply IH.
Qed.

Lemma scanIntegerSuffix_move s :
  scanIntegerSuffix (move s)
  = (scanIntegerSuffix s ≫= fun '(t, s') => Ok (t, move s')).
Proof.
  unfold scanIntegerSuffix. rewrite loopFuel_move, readSuffix_move.
  destruct (readSuffix _ _ _) as [[x s1]|e]; [|done]. simpl.
  by destruct (at_ _ _).
Qed.

Ltac move_fields :=
  rewrite ?peek_move, ?isAtEnd_move, ?loopFuel_move, ?getLexeme_move,
    ?error_move, ?nextLine_move, ?isTypedefIdentifier_move,
    ?emplaceToken_move.

Ltac move_step :=
  move_fields;
  match goal with
  | |- Ok _ = _ => reflexivity
  | |- Throw _ = _ => reflexivity
  | |- context [match_ ?c (moveState ?p ?l ?b ?s)] =>
      rewrite (match_move c s); destruct (match_ c s) as [? ?];
      cbv beta iota
  | |- context [advance (moveState ?p ?l ?b ?s)] =>
      rewrite (advance_move s); destruct (advance s) as [[? ?]|?];
      unfold mbind, Result_bind; cbv beta iota
  | |- context [advanceWhile ?f ?cond (moveState ?p ?l ?b ?s)] =>
      rewrite (advanceWhile_move f cond s)
        by (intros; cbv beta; by rewrite ?peek_move, ?isAtEnd_move);
      destruct (advanceWhile f cond s) as [?|?];
      unfold mbind, Result_bind; cbv beta iota
  | |- context [scanIntegerSuffix (moveState ?p ?l ?b ?s)] =>
      rewrite (scanIntegerSuffix_move s);
      destruct (scanIntegerSuffix s) as [[? ?]|?];
      unfold mbind, Result_bind; cbv beta iota
  | |- context [getScalarTokenType (moveState ?p ?l ?b ?s)] =>
      rewrite (getScalarTokenType_move s);
      destruct (getScalarTokenType s) as [?|?];
      unfold mbind, Result_bind; cbv beta iota
  | |- (if ?c then _ else _) = _ => destruct c
  | |- match ?o with Some _ => _ | None => _ end = _ => destruct o
  | |- context [if ?c then _ else _] => destruct c
  end.

Lemma scanString_move s tokens :
  scanString (move s) (moveT tokens)
  = moved (scanString s tokens).
Proof. unfold scanString. unfold mbind, Result_bind. repeat move_step. Qed.

Lemma scanIdentifier_move s tokens :
  scanIdentifier (move s) (moveT tokens)
  = moved (scanIdentifier s tokens).
Proof. unfold scanIdentifier. unfold mbind, Result_bind. repeat move_step. Qed.

Lemma emplaceEither_move s tokens expected a b :
  emplaceEither (move s) (moveT tokens) expected a b
  = moved (emplaceEither s tokens expected a b).
Proof. unfold emplaceEither. repeat move_step. Qed.

Lemma emplaceCompound_move s tokens e c d t :
  emplaceCompound (move s) (moveT tokens) e c d t
  = moved (emplaceCompound s tokens e c d t).
Proof. unfold emplaceCompound. repeat move_step. Qed.

Lemma emplaceShift_move s tokens e c d1 d2 t :
  emplaceShift (move s) (moveT tokens) e c d1 d2 t
  = moved (emplaceShift s tokens e c d1 d2 t).
Proof. unfold emplaceShift. repeat move_step. Qed.

Lemma scanNumber_move c s tokens :
  scanNumber c (move s) (moveT tokens)
  = moved (scanNumber c s tokens).
Proof.
  unfold scanNumber. unfold mbind, Result_bind.
  destruct (Ascii.eqb c "0"); cbn [andb]; repeat move_step.
Qed.

Lemma scanToken_move s tokens :
  scanToken (move s) (moveT tokens)
  = moved (scanToken s tokens).
Proof.
  unfold scanToken. unfold mbind, Result_bind.
  rewrite advance_move. destruct (advance s) as [[c s1]|e]; [|done].
  unfold mbind, Result_bind; cbv beta iota.
  repeat match goal with
         | |- (if ?c then _ else _) = _ => destruct c
         end;
    auto using scanString_move, scanIdentifier_move, emplaceEither_move,
      emplaceCompound_move, emplaceShift_move, scanNumber_move;
    repeat move_step.
Qed.

Lemma scanTokens_move fuel s tokens :
  scanTokens fuel (move s) (moveT tokens)
  = moved (scanTokens fuel s tokens).
Proof.
  revert s tokens; induction fuel as [|fuel IH]; intros s tokens; [done|].
  rewrite !scanTokens_unfold. rewrite isAtEnd_move.
  destruct (negb (isAtEnd s)); [|done].
  rewrite resetLexeme_move, scanToken_move.
  destruct (scanToken (resetLexeme s) tokens) as [[s1 tokens1]|e]; [|done].
  unfold moveOutcome at 1. unfold mbind, Result_bind. apply IH.
Qed.

End Move.

(** The scan of a run of blank characters and of characters that start no
    lexeme, before the rest of the source. *)
Lemma scanTokens_prefix context (ws rest : string) :
  forall (pre : string) start line log tokens fuel,
  all (fun c => isBlank c || startsNoLexeme c) ws = true ->
  scanTokens (String.length ws + fuel)
    (mkScanState start (String.length pre) line (pre +:+ ws +:+ rest)
       context log)
    tokens
  = scanTokens fuel
      (mkScanState
         (match ws with
          | "" => start
          | _ => String.length (pre +:+ ws) - 1
          end)
         (String.length (pre +:+ ws)) (line + newlines ws)
         (pre +:+ ws +:+ rest) context (log ++ unexpected line ws))
      tokens.
Proof.
  induction ws as [|c ws IH]; intros pre start line log tokens fuel Hall.
  - cbn [String.length newlines unexpected Nat.add].
    rewrite app_nil_r, Nat.add_0_r, length_append. cbn [String.length].
    by rewrite Nat.add_0_r.
  - apply all_cons in Hall as [Hc Hws].
    cbn [String.length Nat.add]. rewrite scanTokens_unfold.
    unfold isAtEnd. fields.
    rewrite (proj2 (Nat.leb_gt _ _))
      by (rewrite !length_append; cbn [String.length]; lia).
    change (negb false) with true. cbv iota.
    unfold resetLexeme. fields. rewrite append_cons.
    rewrite (scanToken_skip _ _ _ _ _ _ c) by (by apply get_middle || done).
    unfold mbind, Result_bind.
    rewrite (snoc_append pre c (ws +:+ rest)), <- (length_snoc pre c).
    rewrite IH by done.
    rewrite (append_assoc pre (String c "") ws).
    change (String c "" +:+ ws) with (String c ws).
    f_equal. f_equal.
    + destruct ws; [|done].
      rewrite length_append. cbn [String.length]. lia.
    + cbn [newlines]. destruct (Ascii.eqb c "010"); lia.
    + cbn [unexpected]. destruct (Ascii.eqb c "010") eqn:E.
      * apply Ascii.eqb_eq in E. subst c. done.
      * destruct (startsNoLexeme c); [by rewrite <- app_assoc | done].
Qed.

Lemma scanTokens_resetLexeme fuel s tokens :
  isAtEnd s = false ->
  scanTokens (S fuel) s tokens = scanTokens (S fuel) (resetLexeme s) tokens.
Proof.
  intros H.
  rewrite (scanTokens_unfold fuel s), (scanTokens_unfold fuel (resetLexeme s)).
  change (isAtEnd (resetLexeme s)) with (isAtEnd s). by rewrite H.
Qed.

(** What stands before the source: a prefix of blank characters and of
    characters that start no lexeme, before a source that is not empty,
    moves every token and every error of the source down by the newlines of
    the prefix and changes nothing else; the errors of the prefix itself
    come first. *)
Theorem scanSource_prefix (ws source : string) (context : TypeContext)
  (errorHandler : ErrorLog) :
  all (fun c => isBlank c || startsNoLexeme c) ws = true ->
  source <> "" ->
  scanSource (ws +:+ source) context errorHandler
  = match scanSource source context [] with
    | Ok (tokens, errors) =>
        Ok (moveToken (newlines ws) <$> tokens,
            errorHandler ++ unexpected 1 ws
              ++ (moveError (newlines ws) <$> errors))
    | Throw e => Throw e
    end.
Proof.
  intros Hall Hsource. unfold scanSource, newScanState.
  unfold loopFuel. fields. rewrite length_append, !Nat.sub_0_r.
  replace (S (String.length ws + String.length source))
    with (String.length ws + S (String.length source)) by lia.
  pose proof (scanTokens_prefix context ws source "" 0 1 errorHandler []
                (S (String.length source)) Hall) as H.
  rewrite !append_nil in H. cbn [String.length] in H. rewrite H. clear H.
  rewrite scanTokens_resetLexeme.
  2:{ unfold isAtEnd. fields. apply Nat.leb_gt. rewrite length_append.
      destruct source; [done | cbn [String.length]; lia]. }
  unfold resetLexeme. fields.
  change (mkScanState (String.length ws) (String.length ws)
            (1 + newlines ws) (ws +:+ source) context
            (errorHandler ++ unexpected 1 ws))
    with (mkScanState (0 + String.length ws) (0 + String.length ws)
            (1 + newlines ws) (ws +:+ source) context
            (errorHandler ++ unexpected 1 ws)).
  rewrite <- (app_nil_r (errorHandler ++ unexpected 1 ws)).
  change (mkScanState (0 + String.length ws) (0 + String.length ws)
            (1 + newlines ws) (ws +:+ source) context
            ((errorHandler ++ unexpected 1 ws) ++ []))
    with (moveState ws (newlines ws) (errorHandler ++ unexpected 1 ws)
            (mkScanState 0 0 1 source context [])).
  change (@nil Token) with (moveTokens (newlines ws) [] []) at 1.
  rewrite scanTokens_move.
  destruct (scanTokens _ _ _) as [[s tokens]|e]; [|done].
  unfold moveOutcome, mbind, Result_bind.
  rewrite emplaceToken_move. unfold moveState, moveTokens. fields.
  by rewrite <- app_assoc.
Qed.

Lemma scanSource_prefix_witness :
  scanSource (String " " (String "010" "x")) ∅ []
  = match scanSource "x" ∅ [] with
    | Ok (tokens, errors) =>
        Ok (moveToken 1 <$> tokens, [] ++ [] ++ (moveError 1 <$> errors))
    | Throw e => Throw e
    end.
Proof.
  assert (Hall : all (fun c => isBlank c || startsNoLexeme c)
                   (String " " (String "010" "")) = true) by reflexivity.
  assert (Hsource : "x" <> "") by discriminate.
  exact (scanSource_prefix (String " " (String "010" "")) "x" ∅ [] Hall Hsource).
Defined.

Lemma substring_append_l (a b : string) n m :
  n + m <= String.length a -> substring n m (a +:+ b) = substring n m a.
Proof.
  revert n m; induction a as [|c a IH]; intros n m H.
  - cbn [String.length] in H. assert (n = 0) as -> by lia.
    assert (m = 0) as -> by lia. rewrite append_nil. by destruct b.
  - rewrite append_cons. cbn [String.length] in H.
    destruct n as [|n]; cbn [substring].
    + destruct m as [|m]; [done|]. f_equal. apply IH. lia.
    + apply IH. lia.
Qed.

Lemma substring_empty n (s : string) : substring n 0 s = "".
Proof.
  revert n; induction s as [|c s IH]; intros [|n]; cbn [substring]; auto.
Qed.

Lemma advanceWhile_more fuel fuel' cond s s' :
  advanceWhile fuel cond s = Ok s' -> fuel <= fuel' ->
  advanceWhile fuel' cond s = Ok s'.
Proof.
  revert fuel' s; induction fuel as [|fuel IH]; intros fuel' s; [done|].
  intros H Hle. destruct fuel' as [|fuel']; [lia|]. simpl in *.
  destruct (cond s); [|done].
  destruct (advance s) as [[c s1]|e]; [|done]. simpl in *.
  apply IH; [done | lia].
Qed.

Lemma advanceWhile_exit fuel cond s s' :
  advanceWhile fuel cond s = Ok s' -> cond s' = false.
Proof.
  revert s; induction fuel as [|fuel IH]; intros s; [done|]. simpl.
  destruct (cond s) eqn:E.
  - destruct (advance s) as [[c s1]|e]; [|done]. simpl. apply IH.
  - by intros [= <-].
Qed.

Lemma scanTokens_more fuel fuel' s tokens :
  scanTokens fuel s tokens <> Throw OutOfFuel -> fuel <= fuel' ->
  scanTokens fuel' s tokens = scanTokens fuel s tokens.
Proof.
  revert fuel' s tokens; induction fuel as [|fuel IH];
    intros fuel' s tokens H Hle; [done|].
  destruct fuel' as [|fuel']; [lia|]. rewrite !scanTokens_unfold in *.
  destruct (negb (isAtEnd s)); [|done].
  destruct (scanToken (resetLexeme s) tokens) as [[s1 tokens1]|e]; [|done].
  unfold mbind, Result_bind in *. apply IH; [done | lia].
Qed.

Lemma scanTokens_line fuel s tokens s' tokens' :
  scanTokens fuel s tokens = Ok (s', tokens') -> m_Line s <= m_Line s'.
Proof.
  revert s tokens; induction fuel as [|fuel IH]; intros s tokens; [done|].
  rewrite scanTokens_unfold. destruct (isAtEnd s); simpl.
  - by intros [= <- <-].
  - unfold mbind, Result_bind.
    pose proof (scanToken_emits (resetLexeme s) tokens) as He.
    destruct (scanToken (resetLexeme s) tokens) as [[s1 tokens1]|e]; [|done].
    intros H. apply IH in H.
    destruct He as [(Hl & _) | (Hl & _)]; simpl in Hl; lia.
Qed.

Section Local.

Variables (head rest : string).

Local Abbreviation source := (head +:+ String "010" "").
Local Abbreviation ext := (continued rest).
Local Abbreviation inside := (Lexical.inside source).
Local Abbreviation within := (Lexical.within source).
Local Abbreviation local := (Lexical.local source rest).

Lemma inside_within s : inside s -> within s.
Proof. intros [? ?]. split; [done | lia]. Qed.

Lemma get_ext n :
  n < String.length source -> String.get n (source +:+ rest) = String.get n source.
Proof. apply get_append_l. Qed.

Lemma get_last n c :
  String.get n source = Some c -> c <> "010"%char -> S n < String.length source.
Proof.
  intros Hget Hc. pose proof (get_Some_lt _ _ _ Hget) as Hlt.
  rewrite length_append in *. cbn [String.length] in *.
  destruct (decide (n = String.length head)) as [->|]; [|lia].
  rewrite get_middle in Hget. congruence.
Qed.

Lemma isAtEnd_inside s : inside s -> isAtEnd s = false.
Proof. intros [Hs Hc]. unfold isAtEnd. rewrite Hs. by apply Nat.leb_gt. Qed.

Lemma isAtEnd_ext s : inside s -> isAtEnd (ext s) = isAtEnd s.
Proof.
  intros Hin. rewrite (isAtEnd_inside s Hin). destruct Hin as [Hs Hc].
  unfold isAtEnd, continued. fields. rewrite Hs. apply Nat.leb_gt.
  rewrite length_append. lia.
Qed.

Lemma char_at_ext s :
  inside s ->
  char_at (m_Source (ext s)) (m_Current (ext s))
  = char_at (m_Source s) (m_Current s).
Proof.
  intros [Hs Hc]. unfold char_at, continued. fields. rewrite Hs.
  by rewrite get_ext.
Qed.

Lemma peek_ext s : inside s -> peek (ext s) = peek s.
Proof.
  intros Hin. unfold peek. by rewrite isAtEnd_ext, char_at_ext.
Qed.

Lemma peek_inside s :
  inside s -> String.get (m_Current s) source = Some (peek s).
Proof.
  intros Hin. unfold peek. rewrite (isAtEnd_inside s Hin).
  destruct Hin as [Hs Hc]. unfold char_at. rewrite Hs.
  destruct (get_lt _ _ Hc) as [c E]. by rewrite E.
Qed.

Lemma peek_last s :
  inside s -> peek s <> "010"%char -> S (m_Current s) < String.length source.
Proof. intros Hin. apply get_last. by apply peek_inside. Qed.

Lemma advance_ext s :
  inside s ->
  advance (ext s) = (advance s ≫= fun '(c, s') => Ok (c, ext s')).
Proof.
  intros [Hs Hc]. unfold advance, source_at, set_Current, continued. fields.
  replace (m_Current s + 1 - 1) with (m_Current s) by lia.
  rewrite Hs, get_ext by done.
  by destruct (String.get (m_Current s) source).
Qed.

Lemma advance_inside s c s' :
  inside s -> advance s = Ok (c, s') ->
  c = peek s /\ within s' /\ (c <> "010"%char -> inside s').
Proof.
  intros Hin H. pose proof (peek_inside s Hin) as Hp.
  pose proof (advance_get _ _ _ H) as Hg.
  apply advance_Ok in H as [-> Hlt]. destruct Hin as [Hs Hc].
  rewrite Hs in Hg. assert (c = peek s) as -> by congruence.
  split; [done|]. split.
  - split; [done|]. unfold set_Current. fields. lia.
  - intros Hn. split; [done|]. unfold set_Current. fields.
    pose proof (get_last _ _ Hp Hn). lia.
Qed.

Lemma match_ext c s :
  inside s -> match_ c (ext s) = let '(m, s') := match_ c s in (m, ext s').
Proof.
  intros Hin. unfold match_. rewrite isAtEnd_ext, char_at_ext by done.
  destruct (isAtEnd s); [done|]. by destruct (negb _).
Qed.

Lemma match_inside c s :
  inside s -> c <> "010"%char -> inside (match_ c s).2.
Proof.
  intros Hin Hc. pose proof (peek_inside s Hin) as Hp.
  unfold match_. rewrite (isAtEnd_inside s Hin).
  destruct (negb _) eqn:E; [done|]. apply negb_false_iff, Ascii.eqb_eq in E.
  cbn [snd]. destruct Hin as [Hs Hlt]. split; [done|].
  unfold set_Current. fields.
  assert (Hn : peek s <> "010"%char).
  { unfold peek. rewrite (isAtEnd_inside s (conj Hs Hlt)). congruence. }
  pose proof (get_last _ _ Hp Hn). lia.
Qed.

Lemma getLexeme_ext s : within s -> getLexeme (ext s) = getLexeme s.
Proof.
  intros [Hs Hc]. unfold getLexeme, continued. fields. rewrite Hs.
  destruct (Nat.le_gt_cases (m_Start s) (m_Current s)).
  - apply substring_append_l. lia.
  - replace (m_Current s - m_Start s) with 0 by lia.
    by rewrite !substring_empty.
Qed.

Lemma emplaceToken_ext tokens type s :
  within s -> emplaceToken tokens type (ext s) = emplaceToken tokens type s.
Proof. intros H. unfold emplaceToken. by rewrite getLexeme_ext. Qed.

Lemma loopFuel_ext s : loopFuel s <= loopFuel (ext s).
Proof.
  unfold loopFuel, continued. fields. rewrite length_append. lia.
Qed.

Lemma advanceWhile_within fuel cond s s' :
  within s -> advanceWhile fuel cond s = Ok s' -> within s'.
Proof.
  revert s; induction fuel as [|fuel IH]; intros s Hw; [done|]. simpl.
  destruct (cond s); [|by intros [= <-]].
  destruct (advance s) as [[c s1]|e] eqn:E; [|done]. simpl.
  apply IH. apply advance_Ok in E as [-> Hlt]. destruct Hw as [Hs Hc].
  rewrite Hs in Hlt. split; [done|]. unfold set_Current. fields. lia.
Qed.

(** A loop that stops at a newline stays before the newline that ends the
    source. *)
Lemma advanceWhile_inside fuel cond s s' :
  (forall s, inside s -> cond s = true -> peek s <> "010"%char) ->
  inside s -> advanceWhile fuel cond s = Ok s' -> inside s'.
Proof.
  intros Hcond. revert s; induction fuel as [|fuel IH]; intros s Hin; [done|].
  simpl. destruct (cond s) eqn:Ec; [|by intros [= <-]].
  destruct (advance s) as [[c s1]|e] eqn:E; [|done]. simpl.
  apply IH. destruct (advance_inside s c s1 Hin E) as (-> & _ & Hi).
  apply Hi. by apply Hcond.
Qed.

Lemma advanceWhile_ext fuel fuel' cond s s' :
  (forall s, inside s -> cond (ext s) = cond s) ->
  inside s -> advanceWhile fuel cond s = Ok s' -> inside s' ->
  fuel <= fuel' ->
  advanceWhile fuel' cond (ext s) = Ok (ext s').
Proof.
  intros Hcond. revert fuel' s; induction fuel as [|fuel IH];
    intros fuel' s Hin H Hin' Hle; [done|].
  destruct fuel' as [|fuel']; [lia|]. simpl in *.
  rewrite Hcond by done. destruct (cond s); [|by injection H as <-].
  rewrite advance_ext by done.
  destruct (advance s) as [[c s1]|e] eqn:E; [|done]. simpl in *.
  apply IH; [|done|done|lia].
  pose proof (advanceWhile_extends _ _ _ _ H) as (_ & _ & Hcur & _).
  apply advance_Ok in E as [-> _]. destruct Hin as [Hs _], Hin' as [_ Hlt].
  split; [done|]. lia.
Qed.

Lemma isSuffixChar_newline s :
  isSuffixChar s = true -> peek s <> "010"%char.
Proof.
  unfold isSuffixChar. intros H E. rewrite E in H. vm_compute in H.
  discriminate H.
Qed.

Lemma readSuffix_ext fuel fuel' suffix s x s' :
  inside s -> readSuffix fuel suffix s = Ok (x, s') -> fuel <= fuel' ->
  readSuffix fuel' suffix (ext s) = Ok (x, ext s') /\ inside s'.
Proof.
  revert fuel' suffix s; induction fuel as [|fuel IH];
    intros fuel' suffix s Hin H Hle; [done|].
  destruct fuel' as [|fuel']; [lia|]. simpl in *.
  unfold isSuffixChar in *. rewrite peek_ext by done.
  fold (isSuffixChar s) in *.
  destruct (isSuffixChar s) eqn:Es; [|by injection H as <- <-].
  rewrite advance_ext by done.
  destruct (advance s) as [[c s1]|e] eqn:E; [|done]. simpl in *.
  destruct (advance_inside s c s1 Hin E) as (-> & _ & Hi).
  apply IH; [|done|lia]. apply Hi. by apply isSuffixChar_newline.
Qed.

Lemma scanIntegerSuffix_ext s t s' :
  inside s -> scanIntegerSuffix s = Ok (t, s') ->
  scanIntegerSuffix (ext s) = Ok (t, ext s') /\ inside s'.
Proof.
  intros Hin. unfold scanIntegerSuffix, mbind, Result_bind.
  destruct (readSuffix (loopFuel s) ∅ s) as [[x s1]|e] eqn:E; [|done].
  destruct (readSuffix_ext _ (loopFuel (ext s)) _ _ _ _ Hin E (loopFuel_ext s))
    as [-> Hi].
  destruct (at_ _ _); [|done]. by intros [= <- <-].
Qed.

Ltac stops :=
  let s := fresh in
  let H := fresh in
  let E := fresh in
  intros s _ H E; rewrite E in H; vm_compute in H; discriminate H.

Ltac cond_local := intros; cbv beta; by rewrite ?peek_ext, ?isAtEnd_ext.

Ltac ext_fields :=
  repeat match goal with
    | Hin : Lexical.inside _ ?s |- context [peek (continued _ ?s)] =>
        rewrite (peek_ext s Hin)
    | |- context [error ?m (continued ?r ?s)] =>
        change (error m (continued r s)) with (continued r (error m s))
    | |- context [isTypedefIdentifier ?l (continued ?r ?s)] =>
        change (isTypedefIdentifier l (continued r s))
          with (isTypedefIdentifier l s)
    | |- context [getScalarTokenType (continued ?r ?s)] =>
        change (getScalarTokenType (continued r s))
          with (getScalarTokenType s)
    | Hin : Lexical.inside _ ?s |- context [getLexeme (continued _ ?s)] =>
        rewrite (getLexeme_ext s (inside_within s Hin))
    | Hw : Lexical.within _ ?s |- context [getLexeme (continued _ ?s)] =>
        rewrite (getLexeme_ext s Hw)
    | Hin : Lexical.inside _ ?s |- context [emplaceToken _ _ (continued _ ?s)] =>
        rewrite (emplaceToken_ext _ _ s (inside_within s Hin))
    | Hw : Lexical.within _ ?s |- context [emplaceToken _ _ (continued _ ?s)] =>
        rewrite (emplaceToken_ext _ _ s Hw)
    end.

Ltac local_leaf :=
  split;
  [ reflexivity
  | first [ assumption
          | match goal with
            | Hin : Lexical.inside _ ?s |- Lexical.within _ _ =>
                exact (inside_within s Hin)
            | Hw : Lexical.within _ ?s |- Lexical.within _ _ => exact Hw
            end ] ].

Ltac peek_not_newline s :=
  let Heq := fresh in
  intros Heq;
  match goal with
  | H : context [peek s] |- _ =>
      rewrite Heq in H; vm_compute in H; discriminate H
  end.

Ltac local_step :=
  ext_fields;
  match goal with
  | |- Lexical.local _ _ (Throw _) _ => exact I
  | |- Lexical.local _ _ (Ok _) _ => local_leaf
  | |- Lexical.local _ _ ?r _ =>
      match r with
      | context [if ?b then _ else _] =>
          let E := fresh "E" in destruct b eqn:E
      | context [match ?o with Some _ => _ | None => _ end] => destruct o
      end
  | Hin : Lexical.inside _ ?s |- Lexical.local _ _ ?r _ =>
      match r with
      | context [error ?m s] =>
          lazymatch goal with
          | _ : Lexical.inside _ (error m s) |- _ => fail
          | _ => pose proof (Hin : inside (error m s))
          end
      end
  | Hin : Lexical.inside _ ?s |- Lexical.local _ _ ?r _ =>
      match r with
      | context [match_ ?c s] =>
          let Hi := fresh "Hin" in
          rewrite (match_ext c s Hin);
          assert (Hi := match_inside c s Hin ltac:(discriminate));
          destruct (match_ c s) as [? ?]; cbn [snd] in Hi; cbv beta iota
      | context [advance s] =>
          let E := fresh "E" in
          let Hw := fresh "Hw" in
          let Hi := fresh "Hi" in
          rewrite (advance_ext s Hin); unfold mbind, Result_bind;
          destruct (advance s) as [[? ?]|?] eqn:E; [|exact I];
          pose proof (advance_inside _ _ _ Hin E) as (-> & Hw & Hi);
          first [ specialize (Hi ltac:(peek_not_newline s)) | clear Hi ];
          cbv beta iota
      | context [advanceWhile ?f ?cond s] =>
          let E := fresh "E" in
          let Hi := fresh "Hin" in
          let s1 := fresh "s" in
          destruct (advanceWhile f cond s) as [s1|?] eqn:E; [|exact I];
          assert (Hi : inside s1)
            by (apply (advanceWhile_inside f cond s s1); [stops | exact Hin | exact E]);
          rewrite (advanceWhile_ext f (loopFuel (continued rest s)) cond s s1
                     ltac:(cond_local) Hin E Hi (loopFuel_ext s));
          cbv beta iota
      | context [scanIntegerSuffix s] =>
          let E := fresh "E" in
          let Hr := fresh "Hr" in
          let Hi := fresh "Hin" in
          destruct (scanIntegerSuffix s) as [[? ?]|?] eqn:E; [|exact I];
          destruct (scanIntegerSuffix_ext _ _ _ Hin E) as [Hr Hi];
          rewrite Hr; cbv beta iota
      end
  | |- Lexical.local _ _ ?r _ =>
      match r with
      | context [getScalarTokenType ?s] => destruct (getScalarTokenType s)
      end
  end.

Lemma scanIdentifier_local s tokens :
  inside s -> local (scanIdentifier s tokens) (scanIdentifier (ext s) tokens).
Proof.
  intros Hin. unfold scanIdentifier, mbind, Result_bind. repeat local_step.
Qed.

Lemma emplaceEither_local s tokens expected a b :
  inside s -> expected <> "010"%char ->
  local (emplaceEither s tokens expected a b)
    (emplaceEither (ext s) tokens expected a b).
Proof.
  intros Hin He. unfold emplaceEither.
  rewrite (match_ext expected s Hin).
  pose proof (match_inside expected s Hin He) as Hi.
  destruct (match_ expected s) as [m s1]. cbn [snd] in Hi.
  repeat local_step.
Qed.

Lemma emplaceCompound_local s tokens e c d t :
  inside s -> c <> "010"%char ->
  local (emplaceCompound s tokens e c d t)
    (emplaceCompound (ext s) tokens e c d t).
Proof.
  intros Hin He. unfold emplaceCompound.
  local_step. destruct b; [repeat local_step|].
  rewrite (match_ext c s0 Hin0).
  pose proof (match_inside c s0 Hin0 He) as Hi.
  destruct (match_ c s0) as [m s1]. cbn [snd] in Hi.
  repeat local_step.
Qed.

Lemma emplaceShift_local s tokens e c d1 d2 t :
  inside s -> c <> "010"%char ->
  local (emplaceShift s tokens e c d1 d2 t)
    (emplaceShift (ext s) tokens e c d1 d2 t).
Proof.
  intros Hin He. unfold emplaceShift.
  local_step. destruct b; [repeat local_step|].
  rewrite (match_ext c s0 Hin0).
  pose proof (match_inside c s0 Hin0 He) as Hi.
  destruct (match_ c s0) as [m s1]. cbn [snd] in Hi.
  repeat local_step.
Qed.

Lemma scanString_local s tokens :
  inside s -> local (scanString s tokens) (scanString (ext s) tokens).
Proof.
  intros Hin. unfold scanString, mbind, Result_bind.
  destruct (advanceWhile (loopFuel s) _ s) as [s1|e] eqn:E; [|exact I].
  assert (Hi : inside s1).
  { pose proof (advanceWhile_within _ _ _ _ (inside_within _ Hin) E) as [Hs Hc].
    pose proof (advanceWhile_exit _ _ _ _ E) as Hx. cbv beta in Hx.
    split; [done|].
    destruct (Nat.lt_ge_cases (m_Current s1) (String.length source)); [done|].
    rewrite peek_end in Hx by (rewrite Hs; lia). discriminate Hx. }
  match type of E with
  | advanceWhile ?f ?cond _ = _ =>
      rewrite (advanceWhile_ext f (loopFuel (ext s)) cond s s1
                 ltac:(cond_local) Hin E Hi (loopFuel_ext s))
  end.
  repeat local_step.
Qed.

Lemma scanNumber_local c s tokens :
  inside s -> local (scanNumber c s tokens) (scanNumber c (ext s) tokens).
Proof.
  intros Hin. unfold scanNumber, mbind, Result_bind.
  repeat local_step.
Qed.

Lemma scanToken_local s tokens :
  inside s -> local (scanToken s tokens) (scanToken (ext s) tokens).
Proof.
  intros Hin. unfold scanToken.
  rewrite (advance_ext s Hin). unfold mbind, Result_bind.
  destruct (advance s) as [[c s1]|e] eqn:E; [|exact I].
  destruct (advance_inside _ _ _ Hin E) as (_ & Hw & Hi).
  destruct (Ascii.eqb c "010") eqn:Enl.
  - apply Ascii.eqb_eq in Enl. subst c. cbn. split; [reflexivity | exact Hw].
  - apply Ascii.eqb_neq in Enl. specialize (Hi Enl).
    repeat match goal with
           | |- Lexical.local _ _ (if ?b then _ else _) _ => destruct b
           end;
      first [ apply scanString_local; assumption
            | apply scanIdentifier_local; assumption
            | apply scanNumber_local; assumption
            | apply emplaceEither_local; [assumption | discriminate]
            | apply emplaceCompound_local; [assumption | discriminate]
            | apply emplaceShift_local; [assumption | discriminate]
            | repeat local_step ].
Qed.

(** The scan of the source, as far as it goes, is the beginning of the
    scan of the source with [rest] after it. *)
Lemma scanTokens_local fuel s tokens s' tokens' :
  within s -> scanTokens fuel s tokens = Ok (s', tokens') ->
  within s' /\ isAtEnd s' = true
  /\ exists used,
       used < fuel
       /\ forall k,
            scanTokens (used + k) (ext s) tokens
            = scanTokens k (ext s') tokens'.
Proof.
  revert s tokens; induction fuel as [|fuel IH]; intros s tokens Hw H; [done|].
  rewrite scanTokens_unfold in H. destruct (isAtEnd s) eqn:Hend; simpl in H.
  - injection H as <- <-. do 2 (split; [done|]). exists 0. split; [lia|]. done.
  - assert (Hin : inside (resetLexeme s)).
    { destruct Hw as [Hs Hc]. split; [done|]. unfold isAtEnd in Hend.
      apply Nat.leb_gt in Hend. rewrite Hs in Hend. exact Hend. }
    pose proof (scanToken_local (resetLexeme s) tokens Hin) as Hloc.
    destruct (scanToken (resetLexeme s) tokens) as [[s1 tokens1]|e]; [|done].
    unfold mbind, Result_bind in H. destruct Hloc as [HAB Hw1].
    destruct (IH s1 tokens1 Hw1 H) as (Hw' & Hend' & used & Hlt & Hk).
    do 2 (split; [done|]). exists (S used). split; [lia|]. intros k.
    change (S used + k) with (S (used + k)). rewrite scanTokens_unfold.
    change (isAtEnd (ext s)) with (isAtEnd (ext (resetLexeme s))).
    rewrite (isAtEnd_ext _ Hin).
    change (isAtEnd (resetLexeme s)) with (isAtEnd s). rewrite Hend.
    change (resetLexeme (ext s)) with (ext (resetLexeme s)).
    cbn [negb]. rewrite HAB. unfold mbind, Result_bind. apply Hk.
Qed.

End Local.

(** Lines apart.  When the scan of a source that ends with a newline
    returns, the scan of that source with more text after it gives the
    tokens of the source, without its END_OF_FILE, and then the tokens of
    the text, and the errors of the source and then the errors of the
    text, the lines of the text being counted on from the lines of the
    source; and it throws what the scan of the text throws. *)
Theorem scanSource_lines_apart (head rest : string) (context : TypeContext)
  (errorHandler : ErrorLog) (tokens : list Token) (eof : Token)
  (errors : ErrorLog) :
  scanSource (head +:+ String "010" "") context errorHandler
  = Ok (tokens ++ [eof], errors) ->
  rest <> "" ->
  scanSource ((head +:+ String "010" "") +:+ rest) context errorHandler
  = match scanSource rest context [] with
    | Ok (tokens', errors') =>
        Ok (tokens ++ (moveToken (line eof - 1) <$> tokens'),
            errors ++ (moveError (line eof - 1) <$> errors'))
    | Throw e => Throw e
    end.
Proof.
  set (source := head +:+ String "010" ""). intros H Hrest.
  unfold scanSource in H.
  pose proof (scanTokens_sound (loopFuel (newScanState source context errorHandler))
                (newScanState source context errorHandler) []
                ltac:(unfold loopFuel; lia)) as Hsound.
  destruct (scanTokens _ (newScanState source context errorHandler) [])
    as [[sA tokensA]|e] eqn:E; [|done].
  unfold mbind, Result_bind in H. injection H as Htokens Herrors.
  apply app_inj_tail in Htokens as [-> <-]. cbn [line].
  destruct Hsound as (_ & Hcontext & _). cbn [fst] in Hcontext.
  pose proof (scanTokens_line _ _ _ _ _ E) as Hline.
  apply (scanTokens_local head rest) in E as (Hw & Hend & used & Hused & Hk);
    [|split; [done | cbn; lia]].
  destruct Hw as [Hs Hc]. unfold isAtEnd in Hend. apply Nat.leb_le in Hend.
  rewrite Hs in Hend. fold source in Hc, Hend.
  assert (Hcur : m_Current sA = String.length source) by lia.
  unfold loopFuel in Hused. cbn in Hused. rewrite Nat.sub_0_r in Hused.
  fold source in Hused.
  assert (Hlen : 0 < String.length rest) by (destruct rest; [done | cbn; lia]).
  unfold scanSource at 1.
  change (newScanState (source +:+ rest) context errorHandler)
    with (continued rest (newScanState source context errorHandler)).
  unfold loopFuel at 1. cbn [m_Source m_Current continued newScanState].
  rewrite length_append, Nat.sub_0_r.
  replace (S (String.length source + String.length rest))
    with (used + S (String.length source - used + String.length rest)) by lia.
  rewrite Hk.
  rewrite scanTokens_resetLexeme.
  2:{ unfold isAtEnd, continued. cbn [m_Source m_Current]. apply Nat.leb_gt.
      rewrite Hs. fold source. rewrite length_append. lia. }
  assert (Hstate :
    resetLexeme (continued rest sA)
    = moveState source (getLine sA - 1) errors
        (newScanState rest context [])).
  { unfold resetLexeme, continued, moveState, newScanState, getLine.
    cbn [m_Start m_Current m_Line m_Source m_Context m_ErrorHandler fmap
         list_fmap].
    rewrite app_nil_r, Hcur, Hs, Hcontext, Herrors. cbn in Hline.
    cbn [m_Context]. f_equal. lia. }
  rewrite Hstate.
  rewrite <- (app_nil_r tokens) at 1.
  change (tokens ++ []) with (moveTokens (getLine sA - 1) tokens []).
  rewrite scanTokens_move.
  pose proof (scanTokens_sound (loopFuel (newScanState rest context []))
                (newScanState rest context []) []
                ltac:(unfold loopFuel; lia)) as Hsound.
  rewrite (scanTokens_more (loopFuel (newScanState rest context [])));
    [| intros Heq; rewrite Heq in Hsound; by apply Hsound
     | unfold loopFuel; cbn; lia ].
  unfold scanSource.
  destruct (scanTokens _ (newScanState rest context []) [])
    as [[sB tokensB]|e]; [|done].
  unfold moveOutcome, mbind, Result_bind.
  rewrite emplaceToken_move. unfold moveTokens, moveState.
  cbn [m_ErrorHandler]. done.
Qed.

Lemma scanSource_lines_apart_witness :
  scanSource (("x" +:+ String "010" "") +:+ "y") ∅ []
  = match scanSource "y" ∅ [] with
    | Ok (tokens', errors') =>
        Ok ([mkToken IDENTIFIER "x" 1] ++ (moveToken (2 - 1) <$> tokens'),
            [] ++ (moveError (2 - 1) <$> errors'))
    | Throw e => Throw e
    end.
Proof.
  assert (H : scanSource ("x" +:+ String "010" "") ∅ []
              = Ok ([mkToken IDENTIFIER "x" 1]
                    ++ [mkToken END_OF_FILE (String "010" "") 2], []))
    by reflexivity.
  assert (Hrest : "y" <> "") by discriminate.
  exact (scanSource_lines_apart "x" "y" ∅ [] _ _ _ H Hrest).
Defined.

End LexicalFacts.

(** ** Type specifiers, promotion and conversion *)
Module NumericTypesFacts.
Import Numeric NumericTypes.


Lemma getNumericType_entry S t :
  getNumericType S = Some t -> numericTypes !! S = Some t.
Proof. unfold getNumericType. by destruct (numericTypes !! S). Qed.

Lemma numericTypes_Forall (P : gset string -> NumericBase -> Prop) :
  P {["char"]} Int8 -> P {["unsigned"; "char"]} Uint8 ->
  P {["short"]} Int16 -> P {["short"; "int"]} Int16 ->
  P {["signed"; "short"]} Int16 -> P {["signed"; "short"; "int"]} Int16 ->
  P {["unsigned"; "short"]} Uint16 -> P {["unsigned"; "short"; "int"]} Uint16 ->
  P {["int"]} Int32 -> P {["signed"]} Int32 -> P {["signed"; "int"]} Int32 ->
  P {["unsigned"]} Uint32 -> P {["unsigned"; "int"]} Uint32 ->
  P {["float"]} Float -> P {["double"]} Double ->
  forall S t, numericTypes !! S = Some t -> P S t.
Proof.
  intros H1 H2 H3 H4 H5 H6 H7 H8 H9 H10 H11 H12 H13 H14 H15 S t H.
  unfold numericTypes in H. simpl in H.
  repeat (apply lookup_insert_Some in H as [[HS Ht] | [_ H]];
          [by rewrite <- HS, <- Ht|]).
  by rewrite lookup_empty in H.
Qed.

(** The table of type specifiers.  A set of specifiers that names a type
    is not empty and holds only char, short, int, signed, unsigned, float
    and double; the type is unsigned exactly when the set holds unsigned,
    and it is never bool.  Every other set, such as the empty set, a set
    with long, and signed char, gives the null pointer. *)
Theorem getNumericType_table :
  (forall (typeSpecifiers : gset string) (type : NumericBase),
     getNumericType typeSpecifiers = Some type ->
     typeSpecifiers <> ∅ /\ typeSpecifiers ⊆ specifiers
     /\ ("unsigned" ∈ typeSpecifiers <-> isSigned type = false)
     /\ type <> Bool)
  /\ (forall typeSpecifiers : gset string,
        "long" ∈ typeSpecifiers -> getNumericType typeSpecifiers = None)
  /\ getNumericType ∅ = None
  /\ getNumericType {["signed"; "char"]} = None
  /\ getNumericType {["unsigned"; "short"; "int"]} = Some Uint16
  /\ getNumericType {["int"; "short"; "unsigned"]} = Some Uint16.
Proof.
  assert (Htable : forall (typeSpecifiers : gset string) (type : NumericBase),
     getNumericType typeSpecifiers = Some type ->
     typeSpecifiers <> ∅ /\ typeSpecifiers ⊆ specifiers
     /\ ("unsigned" ∈ typeSpecifiers <-> isSigned type = false)
     /\ type <> Bool).
  { intros S t H%getNumericType_entry. revert S t H.
    apply numericTypes_Forall;
      apply (bool_decide_unpack _); vm_compute; exact I. }
  split; [exact Htable|]. split.
  - intros S Hlong. destruct (getNumericType S) as [t|] eqn:E; [|done].
    apply Htable in E as (_ & Hsub & _).
    specialize (Hsub _ Hlong). by vm_compute in Hsub.
  - repeat split; vm_compute; reflexivity.
Qed.

Lemma getNumericType_table_witness :
  ("unsigned" ∈ ({["unsigned"; "char"]} : gset string) <-> isSigned Uint8 = false)
  /\ getNumericType {["long"; "int"]} = None.
Proof.
  destruct getNumericType_table as (Htable & Hlong & _).
  assert (H : getNumericType {["unsigned"; "char"]} = Some Uint8)
    by (vm_compute; reflexivity).
  assert (Hin : "long" ∈ ({["long"; "int"]} : gset string))
    by (apply (bool_decide_unpack _); vm_compute; exact I).
  split.
  - exact (proj1 (proj2 (proj2 (Htable _ _ H)))).
  - exact (Hlong _ Hin).
Defined.

(** Integer promotion.  Promoting a type twice is promoting it once; the
    promoted type has at least the rank of int32 and of the type; it is
    the type itself unless the type ranks below int32; and it holds every
    value of the type: promotion loses no value. *)
Theorem getPromotedType_promotes (type : NumericBase) :
  getPromotedType (getPromotedType type) = getPromotedType type
  /\ (getRank Int32 <= getRank (getPromotedType type))%Z
  /\ (getRank type <= getRank (getPromotedType type))%Z
  /\ ((getRank Int32 <= getRank type)%Z -> getPromotedType type = type)
  /\ (getMin (getPromotedType type) <= getMin type)%Q
  /\ (getMax type <= getMax (getPromotedType type))%Q.
Proof.
  destruct type; repeat split; try reflexivity;
    try (vm_compute; discriminate); intros H; vm_compute in H; by destruct H.
Qed.

(** The usual arithmetic conversions.  [getCommonType] never throws: the
    lookup in [unsignedType] is never reached with a type it does not
    hold.  The common type is the promoted type of one of the operands,
    it ranks at least as high as both promoted operands, and taking
    common types is associative. *)
Theorem getCommonType_conversions (a b c : NumericBase) :
  (exists common,
     getCommonType a b = Ok common
     /\ (common = getPromotedType a \/ common = getPromotedType b)
     /\ (getRank (getPromotedType a) <= getRank common)%Z
     /\ (getRank (getPromotedType b) <= getRank common)%Z)
  /\ (ab ← getCommonType a b; getCommonType ab c)
     = (bc ← getCommonType b c; getCommonType a bc).
Proof.
  split.
  - destruct a, b; eexists; (split; [reflexivity|]); (split; [auto; fail|]);
      split; vm_compute; discriminate.
  - destruct a, b, c; reflexivity.
Qed.

End NumericTypesFacts.

(** ** Scopes of the reset kernels *)
Module ScopesFacts.
Import CodeStream ModelSpec BackendSIMT Scopes.

Lemma depthAfter_app depth os ps :
  depthAfter depth (os ++ ps) = depthAfter depth os ≫= fun d => depthAfter d ps.
Proof.
  revert depth; induction os as [|p os IH]; intros depth; simpl; [done|].
  destruct p; try apply IH. destruct depth; [done | apply IH].
Qed.

Section Kernels.

Variable getKernelBlockSize : Kernel -> N.
Variable getPointerPrefix : string.
Variable genGroupMergedSearch : GroupMerged NeuronGroupInternal -> N -> string.
Variable genMergedGroupSpikeCountReset :
  GroupMerged NeuronGroupInternal -> N -> string.
Variable popSubs : string -> string.

Ltac scopes H :=
  repeat match goal with
         | |- context [if ?b then _ else _] => destruct b
         end;
  unfold write; rewrite ?depthAfter_app, H; reflexivity.

Lemma depthAfter_genPrevSpikeTimeBody os n idStart batchSize depth d :
  depthAfter depth os = Some d ->
  depthAfter depth
    (genPrevSpikeTimeBody genGroupMergedSearch genMergedGroupSpikeCountReset
       popSubs os n idStart batchSize) = Some d.
Proof.
  intros H.
  unfold genPrevSpikeTimeBody, genPrevTimeUpdate, batchLoopOpen, batchLoopClose.
  scopes H.
Qed.

Lemma depthAfter_genPreNeuronResetGroup batchSize os idStart n depth d :
  depthAfter depth os = Some d ->
  depthAfter depth
    (genPreNeuronResetGroup getKernelBlockSize getPointerPrefix
       genGroupMergedSearch genMergedGroupSpikeCountReset popSubs batchSize
       (os, idStart) n).1 = Some d.
Proof.
  intros H. unfold genPreNeuronResetGroup.
  destruct (_ || _); cbn [fst].
  - rewrite depthAfter_app.
    rewrite (depthAfter_genPrevSpikeTimeBody _ _ _ _ depth (S d)); [done|].
    unfold genRangeTest, write. destruct (_ =? _)%N;
      by rewrite !depthAfter_app, H.
  - unfold genRangeTest, batchLoopOpen, batchLoopClose. scopes H.
Qed.

Lemma depthAfter_genPreSynapseResetGroup os idStart
  (n : GroupMerged SynapseGroupInternal) depth d :
  depthAfter depth os = Some d ->
  depthAfter depth (genPreSynapseResetGroup getPointerPrefix (os, idStart) n).1
  = Some d.
Proof.
  intros H. unfold genPreSynapseResetGroup, genRangeTest. cbn [fst]. scopes H.
Qed.

Lemma depthAfter_fold {G : Type} (step : CodeStream * N -> G -> CodeStream * N)
  (groups : list G) depth d :
  (forall os idStart n,
     depthAfter depth os = Some d ->
     depthAfter depth (step (os, idStart) n).1 = Some d) ->
  forall os idStart,
    depthAfter depth os = Some d ->
    depthAfter depth (fold_left step groups (os, idStart)).1 = Some d.
Proof.
  intros Hstep. induction groups as [|n groups IH]; intros os idStart H; [done|].
  simpl. destruct (step (os, idStart) n) as [os' idStart'] eqn:E.
  apply IH. specialize (Hstep os idStart n H). by rewrite E in Hstep.
Qed.

(** Scopes.  The reset kernels close every scope they open, and close none
    that they did not open: after the code of either kernel the stream is
    at the nesting depth it was at before, for any merged groups and any
    batch size. *)
Theorem reset_kernels_scopes (os : CodeStream) (batchSize : N)
  (neuronGroups : list (GroupMerged NeuronGroupInternal))
  (synapseGroups : list (GroupMerged SynapseGroupInternal)) (depth d : nat) :
  depthAfter depth os = Some d ->
  depthAfter depth
    (genPreNeuronResetKernel getKernelBlockSize getPointerPrefix
       genGroupMergedSearch genMergedGroupSpikeCountReset popSubs
       os batchSize neuronGroups).1 = Some d
  /\ depthAfter depth
       (genPreSynapseResetKernel getPointerPrefix os synapseGroups).1 = Some d.
Proof.
  intros H. split.
  - unfold genPreNeuronResetKernel. apply depthAfter_fold; [|done].
    intros. by apply depthAfter_genPreNeuronResetGroup.
  - unfold genPreSynapseResetKernel.
    pose proof (depthAfter_fold (genPreSynapseResetGroup getPointerPrefix)
                  synapseGroups depth d) as Hfold.
    destruct (fold_left _ _ _) as [os' idStart] eqn:E. cbn [fst].
    unfold write. rewrite depthAfter_app.
    specialize (Hfold ltac:(intros; by apply depthAfter_genPreSynapseResetGroup)
                  os 0%N H).
    rewrite E in Hfold. simpl in Hfold. by rewrite Hfold.
Qed.

End Kernels.

Lemma reset_kernels_scopes_witness :
  depthAfter 0
    (Layout.preNeuronReset
       [Layout.merged 0 (Layout.neurons 100 true) [Layout.neurons 50 true];
        Layout.merged 1 (Layout.neurons 10 false) []]).1 = Some 0
  /\ depthAfter 0
       (Layout.preSynapseReset
          [Layout.merged 0 (Layout.synapses "S") []]).1 = Some 0.
Proof.
  exact (reset_kernels_scopes (fun _ => 32%N) "" (fun _ _ => "") (fun _ _ => "")
           (fun name => name) [] 1
           [Layout.merged 0 (Layout.neurons 100 true) [Layout.neurons 50 true];
            Layout.merged 1 (Layout.neurons 10 false) []]
           [Layout.merged 0 (Layout.synapses "S") []] 0 0 eq_refl).
Defined.

End ScopesFacts.

(** ** Numbers of threads *)
Module ThreadsFacts.
Import ModelSpec BackendSIMT Layout Threads KernelFacts.
Local Open Scope N_scope.

Lemma wrap_wrap x : SizeT.wrap (SizeT.wrap x) = SizeT.wrap x.
Proof. unfold SizeT.wrap. by rewrite N.Div0.mod_mod. Qed.

Lemma wrap_add_l a b : SizeT.wrap (SizeT.wrap a + b) = SizeT.wrap (a + b).
Proof. unfold SizeT.wrap. by rewrite N.Div0.add_mod_idemp_l. Qed.

Lemma wrap_add_r a b : SizeT.wrap (a + SizeT.wrap b) = SizeT.wrap (a + b).
Proof. unfold SizeT.wrap. by rewrite N.Div0.add_mod_idemp_r. Qed.

(** Accumulating in size_t gives the sum, modulo 2^64. *)
Lemma fold_add_wrap {A : Type} (f : A -> N) (l : list A) (acc : N) :
  SizeT.wrap (fold_left (fun acc x => SizeT.add acc (f x)) l acc)
  = SizeT.wrap (acc + N_sum (map f l)).
Proof.
  revert acc; induction l as [|x l IH]; intros acc; simpl.
  - by rewrite N.add_0_r.
  - rewrite IH. unfold SizeT.add. rewrite wrap_add_l. f_equal. lia.
Qed.

Lemma fold_add_wrapped {A : Type} (f : A -> N) (l : list A) (acc : N) :
  SizeT.wrap acc = acc ->
  SizeT.wrap (fold_left (fun acc x => SizeT.add acc (f x)) l acc)
  = fold_left (fun acc x => SizeT.add acc (f x)) l acc.
Proof.
  revert acc; induction l as [|x l IH]; intros acc H; simpl; [done|].
  apply IH. unfold SizeT.add. apply wrap_wrap.
Qed.

Lemma getNumMergedGroupThreads_fold {G : Type} (groups : list (GroupMerged G))
  (getNumThreads : G -> N) (acc : N) :
  SizeT.wrap acc = acc ->
  fold_left
    (fun acc n =>
       fold_left (fun acc g => SizeT.add acc (getNumThreads g)) (getGroups n) acc)
    groups acc
  = SizeT.wrap (acc + N_sum (map getNumThreads (allGroups groups))).
Proof.
  revert acc; induction groups as [|n groups IH]; intros acc H.
  - simpl. by rewrite N.add_0_r.
  - cbn [fold_left].
    rewrite IH by by apply (fold_add_wrapped getNumThreads).
    unfold allGroups. cbn [map concat]. rewrite map_app, N_sum_app.
    rewrite <- (fold_add_wrapped getNumThreads _ acc H), fold_add_wrap.
    rewrite wrap_add_l. f_equal. lia.
Qed.

Lemma N_sum_Permutation l1 l2 : Permutation l1 l2 -> N_sum l1 = N_sum l2.
Proof. induction 1; simpl; lia. Qed.

(** The threads of merged groups.  [getNumMergedGroupThreads] is the sum,
    modulo 2^64, of the thread counts of all the groups in the merged
    groups: it does not depend on how the groups are merged, nor on their
    order. *)
Theorem getNumMergedGroupThreads_groups {G : Type}
  (groups groups' : list (GroupMerged G)) (getNumThreads : G -> N) :
  getNumMergedGroupThreads groups getNumThreads
  = SizeT.wrap (N_sum (map getNumThreads (allGroups groups)))
  /\ (Permutation (allGroups groups) (allGroups groups') ->
      getNumMergedGroupThreads groups getNumThreads
      = getNumMergedGroupThreads groups' getNumThreads)
  /\ getNumMergedGroupThreads (groups ++ groups') getNumThreads
     = SizeT.add (getNumMergedGroupThreads groups getNumThreads)
         (getNumMergedGroupThreads groups' getNumThreads).
Proof.
  assert (Hflat : forall gs : list (GroupMerged G),
            getNumMergedGroupThreads gs getNumThreads
            = SizeT.wrap (N_sum (map getNumThreads (allGroups gs)))).
  { intros gs. unfold getNumMergedGroupThreads.
    by rewrite getNumMergedGroupThreads_fold. }
  split; [apply Hflat|]. split.
  - intros Hperm. rewrite !Hflat. f_equal. apply N_sum_Permutation.
    by apply Permutation_map.
  - rewrite !Hflat. unfold allGroups, SizeT.add.
    rewrite map_app, concat_app, map_app, N_sum_app.
    by rewrite wrap_add_l, wrap_add_r.
Qed.

Lemma getNumMergedGroupThreads_groups_witness :
  getNumMergedGroupThreads
    [merged 0 (neurons 10 false) [neurons 20 false]; merged 1 (neurons 30 false) []]
    getNumNeurons
  = getNumMergedGroupThreads
      [merged 0 (neurons 30 false) []; merged 1 (neurons 20 false) [neurons 10 false]]
      getNumNeurons.
Proof.
  apply (getNumMergedGroupThreads_groups
           [merged 0 (neurons 10 false) [neurons 20 false];
            merged 1 (neurons 30 false) []]
           [merged 0 (neurons 30 false) [];
            merged 1 (neurons 20 false) [neurons 10 false]] getNumNeurons).
  unfold allGroups. simpl.
  apply (Permutation_rev [neurons 10 false; neurons 20 false; neurons 30 false]).
Defined.


Section Threads.

Variable getKernelBlockSize : Kernel -> N.
Variables getSrcNeuronGroup getTrgNeuronGroup :
  SynapseGroupInternal -> NeuronGroupInternal.
Variables getMaxConnections getMaxSourceConnections : SynapseGroupInternal -> N.
Variable isSparse : SynapseGroupInternal -> bool.
Variables getRowBuildCode getColBuildCode : SynapseGroupInternal -> string.

Lemma getNumMergedGroupThreads_flat {G : Type} (groups : list (GroupMerged G))
  (getNumThreads : G -> N) :
  getNumMergedGroupThreads groups getNumThreads
  = SizeT.wrap (N_sum (map getNumThreads (allGroups groups))).
Proof.
  unfold getNumMergedGroupThreads. by rewrite getNumMergedGroupThreads_fold.
Qed.

Lemma N_sum_padSize (sizes : list (N * N)) :
  Forall (fun p => 0 < p.2 /\ p.1 + p.2 < SizeT.modulus) sizes ->
  N_sum (map (fun p => padSize p.1 p.2) sizes)
  = N_sum (map (fun p => roundUp p.1 p.2) sizes).
Proof.
  induction 1 as [|p sizes [Hb Hp] _ IH]; simpl; [done|].
  by rewrite padSize_exact, IH.
Qed.

Lemma N_sum_roundUp_ge (sizes : list (N * N)) :
  Forall (fun p => 0 < p.2 /\ p.1 + p.2 < SizeT.modulus) sizes ->
  N_sum (map fst sizes) <= N_sum (map (fun p => roundUp p.1 p.2) sizes).
Proof.
  induction 1 as [|p sizes [Hb Hp] _ IH]; simpl; [done|].
  pose proof (roundUp_ge p.1 p.2 Hb). lia.
Qed.

Lemma N_sum_roundUp_divide d (sizes : list (N * N)) :
  Forall (fun p => (d | p.2)) sizes ->
  (d | N_sum (map (fun p => roundUp p.1 p.2) sizes)).
Proof.
  induction 1 as [|p sizes Hd _ IH]; simpl; [apply N.divide_0_r|].
  apply N.divide_add_r; [|done].
  etrans; [exact Hd | apply roundUp_divide].
Qed.

(** The streams of the initialisation kernels.  When no size_t
    computation overflows, [getNumInitialisationRNGStreams] is the sum of
    the sizes of all the groups the initialisation kernels work on, each
    rounded up to whole blocks of its kernel: there is at least one stream
    for every item that is initialised, and the number of streams is a
    multiple of every number that divides the block sizes. *)
Theorem getNumInitialisationRNGStreams_enough
  (neuronInit : list (GroupMerged NeuronGroupInternal))
  (dense connectivity sparse : list (GroupMerged SynapseGroupInternal)) :
  let sizes :=
    initialisationSizes getKernelBlockSize getSrcNeuronGroup getTrgNeuronGroup
      getMaxConnections neuronInit dense connectivity sparse in
  let streams :=
    getNumInitialisationRNGStreams getKernelBlockSize getSrcNeuronGroup
      getTrgNeuronGroup getMaxConnections neuronInit dense connectivity sparse in
  Forall (fun p => 0 < p.2 /\ p.1 + p.2 < SizeT.modulus) sizes ->
  N_sum (map (fun p => roundUp p.1 p.2) sizes) < SizeT.modulus ->
  streams = N_sum (map (fun p => roundUp p.1 p.2) sizes)
  /\ N_sum (map fst sizes) <= streams
  /\ (forall d, Forall (fun p => (d | p.2)) sizes -> (d | streams)).
Proof.
  intros sizes streams Hfit Hsum.
  assert (E : streams = N_sum (map (fun p => roundUp p.1 p.2) sizes)).
  { rewrite <- N_sum_padSize by done.
    rewrite <- N_sum_padSize in Hsum by done.
    unfold streams, getNumInitialisationRNGStreams.
    rewrite !getNumMergedGroupThreads_flat. unfold SizeT.add.
    rewrite !wrap_add_l, !wrap_add_r.
    unfold sizes, initialisationSizes, allGroups in *.
    rewrite !map_app, !map_map, !N_sum_app in Hsum |- *.
    cbn [fst snd] in Hsum |- *.
    repeat match goal with
           | H : context [N_sum ?l] |- _ =>
               lazymatch l with
               | map _ _ => generalize dependent (N_sum l); intros
               end
           end.
    repeat match goal with
           | |- context [SizeT.wrap ?x] =>
               lazymatch x with
               | context [SizeT.wrap _] => fail
               | _ => rewrite (wrap_small x) by lia
               end
           end.
    lia. }
  rewrite E. split; [done|]. split.
  - by apply N_sum_roundUp_ge.
  - intros d Hd. by apply N_sum_roundUp_divide.
Qed.

(** The threads of the synapse dynamics kernel.  The two counts that
    [getNumSynapseDynamicsThreads] multiplies are unsigned int values;
    their product, taken in size_t, does not overflow. *)
Theorem getNumSynapseDynamicsThreads_exact (sg : SynapseGroupInternal) :
  getNumNeurons (getSrcNeuronGroup sg) < 2 ^ 32 ->
  getNumNeurons (getTrgNeuronGroup sg) < 2 ^ 32 ->
  getMaxConnections sg < 2 ^ 32 ->
  getNumSynapseDynamicsThreads getSrcNeuronGroup getTrgNeuronGroup
    getMaxConnections isSparse sg
  = getNumNeurons (getSrcNeuronGroup sg)
    * (if isSparse sg then getMaxConnections sg
       else getNumNeurons (getTrgNeuronGroup sg)).
Proof.
  intros Hsrc Htrg Hmax. unfold getNumSynapseDynamicsThreads, SizeT.mul.
  destruct (isSparse sg); apply wrap_small; unfold SizeT.modulus;
    change (2 ^ 64) with (2 ^ 32 * 2 ^ 32); nia.
Qed.

(** The threads of connectivity initialisation.  The call throws exactly
    when the snippet has neither row nor column build code; with row build
    code the count is the number of source neurons, whether there is
    column build code or not. *)
Theorem getNumConnectivityInitThreads_code (sg : SynapseGroupInternal) :
  (getNumConnectivityInitThreads getSrcNeuronGroup getTrgNeuronGroup
     getRowBuildCode getColBuildCode sg
   = Throw (runtime_error
       "Cannot calculate number of connectivity init threads without connectivity building code")
   <-> getRowBuildCode sg = "" /\ getColBuildCode sg = "")
  /\ (getRowBuildCode sg <> "" ->
      getNumConnectivityInitThreads getSrcNeuronGroup getTrgNeuronGroup
        getRowBuildCode getColBuildCode sg
      = Ok (getNumNeurons (getSrcNeuronGroup sg)))
  /\ (getRowBuildCode sg = "" -> getColBuildCode sg <> "" ->
      getNumConnectivityInitThreads getSrcNeuronGroup getTrgNeuronGroup
        getRowBuildCode getColBuildCode sg
      = Ok (getNumNeurons (getTrgNeuronGroup sg))).
Proof.
  unfold getNumConnectivityInitThreads.
  destruct (getRowBuildCode sg), (getColBuildCode sg); simpl;
    repeat split; try done; try (by intros []); intros; congruence.
Qed.

End Threads.


Lemma getNumInitialisationRNGStreams_enough_witness :
  getNumInitialisationRNGStreams (fun _ => 32) (fun _ => neurons 100 false)
    (fun _ => neurons 50 false) (fun _ => 10)
    [merged 0 (neurons 100 false) []] [merged 0 (synapses "S") []] [] []
  = 192
  /\ (32 | getNumInitialisationRNGStreams (fun _ => 32) (fun _ => neurons 100 false)
             (fun _ => neurons 50 false) (fun _ => 10)
             [merged 0 (neurons 100 false) []] [merged 0 (synapses "S") []] [] []).
Proof.
  assert (Hfit : Forall (fun p : N * N => 0 < p.2 /\ p.1 + p.2 < SizeT.modulus)
                   [(100, 32); (50, 32)]).
  { repeat constructor. }
  assert (Hsum : N_sum (map (fun p : N * N => roundUp p.1 p.2) [(100, 32); (50, 32)])
                 < SizeT.modulus) by reflexivity.
  destruct (getNumInitialisationRNGStreams_enough (fun _ => 32)
              (fun _ => neurons 100 false) (fun _ => neurons 50 false)
              (fun _ => 10)
              [merged 0 (neurons 100 false) []] [merged 0 (synapses "S") []] [] []
              Hfit Hsum) as (E & _ & Hdiv).
  split; [exact E|]. apply Hdiv. repeat constructor; simpl; reflexivity.
Defined.

Lemma getNumSynapseDynamicsThreads_exact_witness :
  getNumSynapseDynamicsThreads (fun _ => neurons 100 false)
    (fun _ => neurons 50 false) (fun _ => 10) (fun _ => true) (synapses "S")
  = 1000.
Proof.
  exact (getNumSynapseDynamicsThreads_exact (fun _ => neurons 100 false)
           (fun _ => neurons 50 false) (fun _ => 10) (fun _ => true)
           (synapses "S") eq_refl eq_refl eq_refl).
Defined.

Lemma getNumConnectivityInitThreads_code_witness :
  getNumConnectivityInitThreads (fun _ => neurons 100 false)
    (fun _ => neurons 50 false) (fun _ => "") (fun _ => "") (synapses "S")
  = Throw (runtime_error
      "Cannot calculate number of connectivity init threads without connectivity building code")
  /\ getNumConnectivityInitThreads (fun _ => neurons 100 false)
       (fun _ => neurons 50 false) (fun _ => "row") (fun _ => "col")
       (synapses "S")
     = Ok 100.
Proof.
  split.
  - apply (getNumConnectivityInitThreads_code (fun _ => neurons 100 false)
             (fun _ => neurons 50 false) (fun _ => "") (fun _ => "")
             (synapses "S")).
    by split.
  - apply (getNumConnectivityInitThreads_code (fun _ => neurons 100 false)
             (fun _ => neurons 50 false) (fun _ => "row") (fun _ => "col")
             (synapses "S")).
    discriminate.
Defined.

End ThreadsFacts.

(** ** The registry and the thread counts *)
Module RegistryFacts.
Import ModelSpec BackendSIMT Threads Examples StrategyFacts.

Section Registry.

Context {PreferencesBase : Type}.
Implicit Types (strategy : Strategy PreferencesBase).
Implicit Types (registry : list (Strategy PreferencesBase)).

(** Registration and the thread count.  The number of presynaptic update
    threads of a synapse group is the number the last registered strategy
    that is compatible with it gives, and the call throws the runtime
    error of the lookup when there is none.  Registering a strategy that
    is not compatible with the synapse group does not change its number
    of threads; registering a compatible one makes it the new strategy's,
    whatever was registered before. *)
Theorem getNumPresynapticUpdateThreads_registration registry strategy sg
  (preferences : PreferencesBase) :
  getNumPresynapticUpdateThreads _ registry sg preferences
  = match last (List.filter (fun s => isCompatible _ s sg preferences) registry) with
    | Some selected => Ok (getNumThreads _ selected sg)
    | None =>
        Throw (runtime_error
          ("Unable to find a suitable presynaptic update strategy for synapse group '"
           +:+ getName sg +:+ "'"))
    end
  /\ (forall e,
        getPresynapticUpdateStrategy _ registry sg preferences = Throw e ->
        getNumPresynapticUpdateThreads _ registry sg preferences = Throw e)
  /\ getNumPresynapticUpdateThreads _
       (addPresynapticUpdateStrategy _ registry strategy) sg preferences
     = (if isCompatible _ strategy sg preferences
        then Ok (getNumThreads _ strategy sg)
        else getNumPresynapticUpdateThreads _ registry sg preferences).
Proof.
  unfold getNumPresynapticUpdateThreads.
  split; [|split].
  - unfold getPresynapticUpdateStrategy. rewrite findCompatible_last.
    by destruct (last _).
  - intros e H. by rewrite H.
  - unfold getPresynapticUpdateStrategy, addPresynapticUpdateStrategy.
    rewrite findCompatible_rev_snoc.
    by destruct (isCompatible _ strategy sg preferences).
Qed.

End Registry.

Lemma getNumPresynapticUpdateThreads_registration_witness :
  getNumPresynapticUpdateThreads unit [] someSynapseGroup tt
  = Throw (runtime_error
      "Unable to find a suitable presynaptic update strategy for synapse group 'Syn'").
Proof.
  exact (proj1 (proj2 (getNumPresynapticUpdateThreads_registration
                         [] (accepting 1) someSynapseGroup tt)) _ eq_refl).
Defined.

End RegistryFacts.

(** ** Device types *)
Module DeviceTypesFacts.
Import DeviceTypes.

Section DeviceTypes.

Variable isTypePointer : string -> bool.
Variable getUnderlyingType : string -> string.
Variable BackendBase : Type.
Variable addType : string -> N -> BackendBase -> BackendBase.

Local Abbreviation addDeviceType := (addDeviceType BackendBase addType).
Local Abbreviation isDeviceType :=
  (isDeviceType isTypePointer getUnderlyingType BackendBase).

(** Device types.  After [addDeviceType] a type is a device type when its
    underlying type is the registered one or it was a device type before:
    a registered type that is not a pointer type is a device type, and so
    is every pointer type whose underlying type it is; no registration
    makes a device type cease to be one.  A type registered under a
    pointer type's name is looked up by its underlying type: it is a
    device type only if that underlying type is one. *)
Theorem isDeviceType_addDeviceType (this : BackendSIMT BackendBase)
  (type : string) (size : N) (queried : string) :
  let underlying :=
    if isTypePointer queried then getUnderlyingType queried else queried in
  isDeviceType (addDeviceType this type size) queried
  = bool_decide (underlying = type) || isDeviceType this queried
  /\ (isTypePointer type = false ->
      isDeviceType (addDeviceType this type size) type = true)
  /\ (isTypePointer queried = true -> getUnderlyingType queried = type ->
      isDeviceType (addDeviceType this type size) queried = true)
  /\ (isDeviceType this queried = true ->
      isDeviceType (addDeviceType this type size) queried = true)
  /\ (isTypePointer type = true -> getUnderlyingType type <> type ->
      isDeviceType (addDeviceType this type size) type
      = isDeviceType this type).
Proof.
  intros underlying.
  assert (E : forall q,
            isDeviceType (addDeviceType this type size) q
            = bool_decide ((if isTypePointer q then getUnderlyingType q else q)
                           = type)
              || isDeviceType this q).
  { intros q. unfold DeviceTypes.isDeviceType, DeviceTypes.addDeviceType.
    cbn [m_DeviceTypes].
    rewrite <- bool_decide_or. apply bool_decide_ext.
    by rewrite elem_of_union, elem_of_singleton. }
  split; [apply E|]. repeat split.
  - intros Hp. rewrite E, Hp. by rewrite bool_decide_eq_true_2.
  - intros Hp Hu. rewrite E, Hp. by rewrite bool_decide_eq_true_2.
  - intros H. rewrite E, H. apply orb_true_r.
  - intros Hp Hne. rewrite E, Hp. by rewrite bool_decide_eq_false_2.
Qed.

End DeviceTypes.

Lemma isDeviceType_addDeviceType_witness :
  DeviceTypes.isDeviceType (fun _ => false) id unit
    (DeviceTypes.addDeviceType unit (fun _ _ b => b)
       {| base := tt; m_DeviceTypes := ∅ |} "half" 2) "half" = true.
Proof.
  exact (proj1 (proj2 (isDeviceType_addDeviceType (fun _ => false) id unit
                         (fun _ _ b => b)
                         {| base := tt; m_DeviceTypes := ∅ |} "half" 2 "half"))
           eq_refl).
Defined.

End DeviceTypesFacts.

(** ** Push and pull functions *)
Module PushPullFacts.
Import CodeStream PushPull.

Section PushPull.

Variables HOST DEVICE : N.

Local Abbreviation canPushPullVar := (canPushPullVar HOST DEVICE).
Local Abbreviation genVarPushPullScope := (genVarPushPullScope HOST DEVICE).
Local Abbreviation genVarPushPullScopeState :=
  (genVarPushPullScopeState HOST DEVICE).
Local Abbreviation genVarsPushPull := (genVarsPushPull HOST DEVICE).
Local Abbreviation pushable := (pushable HOST DEVICE).

Ltac els := rewrite ?elem_of_app, ?elem_of_cons; auto 10.

Lemma genVarPushPullScopeState_skip s loc description fns handler :
  canPushPullVar loc = false ->
  genVarPushPullScopeState s loc description fns handler = (s, fns).
Proof.
  intros H. unfold PushPull.genVarPushPullScopeState, PushPull.genVarPushPullScope.
  by rewrite H.
Qed.

Lemma genVarPushPullScopeState_push s loc description fns handler :
  canPushPullVar loc = true ->
  genVarPushPullScopeState s loc description fns handler =
    ({| definitionsFunc :=
          definitionsFunc s
          ++ [pushDeclaration description; pullDeclaration description];
        runnerPushFunc :=
          runnerPushFunc s
          ++ [pushHead description; OB] ++ handler.1 ++ [CB; Str endl];
        runnerPullFunc :=
          runnerPullFunc s
          ++ [pullHead description; OB] ++ handler.2 ++ [CB; Str endl] |},
     fns ++ [description]).
Proof.
  intros H. unfold PushPull.genVarPushPullScopeState, PushPull.genVarPushPullScope.
  rewrite H. unfold write, pushDeclaration, pullDeclaration, pushHead, pullHead.
  f_equal. f_equal; by rewrite <- !app_assoc.
Qed.

(** What the calls for the variables of a population leave: the functions
    registered, and streams that hold all they held before, the
    declarations and the definitions of the functions registered. *)
Lemma genVarsPushPull_spec vars : forall s fns s' fns',
  genVarsPushPull s vars fns = (s', fns') ->
  fns' = fns ++ pushable vars
  /\ (forall p, p ∈ definitionsFunc s -> p ∈ definitionsFunc s')
  /\ (forall p, p ∈ runnerPushFunc s -> p ∈ runnerPushFunc s')
  /\ (forall p, p ∈ runnerPullFunc s -> p ∈ runnerPullFunc s')
  /\ (forall f, f ∈ pushable vars ->
        pushDeclaration f ∈ definitionsFunc s'
        /\ pullDeclaration f ∈ definitionsFunc s'
        /\ pushHead f ∈ runnerPushFunc s'
        /\ pullHead f ∈ runnerPullFunc s').
Proof.
  induction vars as [|[[loc description] handler] vars IH]; intros s fns s' fns'.
  - intros [= <- <-]. rewrite app_nil_r. do 4 (split; [done|]).
    intros f Hf. by apply elem_of_nil in Hf.
  - unfold PushPull.genVarsPushPull. cbn [fold_left].
    unfold PushPull.pushable. cbn [List.filter map fst snd].
    destruct (canPushPullVar loc) eqn:Hloc.
    + rewrite genVarPushPullScopeState_push by done.
      intros (-> & Hd & Hpush & Hpull & Hfns)%IH.
      cbn [definitionsFunc runnerPushFunc runnerPullFunc] in Hd, Hpush, Hpull.
      cbn [map fst snd]. fold (pushable vars).
      split; [by rewrite <- app_assoc|].
      split; [intros p Hp; apply Hd; els|].
      split; [intros p Hp; apply Hpush; els|].
      split; [intros p Hp; apply Hpull; els|].
      intros f [-> | Hf]%elem_of_cons; [|by apply Hfns].
      repeat split; [apply Hd | apply Hd | apply Hpush | apply Hpull]; els.
    + rewrite genVarPushPullScopeState_skip by done. apply IH.
Qed.

Lemma genStatePushPull_fold fns push pull :
  fold_left
    (fun '(runnerPushFunc, runnerPullFunc) func =>
       (write runnerPushFunc
          ("push" +:+ func +:+ "ToDevice(uninitialisedOnly);" +:+ endl),
        write runnerPullFunc ("pull" +:+ func +:+ "FromDevice();" +:+ endl)))
    fns (push, pull)
  = (push ++ map pushCall fns, pull ++ map pullCall fns).
Proof.
  revert push pull; induction fns as [|f fns IH]; intros push pull; simpl.
  - by rewrite !app_nil_r.
  - rewrite IH. unfold write. by rewrite <- !app_assoc.
Qed.

(** State push and pull.  A variable that is not on both host and device
    gets no push or pull function and is not registered.  After the calls
    for the variables of a population, the functions [genStatePushPull]
    writes call the push and the pull function of exactly the variables
    that are on both host and device, in the order of the calls; each
    function called is declared in the definitions and defined in the
    runner, and nothing written to the streams before is lost. *)
Theorem genStatePushPull_calls (s : Streams) (vars : list Variable_)
  (name : string) :
  let '(s1, fns) := genVarsPushPull s vars [] in
  let s2 := genStatePushPull s1 name fns in
  fns = pushable vars
  /\ runnerPushFunc s2
     = runnerPushFunc s1
       ++ [Str ("void push" +:+ name +:+ "StateToDevice(bool uninitialisedOnly)"); OB]
       ++ map pushCall fns ++ [CB; Str endl]
  /\ runnerPullFunc s2
     = runnerPullFunc s1
       ++ [Str ("void pull" +:+ name +:+ "StateFromDevice()"); OB]
       ++ map pullCall fns ++ [CB; Str endl]
  /\ (forall f, f ∈ fns ->
        pushDeclaration f ∈ definitionsFunc s2
        /\ pullDeclaration f ∈ definitionsFunc s2
        /\ pushHead f ∈ runnerPushFunc s2
        /\ pullHead f ∈ runnerPullFunc s2)
  /\ (forall p, p ∈ definitionsFunc s -> p ∈ definitionsFunc s2)
  /\ (forall p, p ∈ runnerPushFunc s -> p ∈ runnerPushFunc s2)
  /\ (forall p, p ∈ runnerPullFunc s -> p ∈ runnerPullFunc s2)
  /\ (forall loc description handler registered,
        canPushPullVar loc = false ->
        genVarPushPullScopeState s loc description registered handler
        = (s, registered)).
Proof.
  destruct (genVarsPushPull s vars []) as [s1 fns] eqn:E.
  apply genVarsPushPull_spec in E as (-> & Hd & Hpush & Hpull & Hfns).
  cbn [app] in *.
  assert (Epush : runnerPushFunc (genStatePushPull s1 name (pushable vars))
     = runnerPushFunc s1
       ++ [Str ("void push" +:+ name +:+ "StateToDevice(bool uninitialisedOnly)"); OB]
       ++ map pushCall (pushable vars) ++ [CB; Str endl]).
  { unfold genStatePushPull. rewrite genStatePushPull_fold. unfold write.
    cbn [runnerPushFunc]. by rewrite <- !app_assoc. }
  assert (Epull : runnerPullFunc (genStatePushPull s1 name (pushable vars))
     = runnerPullFunc s1
       ++ [Str ("void pull" +:+ name +:+ "StateFromDevice()"); OB]
       ++ map pullCall (pushable vars) ++ [CB; Str endl]).
  { unfold genStatePushPull. rewrite genStatePushPull_fold. unfold write.
    cbn [runnerPullFunc]. by rewrite <- !app_assoc. }
  assert (Edef : forall p, p ∈ definitionsFunc s1 ->
            p ∈ definitionsFunc (genStatePushPull s1 name (pushable vars))).
  { intros p Hp. unfold genStatePushPull. rewrite genStatePushPull_fold.
    unfold write. cbn [definitionsFunc]. els. }
  cbv zeta. split; [done|]. split; [exact Epush|]. split; [exact Epull|].
  split.
  { intros f Hf. destruct (Hfns f Hf) as (H1 & H2 & H3 & H4).
    rewrite Epush, Epull. repeat split; [by apply Edef | by apply Edef | |];
      apply elem_of_app; by left. }
  split; [intros p Hp; by apply Edef, Hd|].
  split; [intros p Hp; rewrite Epush; apply elem_of_app; left; by apply Hpush|].
  split; [intros p Hp; rewrite Epull; apply elem_of_app; left; by apply Hpull|].
  intros. by apply genVarPushPullScopeState_skip.
Qed.

End PushPull.

End PushPullFacts.

(** ** Merged structs *)
Module MergedStructFacts.
Import CodeStream ModelSpec MergedStruct.

Section MergedStructGenerator.

Variable GroupInternal : Type.
Variable getName : GroupInternal -> string.

Local Abbreviation Generator := (MergedStructGenerator GroupInternal).

Lemma fold_write {A : Type} (f : A -> string) (l : list A) (os : CodeStream) :
  fold_left (fun os x => write os (f x)) l os = os ++ map (fun x => Str (f x)) l.
Proof.
  revert os; induction l as [|x l IH]; intros os; simpl.
  - by rewrite app_nil_r.
  - rewrite IH. unfold write. by rewrite <- app_assoc.
Qed.

Lemma fold_rows (fields : list (string * GetFieldValueFunc GroupInternal))
  (groups : list GroupInternal) (os : CodeStream) :
  fold_left
    (fun os sg =>
       let os := write os "{" in
       let os := fold_left (fun os f => write os (f.2 sg +:+ ", ")) fields os in
       write os ("}," +:+ endl))
    groups os
  = os ++ concat (map (row GroupInternal fields) groups).
Proof.
  revert os; induction groups as [|sg groups IH]; intros os; simpl.
  - by rewrite app_nil_r.
  - rewrite IH, (fold_write (fun f => f.2 sg +:+ ", ")). unfold write, row.
    by rewrite <- !app_assoc.
Qed.

Lemma m_Fields_addVars (this : Generator) vars prefix :
  m_Fields _ (addVars _ getName this vars prefix)
  = m_Fields _ this
    ++ map (fun v => (CustomUpdate.type v +:+ " *" +:+ CustomUpdate.name v,
                      fun g => (prefix +:+ CustomUpdate.name v) +:+ getName g))
         vars
  /\ m_MergedGroup _ (addVars _ getName this vars prefix) = m_MergedGroup _ this.
Proof.
  unfold addVars. revert this; induction vars as [|v vars IH]; intros this;
    cbn [fold_left map].
  - by rewrite app_nil_r.
  - destruct (IH (addPointerField _ getName this
                    (CustomUpdate.type v +:+ " *" +:+ CustomUpdate.name v)
                    (prefix +:+ CustomUpdate.name v))) as [-> ->].
    unfold addPointerField, addField. cbn [m_Fields m_MergedGroup].
    by rewrite <- app_assoc.
Qed.

Lemma m_Fields_addEGPs (this : Generator) egps :
  m_Fields _ (addEGPs _ getName this egps)
  = m_Fields _ this
    ++ map (fun e => (egpType e +:+ " " +:+ egpName e,
                      fun g => egpName e +:+ getName g)) egps
  /\ m_MergedGroup _ (addEGPs _ getName this egps) = m_MergedGroup _ this.
Proof.
  unfold addEGPs. revert this; induction egps as [|e egps IH]; intros this;
    cbn [fold_left map].
  - by rewrite app_nil_r.
  - destruct (IH (addField _ this (egpType e +:+ " " +:+ egpName e)
                    (fun g => egpName e +:+ getName g))) as [-> ->].
    unfold addField. cbn [m_Fields m_MergedGroup].
    by rewrite <- app_assoc.
Qed.

(** The merged struct and its array.  The struct [generate] declares has
    one member for each field, in the order the fields were added; the
    array has one row for each group of the merged group, and every row
    gives one value for each field, in the same order: the values of a
    row line up with the members of the struct.  Adding extra global
    parameters and variables keeps the fields there were and puts one
    field for each of them after these, in their order. *)
Theorem generate_rows (this : Generator) (egps : list EGP)
  (vars : list CustomUpdate.Var) (prefix name : string)
  (definitionsInternal definitionsInternalFunc runnerVarAlloc : CodeStream) :
  let generator := addVars _ getName (addEGPs _ getName this egps) vars prefix in
  let fields := m_Fields _ generator in
  let groups := getGroups (m_MergedGroup _ this) in
  let index := pretty (getIndex (m_MergedGroup _ this)) in
  let '(definitionsInternal', _, runnerVarAlloc') :=
    generate _ generator definitionsInternal definitionsInternalFunc
      runnerVarAlloc name in
  fields
  = m_Fields _ this
    ++ map (fun e => (egpType e +:+ " " +:+ egpName e,
                      fun g => egpName e +:+ getName g)) egps
    ++ map (fun v => (CustomUpdate.type v +:+ " *" +:+ CustomUpdate.name v,
                      fun g => (prefix +:+ CustomUpdate.name v) +:+ getName g))
         vars
  /\ definitionsInternal'
     = definitionsInternal
       ++ [Str ("struct Merged" +:+ name +:+ "Group" +:+ index +:+ endl); OB]
       ++ map (member _) fields ++ [Str endl; CB; Str (";" +:+ endl)]
  /\ runnerVarAlloc'
     = runnerVarAlloc
       ++ [Str ("Merged" +:+ name +:+ "Group" +:+ index +:+ " merged" +:+ name
                +:+ "Group" +:+ index +:+ "[] = "); OB]
       ++ concat (map (row _ fields) groups)
       ++ [CB; Str (";" +:+ endl);
           Str ("pushMerged" +:+ name +:+ "Group" +:+ index
                +:+ "ToDevice(merged" +:+ name +:+ "Group" +:+ index +:+ ");"
                +:+ endl)].
Proof.
  intros generator fields groups index.
  destruct (m_Fields_addEGPs this egps) as [Fe Ge].
  destruct (m_Fields_addVars (addEGPs _ getName this egps) vars prefix) as [Fv Gv].
  unfold generate. fold generator in Fv, Gv. rewrite Gv, Ge.
  fold index groups fields.
  rewrite (fold_write (fun f : string * GetFieldValueFunc GroupInternal =>
                         f.1 +:+ ";" +:+ endl)), fold_rows.
  unfold write. split; [unfold fields; by rewrite Fv, Fe, <- app_assoc|].
  split; by rewrite <- !app_assoc.
Qed.

End MergedStructGenerator.

End MergedStructFacts.

(** ** The type environment of a merged group *)
Module TypeEnvironmentFacts.
Import Scanner TypeEnvironment.

(** The type environment of a merged group.  For a name that is not
    declared [getType] asks the enclosing environment, when there is one,
    and otherwise reports [Undefined variable] at the token and throws
    TypeCheckError.  Such a name can be declared; from then on [getType]
    gives its type for every token with that lexeme, whatever the
    enclosing environment holds, and reports nothing; the types of other
    names are as before; and a second declaration of the name throws the
    runtime error [Redeclaration of '<name>']. *)
Theorem define_getType (this : GroupMergedTypeEnvironment) (name : string)
  (type : TypeBase) (isConstValue isConstPointer : bool) :
  m_Types this !! name = None ->
  exists declared,
    define this name type isConstValue isConstPointer = Ok declared
    /\ (forall token errorHandler,
          lexeme token = name ->
          getType this token errorHandler
          = match m_Enclosing this with
            | Some enclosing => enclosing token errorHandler
            | None =>
                (inl typeCheckError,
                 errorHandler ++ [(token, "Undefined variable")])
            end)
    /\ (forall token errorHandler,
          lexeme token = name ->
          getType declared token errorHandler
          = (inr {| qualifiedType := type; constValue := isConstValue;
                    constPointer := isConstPointer |}, errorHandler))
    /\ (forall token errorHandler,
          lexeme token <> name ->
          getType declared token errorHandler = getType this token errorHandler)
    /\ (forall type' isConstValue' isConstPointer',
          define declared name type' isConstValue' isConstPointer'
          = Throw (runtime_error ("Redeclaration of '" +:+ name +:+ "'"))).
Proof.
  intros Hnew. unfold define, try_emplace. rewrite Hnew. cbn [negb].
  eexists. split; [reflexivity|]. cbn [m_Types m_Enclosing]. repeat split.
  - intros token errorHandler E. unfold getType. by rewrite E, Hnew.
  - intros token errorHandler <-. unfold getType. cbn [m_Types].
    by rewrite lookup_insert_eq.
  - intros token errorHandler Hne. unfold getType. cbn [m_Types m_Enclosing].
    by rewrite lookup_insert_ne.
  - intros. by rewrite lookup_insert_eq.
Qed.

Lemma define_getType_witness :
  exists declared,
    define {| m_Enclosing := None; m_Types := ∅ |} "V"
      (NumericType Numeric.Float) true false = Ok declared
    /\ getType declared (mkToken IDENTIFIER "V" 1) []
       = (inr {| qualifiedType := NumericType Numeric.Float;
                 constValue := true; constPointer := false |}, []).
Proof.
  destruct (define_getType {| m_Enclosing := None; m_Types := ∅ |} "V"
              (NumericType Numeric.Float) true false (lookup_empty _))
    as (declared & Hdefine & _ & Hget & _).
  exists declared. split; [exact Hdefine|]. by apply Hget.
Defined.

End TypeEnvironmentFacts.

(** ** Indices of variables *)
Module VarIndexFacts.
Import VarIndex.

Section VarIndex.

Variables SHARED SHARED_NEURON : N.

Local Abbreviation getVarIndex := (getVarIndex SHARED SHARED_NEURON).
Local Abbreviation getVarRefIndex := (getVarRefIndex SHARED SHARED_NEURON).
Local Abbreviation getVarIndexWU := (getVarIndexWU SHARED).
Local Abbreviation getVarRefIndexWU := (getVarRefIndexWU SHARED).
Local Abbreviation getNeuronVarIndex := (getNeuronVarIndex SHARED SHARED_NEURON).
Local Abbreviation getReadVarIndex := (getReadVarIndex SHARED SHARED_NEURON).
Local Abbreviation getWriteVarIndex := (getWriteVarIndex SHARED SHARED_NEURON).
Local Abbreviation delayedVarIndex := (delayedVarIndex SHARED SHARED_NEURON).

(** Indices in custom updates, for an index that is not empty (which the
    code asserts).  The code of a custom update that is not batched
    indexes its variables and variable references with no batch
    offset: the index is the one given, 0, or a delay slot or delay offset.
    A variable that is shared between batches is indexed alike in batched
    and unbatched updates.  The index of a variable of a custom weight
    update is the index of a variable of a custom update with the same
    duplication, unless the variable is shared per neuron; and variables
    and variable references of a custom weight update are indexed
    alike. *)
Theorem custom_update_indices (isBatched delay : bool) (varDuplication : N)
  (index : string) :
  index <> "" ->
  getVarIndex false varDuplication index ∈ [index; "0"]
  /\ getVarRefIndex false delay varDuplication index
     ∈ [index; "0"; "delaySlot"; "delayOffset + " +:+ index]
  /\ getVarRefIndex isBatched false varDuplication index
     = getVarIndex isBatched varDuplication index
  /\ (varDuplication = SHARED -> SHARED <> SHARED_NEURON ->
      getVarIndex isBatched varDuplication index = index
      /\ getVarRefIndex isBatched true varDuplication index
         = "delayOffset + " +:+ index)
  /\ (varDuplication <> SHARED_NEURON ->
      getVarIndexWU isBatched varDuplication index
      = getVarIndex isBatched varDuplication index)
  /\ getVarRefIndexWU isBatched varDuplication index
     = getVarIndexWU isBatched varDuplication index.
Proof.
  intros _.
  unfold VarIndex.getVarRefIndex, VarIndex.getVarIndex, VarIndex.getVarIndexWU,
    VarIndex.getVarRefIndexWU.
  repeat split.
  - destruct (varDuplication =? SHARED_NEURON)%N; [|rewrite orb_true_r];
      rewrite ?elem_of_cons; auto.
  - destruct delay, (varDuplication =? SHARED_NEURON)%N;
      rewrite ?orb_true_r, ?elem_of_cons; auto 10.
  - subst. apply N.eqb_neq in H0. rewrite H0, N.eqb_refl. done.
  - subst. apply N.eqb_neq in H0. rewrite H0, N.eqb_refl. done.
  - intros Hne. apply N.eqb_neq in Hne. rewrite Hne.
    by destruct (_ || _).
Qed.

(** Indices in neuron updates.  Without delay a variable is read and
    written at the same index, the one [getVarIndex] gives; with delay the
    index read and the index written are the same text but for the words
    read and write they start with.  For a variable that is not shared
    per neuron the index is a prefix, which does not depend on the index
    given, followed by that index: the index for the empty index can be
    used as an offset.  A neuron update indexes its variables as a custom
    update that is batched exactly when the batch size is not 1 (for an
    index that is not empty, which the custom update asserts). *)
Theorem neuron_update_indices (delay : bool) (batchSize varDuplication : N)
  (index : string) :
  getReadVarIndex false batchSize varDuplication index
  = getNeuronVarIndex batchSize varDuplication index
  /\ getWriteVarIndex false batchSize varDuplication index
     = getNeuronVarIndex batchSize varDuplication index
  /\ getReadVarIndex true batchSize varDuplication index
     = delayedVarIndex "read" batchSize varDuplication index
  /\ getWriteVarIndex true batchSize varDuplication index
     = delayedVarIndex "write" batchSize varDuplication index
  /\ (varDuplication <> SHARED_NEURON ->
      getReadVarIndex delay batchSize varDuplication index
      = getReadVarIndex delay batchSize varDuplication "" +:+ index
      /\ getWriteVarIndex delay batchSize varDuplication index
         = getWriteVarIndex delay batchSize varDuplication "" +:+ index)
  /\ (index <> "" ->
      getNeuronVarIndex batchSize varDuplication index
      = getVarIndex (negb (batchSize =? 1)%N) varDuplication index).
Proof.
  unfold VarIndex.getReadVarIndex, VarIndex.getWriteVarIndex,
    VarIndex.getNeuronVarIndex, VarIndex.delayedVarIndex, VarIndex.getVarIndex.
  repeat split.
  - by destruct (varDuplication =? SHARED_NEURON)%N, (batchSize =? 1)%N,
      (varDuplication =? SHARED)%N.
  - by destruct (varDuplication =? SHARED_NEURON)%N, (batchSize =? 1)%N,
      (varDuplication =? SHARED)%N.
  - apply N.eqb_neq in H. rewrite H.
    destruct delay, (_ || _); try done.
  - apply N.eqb_neq in H. rewrite H.
    destruct delay, (_ || _); try done.
  - intros _. destruct (batchSize =? 1)%N; by rewrite ?negb_involutive.
Qed.

End VarIndex.

Lemma custom_update_indices_witness :
  VarIndex.getVarIndex 64 128 true 64 "id" = "id"
  /\ VarIndex.getVarIndexWU 64 true 32 "id_syn"
     = VarIndex.getVarIndex 64 128 true 32 "id_syn".
Proof.
  destruct (custom_update_indices 64 128 true false 64 "id")
    as (_ & _ & _ & Hshared & _); [discriminate|].
  destruct (custom_update_indices 64 128 true false 32 "id_syn")
    as (_ & _ & _ & _ & Hwu & _); [discriminate|].
  split.
  - apply Hshared; [reflexivity | discriminate].
  - apply Hwu. discriminate.
Defined.

Lemma neuron_update_indices_witness :
  VarIndex.getWriteVarIndex 64 128 true 4 32 "id"
  = VarIndex.getWriteVarIndex 64 128 true 4 32 "" +:+ "id".
Proof.
  apply (neuron_update_indices 64 128 true 4 32 "id"). discriminate.
Defined.

End VarIndexFacts.

(** ** Literals *)
Module LiteralsFacts.
Import Scanner Lexical Literals ScannerFacts LexicalFacts.

Ltac fields :=
  cbn [m_Start m_Current m_Line m_Source m_Context m_ErrorHandler].

Lemma moveToken_0 (tokens : list Token) : moveToken 0 <$> tokens = tokens.
Proof.
  induction tokens as [|[ty lx l] tokens IH]; [done|].
  rewrite fmap_cons, IH. unfold moveToken. cbn [type lexeme line].
  by rewrite Nat.add_0_r.
Qed.

Lemma moveError_0 (errors : ErrorLog) : moveError 0 <$> errors = errors.
Proof.
  induction errors as [|[l m] errors IH]; [done|].
  rewrite fmap_cons, IH. unfold moveError. cbn [fst snd].
  by rewrite Nat.add_0_r.
Qed.

(** [scanSource] never reads the log of the handler. *)
Lemma scanSource_handler source context errorHandler :
  scanSource source context errorHandler
  = match scanSource source context [] with
    | Ok (tokens, reported) => Ok (tokens, errorHandler ++ reported)
    | Throw e => Throw e
    end.
Proof.
  unfold scanSource.
  replace (newScanState source context errorHandler)
    with (moveState "" 0 errorHandler (newScanState source context [])).
  2:{ unfold moveState, newScanState.
      cbn [m_Start m_Current m_Line m_Source m_Context m_ErrorHandler fmap
           list_fmap String.length Nat.add].
      by rewrite app_nil_r, append_nil. }
  rewrite loopFuel_move.
  change (@nil Token) with (moveTokens 0 [] []) at 1.
  rewrite scanTokens_move.
  destruct (scanTokens _ (newScanState source context []) [])
    as [[s tokens]|e]; [|done].
  unfold moveOutcome, mbind, Result_bind. rewrite emplaceToken_move.
  unfold moveTokens, moveState.
  cbn [m_ErrorHandler app]. by rewrite moveToken_0, moveError_0.
Qed.

Lemma isodigit_x d e :
  isodigit d = true -> e = "x"%char \/ e = "X"%char -> d <> e.
Proof. intros Hd [-> | ->] ->; discriminate Hd. Qed.

(** Octal literals.  A 0 before an octal digit is reported as an error on
    its line and gives no token; the scan goes on after the 0: what
    follows is scanned as if the source began there, and its errors come
    after the error of the 0. *)
Theorem scanSource_octal (d : ascii) (rest : string)
  (context : TypeContext) (errorHandler : ErrorLog) :
  isodigit d = true ->
  scanSource (String "0" (String d rest)) context errorHandler
  = match scanSource (String d rest) context [] with
    | Ok (tokens, errors) =>
        Ok (tokens,
            errorHandler ++ [(1, "Octal literals unsupported.")] ++ errors)
    | Throw e => Throw e
    end.
Proof.
  intros Hd.
  set (source := String "0" (String d rest)).
  set (log := errorHandler ++ [(1, "Octal literals unsupported.")]).
  assert (Hfirst : scanToken (mkScanState 0 0 1 source context errorHandler) []
                   = Ok (mkScanState 0 1 1 source context log, [])).
  { rewrite (scanToken_digit _ "0" (mkScanState 0 1 1 source context errorHandler))
      by (by apply advance_at || done).
    unfold scanNumber. change (Ascii.eqb "0" "0") with true. cbv iota.
    rewrite !match_false.
    - cbv beta iota. rewrite (peek_get _ d) by done.
      rewrite Hd. done.
    - cbn [m_Current m_Source]. intros c [= <-]. apply isodigit_x; auto.
    - cbn [m_Current m_Source]. intros c [= <-]. apply isodigit_x; auto. }
  unfold scanSource at 1. unfold newScanState.
  assert (Hfuel : loopFuel (mkScanState 0 0 1 source context errorHandler)
                  = S (S (S (String.length rest)))).
  { unfold loopFuel. cbn. lia. }
  rewrite Hfuel, scanTokens_unfold.
  change (isAtEnd (mkScanState 0 0 1 source context errorHandler)) with false.
  change (negb false) with true. cbv iota.
  change (resetLexeme (mkScanState 0 0 1 source context errorHandler))
    with (mkScanState 0 0 1 source context errorHandler).
  rewrite Hfirst. unfold mbind at 2, Result_bind at 2. cbv beta iota.
  rewrite scanTokens_resetLexeme by done.
  replace (resetLexeme (mkScanState 0 1 1 source context log))
    with (moveState "0" 0 log (newScanState (String d rest) context [])).
  2:{ unfold moveState, newScanState, resetLexeme.
      cbn [m_Start m_Current m_Line m_Source m_Context m_ErrorHandler fmap
           list_fmap String.length Nat.add].
      by rewrite app_nil_r. }
  change (@nil Token) with (moveTokens 0 [] []) at 1.
  rewrite scanTokens_move.
  unfold scanSource.
  change (loopFuel (newScanState (String d rest) context []))
    with (S (S (String.length rest))).
  destruct (scanTokens _ (newScanState (String d rest) context []) [])
    as [[s tokens]|e]; [|done].
  unfold moveOutcome, mbind, Result_bind. rewrite emplaceToken_move.
  unfold moveTokens, moveState, log.
  cbn [m_ErrorHandler app]. rewrite moveToken_0, moveError_0.
  by rewrite <- app_assoc.
Qed.

Lemma scanSource_octal_witness :
  scanSource "007" ∅ []
  = Ok ([mkToken INT32_NUMBER "7" 1; mkToken END_OF_FILE "7" 1],
        [(1, "Octal literals unsupported.");
         (1, "Octal literals unsupported.")]).
Proof.
  assert (H0 : isodigit "0" = true) by reflexivity.
  pose proof (scanSource_octal "0" "7" ∅ [] H0) as H.
  assert (H' : scanSource "07" ∅ []
               = Ok ([mkToken INT32_NUMBER "7" 1; mkToken END_OF_FILE "7" 1],
                     [(1, "Octal literals unsupported.")])) by reflexivity.
  rewrite H' in H. exact H.
Defined.

(** A run of the characters of [text], which satisfy [pc], up to the end
    of the source or to a character that does not. *)
Lemma advanceWhile_text (pc : ascii -> bool) s (text : string) :
  pc "000"%char = false ->
  all pc text = true ->
  (forall j, j < String.length text ->
     String.get (m_Current s + j) (m_Source s) = String.get j text) ->
  (forall c, String.get (m_Current s + String.length text) (m_Source s) = Some c ->
     pc c = false) ->
  advanceWhile (loopFuel s) (fun s => pc (peek s)) s
  = Ok (set_Current s (m_Current s + String.length text)).
Proof.
  intros H0 Hall Hget Hstop.
  apply (advanceWhile_run pc _ s (String.length text)); [exact H0| | |].
  - intros j Hj. rewrite Hget by done. by apply all_get.
  - destruct (String.get (m_Current s + String.length text) (m_Source s))
      as [c|] eqn:E.
    + right. exists c. split; [done|]. by apply Hstop.
    + left.
      destruct (Nat.le_gt_cases (String.length (m_Source s))
                  (m_Current s + String.length text)) as [|Hlt]; [done|].
      destruct (get_lt _ _ Hlt) as [c Hc]. congruence.
  - unfold loopFuel.
    destruct (String.length text) as [|k] eqn:Ek; [lia|].
    assert (Hlast : k < String.length text) by lia.
    destruct (all_get pc text k Hall Hlast) as (c & Hc & _).
    rewrite <- Hget in Hc by lia. apply get_Some_lt in Hc. lia.
Qed.

Lemma get_after (a b : string) j :
  String.get (String.length a + j) (a +:+ b) = String.get j b.
Proof. apply get_append_r. Qed.

Lemma peek_at s o :
  String.get (m_Current s) (m_Source s) = o ->
  peek s = match o with Some c => c | None => "000"%char end.
Proof.
  intros <-. destruct (String.get _ _) as [c|] eqn:E.
  - by apply peek_get.
  - apply peek_end.
    destruct (Nat.le_gt_cases (String.length (m_Source s)) (m_Current s))
      as [|Hlt]; [done|].
    destruct (get_lt _ _ Hlt) as [c Hc]. congruence.
Qed.

Lemma substring_middle (a b c : string) :
  substring (String.length a) (String.length b) (a +:+ b +:+ c) = b.
Proof.
  induction a as [|x a IH].
  - rewrite append_nil. cbn [String.length]. apply substring_prefix.
  - rewrite append_cons. cbn [String.length substring]. apply IH.
Qed.

Lemma isDigits_first (digits : string) :
  isDigits digits = true -> digits <> "" ->
  exists c, String.get 0 digits = Some c /\ isdigit c = true.
Proof.
  intros H Hne. apply isDigits_get; [done|]. destruct digits; [done|].
  cbn [String.length]. lia.
Qed.

Section FloatingLiteral.

Variables (before after : string) (d : ascii) (pre post : string).
Variable exponent : option (string * string).
Hypothesis Hd : isdigit d = true.
Hypothesis Hpre : isDigits pre = true.
Hypothesis Hpost : isDigits post = true.
Hypothesis Hlead : notOctal d pre = true.
Hypothesis Hexp : isExponent exponent = true.
Hypothesis Hends : endsLiteral exponent after = true.

Variables (line : nat) (context : TypeContext) (errorHandler : ErrorLog).

Local Abbreviation expo := (exponentText exponent).
Local Abbreviation literal := (String d pre +:+ "." +:+ post +:+ expo).
Local Abbreviation source := (before +:+ literal +:+ after).
Local Abbreviation tail3 := (expo +:+ after).
Local Abbreviation tail2 := (post +:+ tail3).
Local Abbreviation tail1 := (pre +:+ String "." tail2).
Local Abbreviation P := (String.length before).
Local Abbreviation p1 := (P + 1).
Local Abbreviation p2 := (p1 + String.length pre).
Local Abbreviation p3 := (p2 + 1).
Local Abbreviation p4 := (p3 + String.length post).
Local Abbreviation pend := (p4 + String.length expo).
Local Abbreviation at_ current :=
  (mkScanState P current line source context errorHandler).

Lemma floating_source : source = before +:+ String d tail1.
Proof. by rewrite !append_assoc, !append_cons. Qed.

Lemma floating_length : String.length literal = pend - P.
Proof.
  rewrite append_cons. cbn [String.length]. rewrite !length_append.
  cbn [String.length]. lia.
Qed.

Lemma floating_get0 : String.get P source = Some d.
Proof.
  rewrite floating_source, <- (Nat.add_0_r P). by rewrite get_after.
Qed.

Lemma floating_get1 j : String.get (p1 + j) source = String.get j tail1.
Proof.
  rewrite floating_source. replace (P + 1 + j) with (P + S j) by lia.
  by rewrite get_after.
Qed.

Lemma floating_get3 j : String.get (p3 + j) source = String.get j tail2.
Proof.
  replace (p3 + j) with (p1 + (String.length pre + S j)) by lia.
  by rewrite floating_get1, get_after.
Qed.

Lemma floating_get4 j : String.get (p4 + j) source = String.get j tail3.
Proof.
  replace (p4 + j) with (p3 + (String.length post + j)) by lia.
  by rewrite floating_get3, get_after.
Qed.

Lemma floating_get_end j : String.get (pend + j) source = String.get j after.
Proof.
  replace (pend + j) with (p4 + (String.length expo + j)) by lia.
  by rewrite floating_get4, get_after.
Qed.

(** The first character after the first digit: a digit or the point. *)
Lemma floating_second :
  exists c, String.get p1 source = Some c
            /\ (isdigit c = true \/ c = "."%char)
            /\ isodigit c = match pre with
                            | String c _ => isodigit c
                            | "" => false
                            end.
Proof.
  rewrite <- (Nat.add_0_r p1), floating_get1.
  destruct pre as [|c p] eqn:E.
  - exists "."%char. rewrite append_nil. auto.
  - exists c. rewrite append_cons. split; [done|]. split; [|done]. left.
    unfold isDigits in Hpre. cbn in Hpre. by apply andb_true_iff in Hpre as [? _].
Qed.

Lemma floating_no_prefix :
  (if Ascii.eqb d "0" then
     let '(mx, sx) := match_ "x" (at_ p1) in
     if mx then (true, sx) else match_ "X" sx
   else (false, at_ p1)) = (false, at_ p1).
Proof.
  destruct (Ascii.eqb d "0"); [|done].
  destruct floating_second as (c & Hc & Hdigit & _).
  assert (Hx : forall e, e = "x"%char \/ e = "X"%char -> c <> e).
  { intros e He ->. destruct Hdigit as [H | ->].
    - destruct He as [-> | ->]; discriminate H.
    - destruct He; discriminate. }
  rewrite !match_false; [done| |]; fields; intros c' Hc';
    rewrite Hc in Hc'; injection Hc' as <-; apply Hx; auto.
Qed.

Lemma floating_not_octal :
  Ascii.eqb d "0" && isodigit (peek (at_ p1)) = false.
Proof.
  destruct floating_second as (c & Hc & _ & Ho).
  rewrite (peek_get (at_ p1) c) by done. rewrite Ho.
  unfold notOctal in Hlead. by apply negb_true_iff in Hlead.
Qed.

Lemma floating_pre :
  advanceWhile (loopFuel (at_ p1)) (fun s => isdigit (peek s)) (at_ p1)
  = Ok (at_ p2).
Proof.
  apply (advanceWhile_text isdigit (at_ p1) pre); [done|done| |]; fields.
  - intros j Hj. rewrite floating_get1. by apply get_append_l.
  - intros c. rewrite floating_get1.
    rewrite <- (Nat.add_0_r (String.length pre)), get_after.
    by intros [= <-].
Qed.

Lemma floating_point : match_ "." (at_ p2) = (true, at_ p3).
Proof.
  apply match_true. fields. rewrite floating_get1.
  by rewrite <- (Nat.add_0_r (String.length pre)), get_after.
Qed.

(** The character at the end of the digits after the point. *)
Lemma floating_after_post c :
  String.get 0 tail3 = Some c ->
  isdigit c = false
  /\ (c = "e"%char <-> exists sign digits, exponent = Some (sign, digits)).
Proof.
  assert (Hcase : (exists sign digits, exponent = Some (sign, digits))
                  \/ exponent = None)
    by (destruct exponent as [[]|]; eauto).
  destruct Hcase as [(sign & digits & E) | E].
  - assert (Hexpo : expo = String "e" (sign +:+ digits)) by (by rewrite E).
    rewrite Hexpo, append_cons. intros [= <-].
    split; [done|]. split; eauto.
  - assert (Hexpo : expo = "") by (by rewrite E).
    rewrite Hexpo, append_nil.
    assert (Hends' : endsLiteral None after = true) by (by rewrite <- E).
    unfold endsLiteral in Hends'.
    destruct after as [|a rest]; [done|]. intros [= <-].
    apply andb_true_iff in Hends' as [Hdig He].
    apply negb_true_iff in Hdig, He. apply Ascii.eqb_neq in He.
    split; [done|]. split; [done|]. intros (? & ? & ?). congruence.
Qed.

Lemma floating_post :
  advanceWhile (loopFuel (at_ p3)) (fun s => isdigit (peek s)) (at_ p3)
  = Ok (at_ p4).
Proof.
  apply (advanceWhile_text isdigit (at_ p3) post); [done|done| |]; fields.
  - intros j Hj. rewrite floating_get3. by apply get_append_l.
  - intros c. rewrite <- (Nat.add_0_r p4), floating_get4.
    intros Hc. by apply floating_after_post in Hc as [? _].
Qed.

(** The text after the literal begins with no digit. *)
Lemma floating_end c : String.get 0 after = Some c -> isdigit c = false.
Proof.
  unfold endsLiteral in Hends. destruct after as [|a rest]; [done|].
  intros [= <-]. apply andb_true_iff in Hends as [Hdig _].
  by apply negb_true_iff in Hdig.
Qed.

(** The exponent: the scan from the end of the digits after the point to
    the end of the literal. *)
Lemma floating_exponent :
  (let '(me, s4) := match_ "e" (at_ p4) in
   if me then
     s5 ← (if Ascii.eqb (peek s4) "-" || Ascii.eqb (peek s4) "+"
           then '(_, s') ← advance s4; Ok s'
           else Ok s4);
     advanceWhile (loopFuel s5) (fun s => isdigit (peek s)) s5
   else Ok s4) = Ok (at_ pend).
Proof.
  pose proof (floating_get4 0) as Hget. rewrite Nat.add_0_r in Hget.
  assert (Hcase : (exists sign digits, exponent = Some (sign, digits))
                  \/ exponent = None)
    by (destruct exponent as [[]|]; eauto).
  destruct Hcase as [(sign & digits & E) | E].
  - assert (Hexpo : expo = String "e" (sign +:+ digits)) by (by rewrite E).
    assert (Hexp' : isExponent (Some (sign, digits)) = true)
      by (by rewrite <- E).
    assert (H0 : String.get 0 tail3 = Some "e"%char) by (by rewrite Hexpo).
    rewrite H0 in Hget. rewrite (match_true "e" (at_ p4)) by done.
    cbv beta iota. unfold set_Current. fields.
    cbn [isExponent] in Hexp'. apply andb_true_iff in Hexp' as [Hexp' Hne].
    apply andb_true_iff in Hexp' as [Hsign Hdigits].
    apply negb_true_iff, bool_decide_eq_false in Hne.
    apply bool_decide_eq_true in Hsign.
    destruct (isDigits_first digits Hdigits Hne) as (c0 & Hc0 & Hdig0).
    assert (Hget5 : forall j,
              String.get (p4 + 1 + j) source
              = String.get j (sign +:+ digits +:+ after)).
    { intros j. replace (p4 + 1 + j) with (p4 + S j) by lia.
      rewrite floating_get4. rewrite Hexpo, append_cons. cbn [String.get].
      by rewrite append_assoc. }
    assert (Hrun : forall s,
              s = at_ (p4 + 1 + String.length sign) ->
              advanceWhile (loopFuel s) (fun s => isdigit (peek s)) s
              = Ok (at_ (p4 + 1 + String.length sign + String.length digits))).
    { intros s ->.
      apply (advanceWhile_text isdigit (at_ (p4 + 1 + String.length sign))
               digits); [done|done| |]; fields.
      - intros j Hj.
        replace (p4 + 1 + String.length sign + j)
          with (p4 + 1 + (String.length sign + j)) by lia.
        rewrite Hget5, get_after. by apply get_append_l.
      - intros c.
        replace (p4 + 1 + String.length sign + String.length digits)
          with (p4 + 1 + (String.length sign + (String.length digits + 0)))
          by lia.
        rewrite Hget5, !get_after. apply floating_end. }
    assert (Hlen : p4 + 1 + String.length sign + String.length digits = pend).
    { rewrite Hexpo. cbn [String.length]. rewrite length_append. lia. }
    rewrite <- Hlen.
    pose proof (Hget5 0) as Hsign0. rewrite Nat.add_0_r in Hsign0.
    rewrite !elem_of_cons in Hsign.
    destruct Hsign as [-> | [-> | [-> | Hnone]]].
    + rewrite append_nil in Hsign0.
      rewrite (get_append_l digits after 0) in Hsign0
        by (destruct digits; [done | cbn; lia]).
      rewrite (peek_get (at_ (p4 + 1)) c0) by (fields; congruence).
      replace (Ascii.eqb c0 "-" || Ascii.eqb c0 "+") with false
        by (destruct c0 as [[] [] [] [] [] [] [] []]; try done;
            discriminate Hdig0).
      cbv iota. unfold mbind, Result_bind. apply Hrun.
      cbn [String.length]. by rewrite Nat.add_0_r.
    + rewrite append_cons in Hsign0. cbn [String.get] in Hsign0.
      rewrite (peek_get (at_ (p4 + 1)) "+") by done.
      cbn [Ascii.eqb Bool.eqb orb]. cbv iota.
      rewrite (advance_at _ _ _ _ _ _ "+") by done.
      unfold mbind, Result_bind. apply Hrun. done.
    + rewrite append_cons in Hsign0. cbn [String.get] in Hsign0.
      rewrite (peek_get (at_ (p4 + 1)) "-") by done.
      cbn [Ascii.eqb Bool.eqb orb]. cbv iota.
      rewrite (advance_at _ _ _ _ _ _ "-") by done.
      unfold mbind, Result_bind. apply Hrun. done.
    + by apply elem_of_nil in Hnone.
  - assert (Hexpo : expo = "") by (by rewrite E).
    replace pend with p4 by (rewrite Hexpo; cbn [String.length]; lia).
    rewrite match_false; [done|]. fields. intros c Hc. rewrite Hget in Hc.
    apply floating_after_post in Hc as [_ Hc]. intros ->.
    destruct (proj1 Hc eq_refl) as (? & ? & ?). congruence.
Qed.

Lemma floating_lexeme : getLexeme (at_ pend) = literal.
Proof.
  unfold getLexeme. fields. rewrite <- floating_length.
  apply substring_middle.
Qed.

Lemma floating_peek_end :
  peek (at_ pend)
  = match after with String c _ => c | "" => "000"%char end.
Proof.
  rewrite (peek_at (at_ pend) (String.get 0 after)).
  - by destruct after.
  - fields. by rewrite <- (Nat.add_0_r pend), floating_get_end.
Qed.

(** A floating literal at the current position, in any source: one token
    with the literal as its lexeme. *)
Lemma scanToken_floating tokens :
  scanToken (at_ P) tokens
  = match floatingSuffix after with
    | Some type =>
        Ok (at_ (pend + 1), tokens ++ [mkToken type literal line])
    | None =>
        t ← getScalarTokenType (at_ pend);
        Ok (at_ pend, tokens ++ [mkToken t literal line])
    end.
Proof.
  rewrite (scanToken_digit _ d (at_ p1))
    by (by apply advance_at, floating_get0 || done).
  unfold scanNumber. rewrite floating_no_prefix. cbv beta iota.
  rewrite floating_not_octal, floating_pre.
  unfold mbind at 1, Result_bind at 1. cbv beta iota.
  rewrite floating_point. cbv beta iota. rewrite floating_post.
  unfold mbind at 1, Result_bind at 1. cbv beta iota.
  pose proof floating_exponent as Hexponent.
  destruct (match_ "e" (at_ p4)) as [me s4]. rewrite Hexponent.
  unfold mbind at 1, Result_bind at 1. cbv beta iota.
  unfold emplaceToken, getLine. rewrite floating_lexeme. fields.
  assert (Hcase : after = "" \/ exists c rest, after = String c rest)
    by (destruct after; eauto).
  destruct Hcase as [E | (c & rest & E)].
  - assert (Hp : peek (at_ pend) = "000"%char)
      by (rewrite floating_peek_end; by rewrite E).
    assert (Hs : floatingSuffix after = None) by (by rewrite E).
    rewrite Hp, Hs.
    change (Ascii.eqb (tolower "000") "f") with false.
    change (Ascii.eqb (tolower "000") "d") with false. done.
  - assert (Hp : peek (at_ pend) = c)
      by (rewrite floating_peek_end; by rewrite E).
    assert (Hs : floatingSuffix after
                 = if Ascii.eqb (tolower c) "f" then Some FLOAT_NUMBER
                   else if Ascii.eqb (tolower c) "d" then Some DOUBLE_NUMBER
                   else None) by (by rewrite E).
    assert (Hadv : advance (at_ pend) = Ok (c, at_ (pend + 1))).
    { apply advance_at. rewrite <- (Nat.add_0_r pend), floating_get_end.
      by rewrite E. }
    rewrite Hp, Hs.
    destruct (Ascii.eqb (tolower c) "f"); [cbv zeta; by rewrite Hadv|].
    destruct (Ascii.eqb (tolower c) "d"); [cbv zeta; by rewrite Hadv|].
    done.
Qed.

End FloatingLiteral.

Section HexLiteral.

Variables (before after : string) (x : ascii) (h1 h2 : string).
Hypothesis Hx : x = "x"%char \/ x = "X"%char.
Hypothesis Hh1 : all isxdigit h1 = true.
Hypothesis Hh2 : all isxdigit h2 = true.
Hypothesis Hends : endsHexLiteral after = true.

Variables (line : nat) (context : TypeContext).

Local Abbreviation literal := (String "0" (String x h1) +:+ "." +:+ h2).
Local Abbreviation source := (before +:+ literal +:+ after).
Local Abbreviation tail2 := (h2 +:+ after).
Local Abbreviation tail1 := (h1 +:+ String "." tail2).
Local Abbreviation P := (String.length before).
Local Abbreviation p2 := (P + 1 + 1).
Local Abbreviation p3 := (p2 + String.length h1).
Local Abbreviation p4 := (p3 + 1).
Local Abbreviation pend := (p4 + String.length h2).
Local Abbreviation at_ log current :=
  (mkScanState P current line source context log).

Lemma hex_source : source = before +:+ String "0" (String x tail1).
Proof. by rewrite !append_assoc, !append_cons. Qed.

Lemma hex_length : String.length literal = pend - P.
Proof.
  rewrite !append_cons, ?append_nil. cbn [String.length].
  rewrite !length_append. cbn [String.length]. lia.
Qed.

Lemma hex_get0 : String.get P source = Some "0"%char.
Proof. rewrite hex_source, <- (Nat.add_0_r P). by rewrite get_after. Qed.

Lemma hex_get1 : String.get (P + 1) source = Some x.
Proof. rewrite hex_source. by rewrite get_after. Qed.

Lemma hex_get2 j : String.get (p2 + j) source = String.get j tail1.
Proof.
  rewrite hex_source. replace (P + 1 + 1 + j) with (P + S (S j)) by lia.
  by rewrite get_after.
Qed.

Lemma hex_get4 j : String.get (p4 + j) source = String.get j tail2.
Proof.
  replace (p4 + j) with (p2 + (String.length h1 + S j)) by lia.
  by rewrite hex_get2, get_after.
Qed.

Lemma hex_get_end j : String.get (pend + j) source = String.get j after.
Proof.
  replace (pend + j) with (p4 + (String.length h2 + j)) by lia.
  by rewrite hex_get4, get_after.
Qed.

Lemma hex_prefix log :
  (let '(mx, sx) := match_ "x" (at_ log (P + 1)) in
   if mx then (true, sx) else match_ "X" sx) = (true, at_ log p2).
Proof.
  destruct Hx as [E | E].
  - rewrite (match_true "x" (at_ log (P + 1)))
      by (fields; rewrite hex_get1; by rewrite E).
    done.
  - rewrite (match_false "x" (at_ log (P + 1))).
    2:{ fields. intros c. rewrite hex_get1, E. by intros [= <-]. }
    rewrite (match_true "X" (at_ log (P + 1)))
      by (fields; rewrite hex_get1; by rewrite E).
    done.
Qed.

Lemma hex_first log :
  advanceWhile (loopFuel (at_ log p2)) (fun s => isxdigit (peek s)) (at_ log p2)
  = Ok (at_ log p3).
Proof.
  apply (advanceWhile_text isxdigit (at_ log p2) h1); [done|done| |]; fields.
  - intros j Hj. rewrite hex_get2. by apply get_append_l.
  - intros c. rewrite hex_get2.
    rewrite <- (Nat.add_0_r (String.length h1)), get_after.
    by intros [= <-].
Qed.

Lemma hex_point log : match_ "." (at_ log p3) = (true, at_ log p4).
Proof.
  apply match_true. fields. rewrite hex_get2.
  by rewrite <- (Nat.add_0_r (String.length h1)), get_after.
Qed.

Lemma hex_end c :
  String.get 0 after = Some c ->
  isxdigit c = false
  /\ Ascii.eqb (toupper c) "U" || Ascii.eqb (toupper c) "L" = false.
Proof.
  assert (Hcase : after = "" \/ exists a rest, after = String a rest)
    by (destruct after; eauto).
  destruct Hcase as [E | (a & rest & E)]; rewrite E; [done|].
  intros [= <-].
  assert (Hends' : endsHexLiteral (String a rest) = true) by (by rewrite <- E).
  unfold endsHexLiteral in Hends'.
  apply andb_true_iff in Hends' as [H1 H2].
  by apply negb_true_iff in H1, H2.
Qed.

Lemma hex_second log :
  advanceWhile (loopFuel (at_ log p4)) (fun s => isxdigit (peek s)) (at_ log p4)
  = Ok (at_ log pend).
Proof.
  apply (advanceWhile_text isxdigit (at_ log p4) h2); [done|done| |]; fields.
  - intros j Hj. rewrite hex_get4. by apply get_append_l.
  - intros c. rewrite <- (Nat.add_0_r pend), hex_get_end.
    intros Hc. by apply hex_end in Hc as [? _].
Qed.

Lemma hex_suffix log :
  scanIntegerSuffix (at_ log pend) = Ok (INT32_NUMBER, at_ log pend).
Proof.
  unfold scanIntegerSuffix, loopFuel. cbn [readSuffix].
  assert (Hs : isSuffixChar (at_ log pend) = false).
  { unfold isSuffixChar.
    rewrite (peek_at (at_ log pend) (String.get 0 after))
      by (fields; by rewrite <- (Nat.add_0_r pend), hex_get_end).
    destruct (String.get 0 after) as [c|] eqn:E; [|done].
    by apply hex_end in E as [_ ?]. }
  rewrite Hs. reflexivity.
Qed.

Lemma hex_lexeme log : getLexeme (at_ log pend) = literal.
Proof.
  unfold getLexeme. fields. rewrite <- hex_length. apply substring_middle.
Qed.

(** A hexadecimal literal with a point at the current position, in any
    source: an error on its line and one INT32_NUMBER token. *)
Lemma scanToken_hex_point errorHandler tokens :
  scanToken (at_ errorHandler P) tokens
  = Ok (at_ (errorHandler
             ++ [(line, "Hexadecimal floating pointer literals unsupported.")])
          pend,
        tokens ++ [mkToken INT32_NUMBER literal line]).
Proof.
  rewrite (scanToken_digit _ "0" (at_ errorHandler (P + 1)))
    by (by apply advance_at, hex_get0 || done).
  unfold scanNumber. change (Ascii.eqb "0" "0") with true. cbv iota.
  rewrite hex_prefix. cbv beta iota. rewrite hex_first.
  unfold mbind at 1, Result_bind at 1. cbv beta iota.
  rewrite hex_point. cbv beta iota.
  change (error "Hexadecimal floating pointer literals unsupported."
            (at_ errorHandler p4))
    with (at_ (errorHandler
               ++ [(line, "Hexadecimal floating pointer literals unsupported.")])
            p4).
  rewrite hex_second.
  unfold mbind at 1, Result_bind at 1. cbv beta iota.
  rewrite hex_suffix. unfold mbind, Result_bind, emplaceToken, getLine.
  by rewrite hex_lexeme.
Qed.

End HexLiteral.

Lemma floatingSuffix_ends exponent c type :
  floatingSuffix (String c "") = Some type ->
  endsLiteral exponent (String c "") = true.
Proof.
  unfold floatingSuffix, endsLiteral.
  destruct c as [[] [] [] [] [] [] [] []]; try discriminate;
    by destruct exponent.
Qed.

Lemma getLexeme_all source context errorHandler line :
  getLexeme (mkScanState 0 (String.length source) line source context
               errorHandler) = source.
Proof. unfold getLexeme. fields. rewrite Nat.sub_0_r. apply substring_all. Qed.




End LiteralsFacts.

(** ** parseNumeric *)
Module ParseNumericFacts.
Import Scanner Lexical ParseNumeric ScannerFacts LexicalFacts LiteralsFacts.



End ParseNumericFacts.
